(** * STUTTER: the cell heap, the collector and the evaluator of src/src/sipd.c

    A shallow embedding of the "stutter" Lisp interpreter (the last program
    of [src/src/sipd.c]): the tagged cells, the free list, the protection
    stack, the mark-and-sweep collector, the atom table, the value and
    special functions, the evaluator and the printer, followed by the
    properties of the specification that concern them. *)

From stdpp Require Import base option list sets strings pretty.
From Stdlib Require Import ZArith Lia Ascii.

Set Default Proof Using "Type".
Local Open Scope string_scope.
Local Open Scope nat_scope.

Module Stutter.

(** ** Data model *)

(** [typedef enum CELL_ENUM]. *)
Inductive CELL_TYPE :=
  CELL_LAMBDA | CELL_SFUNC | CELL_VFUNC | CELL_LIST | CELL_ATOM.

#[global] Instance CELL_TYPE_eq_dec : EqDecision CELL_TYPE.
Proof. solve_decision. Defined.

(** A [CELL *]: [NULL] or the address of [heap[i]]. *)
Inductive ptr := NULL | Cell (i : nat).

#[global] Instance ptr_eq_dec : EqDecision ptr.
Proof. solve_decision. Defined.

(** The host functions that [initialize] installs in function cells. *)
Inductive host_func :=
  | fn_car | fn_cdr | fn_cons | fn_set | fn_equal
  | fn_quote | fn_lambda | fn_lisp_if.

#[global] Instance host_func_eq_dec : EqDecision host_func.
Proof. solve_decision. Defined.

(** The [void *] payload slots [car] and [cdr] of a cell: a cell pointer
    ([cell_car], [cell_cdr]), a [char *] name ([cell_name]) or a function
    pointer ([cell_func]). *)
Inductive slot :=
  | to_cell (p : ptr)
  | to_name (name : string)
  | to_func (f : host_func).

#[global] Instance slot_eq_dec : EqDecision slot.
Proof. solve_decision. Defined.

(** [struct CELL_STRUCT]. The fields carry the prefix [c_] because [car],
    [cdr] and [mark] are also functions of the program. *)
Record CELL := mkCELL {
  c_car : slot;
  c_cdr : slot;
  c_type : CELL_TYPE;
  c_mark : bool
}.

#[global] Instance CELL_eq_dec : EqDecision CELL.
Proof. solve_decision. Defined.

Definition set_car (v : slot) (c : CELL) : CELL :=
  mkCELL v (c_cdr c) (c_type c) (c_mark c).
Definition set_cdr (v : slot) (c : CELL) : CELL :=
  mkCELL (c_car c) v (c_type c) (c_mark c).
Definition set_type (t : CELL_TYPE) (c : CELL) : CELL :=
  mkCELL (c_car c) (c_cdr c) t (c_mark c).
Definition set_mark (m : bool) (c : CELL) : CELL :=
  mkCELL (c_car c) (c_cdr c) (c_type c) m.

(** The globals of the program. [heap] is the array of [heap_size] cells;
    before the first [new_cell] it stands for the block that [xmalloc] is
    about to hand out, whose contents are indeterminate. [protect_table]
    holds the [protect_used] live entries of the protection stack, the most
    recent first. [out] is what has been printed so far, and [input] what
    the scanner has not consumed yet: the lines of tokens still to come. *)
Record state := mkState {
  heap : list CELL;
  binding_list : ptr;
  free_list : ptr;
  protect_table : list ptr;
  nil_cell : ptr;
  quote_cell : ptr;
  error_cell : ptr;
  true_cell : ptr;
  init : bool;
  out : list string;
  input : list (list string)
}.

Definition heap_size (s : state) : nat := length (heap s).

Definition with_heap (h : list CELL) (s : state) : state :=
  mkState h (binding_list s) (free_list s) (protect_table s) (nil_cell s)
    (quote_cell s) (error_cell s) (true_cell s) (init s) (out s) (input s).
Definition with_binding_list (p : ptr) (s : state) : state :=
  mkState (heap s) p (free_list s) (protect_table s) (nil_cell s)
    (quote_cell s) (error_cell s) (true_cell s) (init s) (out s) (input s).
Definition with_free_list (p : ptr) (s : state) : state :=
  mkState (heap s) (binding_list s) p (protect_table s) (nil_cell s)
    (quote_cell s) (error_cell s) (true_cell s) (init s) (out s) (input s).
Definition with_protect_table (t : list ptr) (s : state) : state :=
  mkState (heap s) (binding_list s) (free_list s) t (nil_cell s)
    (quote_cell s) (error_cell s) (true_cell s) (init s) (out s) (input s).
Definition with_init (b : bool) (s : state) : state :=
  mkState (heap s) (binding_list s) (free_list s) (protect_table s)
    (nil_cell s) (quote_cell s) (error_cell s) (true_cell s) b (out s) (input s).
Definition with_out (o : list string) (s : state) : state :=
  mkState (heap s) (binding_list s) (free_list s) (protect_table s)
    (nil_cell s) (quote_cell s) (error_cell s) (true_cell s) (init s) o (input s).
Definition with_input (i : list (list string)) (s : state) : state :=
  mkState (heap s) (binding_list s) (free_list s) (protect_table s)
    (nil_cell s) (quote_cell s) (error_cell s) (true_cell s) (init s) (out s) i.

(** ** Outcomes

    A routine returns ([Ok]), ends the process through [exit] ([Exit], with
    the status and the final state), does something C leaves undefined
    ([Crash]: it dereferences [NULL] or a pointer outside the heap, or reads
    a payload slot at the wrong type), or has not finished within the fuel
    it was given ([Diverge]). *)
Inductive result (A : Type) :=
  | Ok (a : A) (s : state)
  | Exit (status : nat) (s : state)
  | Crash
  | Diverge.
Arguments Ok {A} a s.
Arguments Exit {A} status s.
Arguments Crash {A}.
Arguments Diverge {A}.

Definition M (A : Type) : Type := state → result A.

Definition ret {A} (a : A) : M A := fun s => Ok a s.
Definition bind {A B} (m : M A) (k : A → M B) : M B :=
  fun s => match m s with
           | Ok a s' => k a s'
           | Exit n s' => Exit n s'
           | Crash => Crash
           | Diverge => Diverge
           end.
Definition crash {A} : M A := fun _ => Crash.
Definition diverge {A} : M A := fun _ => Diverge.
Definition exit {A} (status : nat) : M A := fun s => Exit status s.
Definition get : M state := fun s => Ok s s.
Definition modify (f : state → state) : M unit := fun s => Ok tt (f s).
Definition printf (msg : string) : M unit :=
  modify (fun s => with_out (out s ++ [msg]) s).

#[global] Instance M_ret : MRet M := @ret.
#[global] Instance M_bind : MBind M := fun A B k m => bind m k.

(** The character that delimits the atom's name in a diagnostic. *)
Definition dquote : string := String (Ascii.ascii_of_nat 34) EmptyString.

(** ** Cell access *)

(** [(CELL * )(c)->car]: the slot read as a cell pointer. *)
Definition as_cell (v : slot) : option ptr :=
  match v with to_cell p => Some p | _ => None end.

(** [c->field] for a [CELL *c]: undefined on [NULL] and outside the heap. *)
Definition deref (c : ptr) : M CELL :=
  fun s => match c with
           | NULL => Crash
           | Cell i => match heap s !! i with
                       | Some x => Ok x s
                       | None => Crash
                       end
           end.

Definition update (c : ptr) (f : CELL → CELL) : M unit :=
  fun s => match c with
           | NULL => Crash
           | Cell i => match heap s !! i with
                       | Some x => Ok tt (with_heap (<[i := f x]> (heap s)) s)
                       | None => Crash
                       end
           end.

Definition cell_car (c : ptr) : M ptr :=
  x ← deref c; match as_cell (c_car x) with Some p => ret p | None => crash end.
Definition cell_cdr (c : ptr) : M ptr :=
  x ← deref c; match as_cell (c_cdr x) with Some p => ret p | None => crash end.
Definition cell_name (c : ptr) : M string :=
  x ← deref c; match c_car x with to_name n => ret n | _ => crash end.
Definition cell_func (c : ptr) : M host_func :=
  x ← deref c; match c_car x with to_func f => ret f | _ => crash end.
Definition cell_type (c : ptr) : M CELL_TYPE := x ← deref c; ret (c_type x).

Definition cell_car_assign (c : ptr) (v : ptr) : M unit :=
  update c (set_car (to_cell v)).
Definition cell_cdr_assign (c : ptr) (v : ptr) : M unit :=
  update c (set_cdr (to_cell v)).
Definition cell_name_assign (c : ptr) (v : string) : M unit :=
  update c (set_car (to_name v)).
Definition cell_func_assign (c : ptr) (v : host_func) : M unit :=
  update c (set_car (to_func v)).
Definition cell_type_assign (c : ptr) (v : CELL_TYPE) : M unit :=
  update c (set_type v).

(** ** The collector *)

(** [mark] recurses into both slots of [CELL_LAMBDA] and [CELL_LIST] cells. *)
Definition has_children (t : CELL_TYPE) : bool :=
  match t with CELL_LAMBDA | CELL_LIST => true | _ => false end.

(** [mark], on the heap array. Every call that goes past the first test sets
    a mark bit that was clear, so the recursion is bounded by the number of
    unmarked cells; [mark] runs it with one more than the heap size as
    fuel. [None] is an access outside the heap or to a slot that does not
    hold a cell pointer. *)
Fixpoint mark_rec (fuel : nat) (cell : ptr) (h : list CELL) : option (list CELL) :=
  match fuel with
  | 0 => None
  | S fuel =>
      match cell with
      | NULL => Some h
      | Cell i =>
          c ← h !! i;
          if c_mark c then Some h
          else
            let h := <[i := set_mark true c]> h in
            if has_children (c_type c) then
              a ← as_cell (c_car c);
              h ← mark_rec fuel a h;
              d ← as_cell (c_cdr c);
              mark_rec fuel d h
            else Some h
      end
  end.

Definition mark (cell : ptr) (h : list CELL) : option (list CELL) :=
  mark_rec (S (length h)) cell h.

(** [for(i = 0; i < protect_used; i++) mark(protect_table[i])], on the
    entries in table order. *)
Fixpoint mark_all (roots : list ptr) (h : list CELL) : option (list CELL) :=
  match roots with
  | [] => Some h
  | r :: roots => h ← mark r h; mark_all roots h
  end.

(** One iteration of the sweep loop, at [heap[i]]. *)
Definition sweep_cell (i : nat) (st : list CELL * ptr * nat)
  : list CELL * ptr * nat :=
  let '(h, fl, count) := st in
  match h !! i with
  | None => st
  | Some c =>
      if c_mark c then (<[i := set_mark false c]> h, fl, count)
      else (<[i := set_mark false (set_car (to_cell fl) c)]> h, Cell i, S count)
  end.

(** The sweep loop from index [i] over [todo] cells. *)
Fixpoint sweep (todo i : nat) (st : list CELL * ptr * nat)
  : list CELL * ptr * nat :=
  match todo with
  | 0 => st
  | S todo => sweep todo (S i) (sweep_cell i st)
  end.

(** The roots in the order in which [garbage_collect] marks them. *)
Definition roots (s : state) : list ptr :=
  binding_list s :: reverse (protect_table s).

(** The two phases of [garbage_collect], on the heap and the free list. *)
Definition collect (s : state) : option (list CELL * ptr * nat) :=
  h ← mark_all (roots s) (heap s);
  Some (sweep (heap_size s) 0 (h, free_list s, 0)).

Definition garbage_collect : M unit :=
  printf "Garbage collecting..." ;;
  s ← get;
  match collect s with
  | None => crash
  | Some (h, fl, count) =>
      modify (fun s => with_free_list fl (with_heap h s)) ;;
      if decide (count = 0) then
        printf "
Garbage collection failed!
" ;; exit 1
      else printf ("harvested " +:+ pretty count +:+ " cells.
")
  end.

(** ** The allocator *)

(** The set-up of the free list on the first call of [new_cell]: cell [i]
    links to cell [i + 1], the last one to [NULL]. *)
Definition link_free (h : list CELL) : list CELL :=
  imap (fun i c =>
          set_car (to_cell (if decide (S i < length h) then Cell (S i) else NULL)) c) h.

(** The block of [new_cell] that runs on the first call only. *)
Definition setup_heap (s : state) : state :=
  with_protect_table []
    (with_free_list (Cell 0) (with_heap (link_free (heap s)) (with_init true s))).

Definition new_cell (type : CELL_TYPE) : M ptr :=
  s ← get;
  (if init s then ret tt
   else if decide (heap_size s = 0) then crash
   else modify setup_heap) ;;
  s ← get;
  (if decide (free_list s = NULL) then garbage_collect else ret tt) ;;
  s ← get;
  let cell := free_list s in
  next ← cell_car cell;
  modify (with_free_list next) ;;
  cell_type_assign cell type ;;
  cell_cdr_assign cell NULL ;;
  cell_car_assign cell NULL ;;
  update cell (set_mark false) ;;
  ret cell.

(** [protect] pushes and [unprotect] pops. The table grows on demand; a
    failing [realloc] is not modelled. Popping an empty stack would leave
    [protect_used] negative and the next push outside the table. *)
Definition protect (cell : ptr) : M unit :=
  modify (fun s => with_protect_table (cell :: protect_table s) s).

Definition unprotect : M unit :=
  fun s => match protect_table s with
           | [] => Crash
           | _ :: t => Ok tt (with_protect_table t s)
           end.

(** ** The atom table *)

(** The search loop of [new_atom]. It only reads the heap, so it either
    ends within [heap_size] steps or runs round a cycle for ever; [new_atom]
    gives it one step more than that. *)
Fixpoint find_atom (fuel : nat) (name : string) (current : ptr) : M (option ptr) :=
  match fuel with
  | 0 => diverge
  | S fuel =>
      s ← get;
      if decide (current ≠ nil_cell s ∧ current ≠ NULL) then
        pair ← cell_car current;
        atom ← cell_car pair;
        n ← cell_name atom;
        if decide (n = name) then ret (Some atom)
        else
          next ← cell_cdr current;
          find_atom fuel name next
      else ret None
  end.

Definition new_atom (name : string) : M ptr :=
  s ← get;
  found ← find_atom (S (heap_size s)) name (binding_list s);
  match found with
  | Some atom => ret atom
  | None =>
      (* Not found so insert it in front. *)
      current ← new_cell CELL_LIST;
      atom ← new_cell CELL_ATOM;
      cell_car_assign current atom ;;
      cell_cdr_assign current NULL ;;
      cell_name_assign atom name ;;
      protect current ;;
      list ← new_cell CELL_LIST;
      unprotect ;;
      cell_car_assign list current ;;
      s ← get;
      cell_cdr_assign list (binding_list s) ;;
      modify (with_binding_list list) ;;
      ret atom
  end.

(** ** Value functions *)

Definition cons (a b : ptr) : M ptr :=
  s ← get;
  if decide (a = error_cell s ∨ b = error_cell s) then ret (error_cell s)
  else
    tb ← cell_type b;
    if decide (¬ (tb = CELL_LIST ∨ b = nil_cell s)) then
      printf "Error: cons: second argument is not a list." ;;
      ret (error_cell s)
    else
      protect a ;; protect b ;;
      c ← new_cell CELL_LIST;
      unprotect ;; unprotect ;;
      cell_car_assign c a ;;
      (if decide (b = nil_cell s) then cell_cdr_assign c NULL
       else cell_cdr_assign c b) ;;
      ret c.

Definition car (a b : ptr) : M ptr :=
  s ← get;
  if decide (a = error_cell s) then ret (error_cell s)
  else if decide (a = nil_cell s) then ret (nil_cell s)
  else
    ta ← cell_type a;
    if decide (ta ≠ CELL_LIST) then
      printf "Error: car: argument is not a list." ;;
      ret (error_cell s)
    else cell_car a.

Definition cdr (a b : ptr) : M ptr :=
  s ← get;
  if decide (a = error_cell s) then ret (error_cell s)
  else if decide (a = nil_cell s) then ret (nil_cell s)
  else
    ta ← cell_type a;
    if decide (ta ≠ CELL_LIST) then
      printf "Error: cdr: argument is not a list." ;;
      ret (error_cell s)
    else
      d ← cell_cdr a;
      if decide (d = NULL) then ret (nil_cell s) else ret d.

(** The search loop of [set]; [true] when the binding was found and
    updated. *)
Fixpoint set_binding (fuel : nat) (a b current : ptr) : M bool :=
  match fuel with
  | 0 => diverge
  | S fuel =>
      s ← get;
      if decide (current ≠ nil_cell s ∧ current ≠ NULL) then
        pair ← cell_car current;
        atom ← cell_car pair;
        if decide (atom = a) then
          cell_cdr_assign pair b ;;
          ret true
        else
          next ← cell_cdr current;
          set_binding fuel a b next
      else ret false
  end.

Definition set (a b : ptr) : M ptr :=
  s ← get;
  if decide (a = error_cell s ∨ b = error_cell s) then ret (error_cell s)
  else
    ta ← cell_type a;
    if decide (ta ≠ CELL_ATOM) then
      printf "Error: set: first argument is not an atom." ;;
      ret (error_cell s)
    else
      found ← set_binding (S (heap_size s)) a b (binding_list s);
      if found : bool then ret b
      else
        (* Not found so insert it in front. *)
        protect a ;; protect b ;;
        current ← new_cell CELL_LIST;
        unprotect ;; unprotect ;;
        cell_car_assign current a ;;
        cell_cdr_assign current b ;;
        protect current ;;
        list ← new_cell CELL_LIST;
        unprotect ;;
        cell_car_assign list current ;;
        s ← get;
        cell_cdr_assign list (binding_list s) ;;
        modify (with_binding_list list) ;;
        ret b.

Definition equal (a b : ptr) : M ptr :=
  s ← get;
  if decide (a = NULL) then ret (nil_cell s)
  else
    ta ← cell_type a;
    if decide (ta = CELL_ATOM ∧ a = b) then ret (true_cell s)
    else ret (nil_cell s).

(** ** The parser *)

(** Modelled from the spec: the scanner ([scan_get], [scan_peek] and
    [scan_flush], declared in misc.h and defined outside src/). It cuts the
    input into tokens: a parenthesis, the quote mark or an atom's name; the
    empty token stands for the end of the input. The input is kept here as
    the lines of tokens that remain. *)
Fixpoint next_token (lines : list (list string)) : string * list (list string) :=
  match lines with
  | [] => (EmptyString, [])
  | [] :: lines => next_token lines
  | (token :: line) :: lines => (token, line :: lines)
  end.

Definition scan_get : M string :=
  s ← get;
  let '(token, rest) := next_token (input s) in
  modify (with_input rest) ;;
  ret token.

Definition scan_peek : M string :=
  s ← get; ret (fst (next_token (input s))).

Definition scan_flush : M unit :=
  modify (fun s => with_input (tail (input s)) s).

(** [*token == c]. *)
Definition starts (c : ascii) (token : string) : bool :=
  match token with
  | String c' _ => bool_decide (c' = c)
  | EmptyString => false
  end.

(** [*token == 0]. *)
Definition at_end (token : string) : bool :=
  match token with EmptyString => true | _ => false end.

(** [parse_list] and [parse]; [fuel] bounds the depth of the calls. *)
Fixpoint parse_list (fuel : nat) : M ptr :=
  match fuel with
  | 0 => diverge
  | S fuel =>
      s ← get;
      (* Take a peek at the next token. *)
      token ← scan_peek;
      if starts ")" token then
        scan_get ;; (* Yum! *)
        ret (nil_cell s)
      else if at_end token then
        printf "parse error: unexpected EOF.
" ;;
        ret (error_cell s)
      else
        expr ← parse fuel;
        if decide (expr = error_cell s) then ret (error_cell s)
        else
          protect expr ;;
          list ← parse_list fuel;
          if decide (list = error_cell s) then
            unprotect ;;
            ret (error_cell s)
          else
            unprotect ;;
            cons expr list
  end
with parse (fuel : nat) : M ptr :=
  match fuel with
  | 0 => diverge
  | S fuel =>
      s ← get;
      token ← scan_get;
      if starts "(" token then parse_list fuel
      else if starts "'" token then
        (* Token is a quote. Get the next expression and return (quote expr). *)
        expr ← parse fuel;
        if decide (expr ≠ error_cell s) then
          l ← cons expr (nil_cell s);
          cons (quote_cell s) l
        else ret (error_cell s)
      else if starts ")" token then
        printf "parse error: unexpected ')'
" ;;
        (* Flush the current input line. *)
        scan_flush ;;
        ret (error_cell s)
      else if at_end token then ret NULL
      else new_atom token
  end.

(** ** Special functions *)

Definition quote (expr : ptr) : M ptr := car expr NULL.

(** The loop of [lambda] that checks that the formals are atoms; [true]
    when they all are. *)
Fixpoint simple_list (fuel : nat) (c : ptr) : M bool :=
  match fuel with
  | 0 => diverge
  | S fuel =>
      if decide (c = NULL) then ret true
      else
        x ← cell_car c;
        tx ← cell_type x;
        if decide (tx ≠ CELL_ATOM) then ret false
        else
          next ← cell_cdr c;
          simple_list fuel next
  end.

Definition lambda (expr : ptr) : M ptr :=
  protect expr ;;
  ufunc ← new_cell CELL_LAMBDA;
  unprotect ;;
  formals ← car expr NULL;
  cell_car_assign ufunc formals ;;
  rest ← cdr expr NULL;
  body ← car rest NULL;
  cell_cdr_assign ufunc body ;;
  s ← get;
  if decide (formals = error_cell s ∨ body = error_cell s) then ret (error_cell s)
  else
    let c := formals in
    tc ← cell_type c;
    if decide (tc ≠ CELL_LIST ∧ c ≠ nil_cell s) then
      printf "Error: bad argument list supplied." ;;
      ret (error_cell s)
    else
      ok ← (if decide (c ≠ nil_cell s) then simple_list (S (heap_size s)) c
            else ret true);
      if ok : bool then ret ufunc
      else
        printf "Error: bad argument list supplied." ;;
        ret (error_cell s).

(** ** The evaluator *)

(** The routines that call [eval_lisp] take it as the parameter [ev];
    [eval_lisp] below closes the recursion. *)
Section Evaluator.

Variable ev : ptr → M ptr.

Definition lisp_if (expr : ptr) : M ptr :=
  bool_expr ← car expr NULL;
  r ← cdr expr NULL;
  then_expr ← car r NULL;
  r ← cdr expr NULL;
  r ← cdr r NULL;
  else_expr ← car r NULL;
  s ← get;
  if decide (bool_expr = error_cell s ∨ then_expr = error_cell s
             ∨ else_expr = error_cell s) then ret (error_cell s)
  else
    protect expr ;;
    bool_rslt ← ev bool_expr;
    unprotect ;;
    if decide (bool_rslt ≠ nil_cell s) then ev then_expr
    else ev else_expr.

(** The search loop of [eval_atom]. *)
Fixpoint lookup_binding (fuel : nat) (expr cell : ptr) : M ptr :=
  match fuel with
  | 0 => diverge
  | S fuel =>
      s ← get;
      if decide (cell ≠ NULL) then
        pair ← cell_car cell;
        atom ← cell_car pair;
        if decide (atom = expr) then
          value ← cell_cdr pair;
          if decide (value = NULL) then
            name ← cell_name expr;
            printf ("Error: unbound atom " +:+ dquote +:+ name +:+ dquote +:+ ".") ;;
            ret (error_cell s)
          else ret value
        else
          next ← cell_cdr cell;
          lookup_binding fuel expr next
      else
        name ← cell_name expr;
        printf ("Error: unbound atom " +:+ dquote +:+ name +:+ dquote +:+ ".") ;;
        ret (error_cell s)
  end.

Definition eval_atom (expr : ptr) : M ptr :=
  s ← get;
  lookup_binding (S (heap_size s)) expr (binding_list s).

(** The first loop of [eval_lambda]: it evaluates the actuals and collects
    the bindings in [blist]. It returns [blist], [count] and [cell] as the
    loop leaves them. *)
Fixpoint bind_args (fuel : nat) (argn argv blist : ptr) (count : Z) (cell : ptr)
  : M (ptr * Z * ptr) :=
  match fuel with
  | 0 => diverge
  | S fuel =>
      s ← get;
      if decide (argn ≠ NULL ∧ argn ≠ nil_cell s) then
        protect blist ;;
        cell ← (if decide (argv = NULL) then ret (nil_cell s)
                else x ← car argv NULL; ev x);
        if decide (argv ≠ NULL ∧ cell = error_cell s) then
          unprotect ;;
          ret (blist, (count * -1)%Z, cell)
        else
          protect cell ;;
          bind ← new_cell CELL_LIST;
          unprotect ;; (* cell *)
          unprotect ;; (* blist *)
          formal ← cell_car argn;
          cell_car_assign bind formal ;;
          cell_cdr_assign bind cell ;;
          blist ← cons bind blist;
          argn ← cell_cdr argn;
          argv ← (if decide (argv ≠ NULL) then cell_cdr argv else ret argv);
          bind_args fuel argn argv blist (count + 1)%Z cell
      else ret (blist, count, cell)
  end.

(** The second loop: the bindings of [blist] go onto the global binding
    list. *)
Fixpoint push_bindings (fuel : nat) (blist : ptr) : M unit :=
  match fuel with
  | 0 => diverge
  | S fuel =>
      s ← get;
      if decide (blist ≠ NULL ∧ blist ≠ nil_cell s) then
        b ← cell_car blist;
        l ← cons b (binding_list s);
        modify (with_binding_list l) ;;
        blist ← cell_cdr blist;
        push_bindings fuel blist
      else ret tt
  end.

(** The last loop: [count] bindings come off the global binding list. *)
Fixpoint pop_bindings (count : nat) : M unit :=
  match count with
  | 0 => ret tt
  | S count =>
      s ← get;
      l ← cell_cdr (binding_list s);
      modify (with_binding_list l) ;;
      pop_bindings count
  end.

Definition eval_lambda (fuel : nat) (expr func : ptr) : M ptr :=
  argn ← cell_car func;
  argv ← cell_cdr expr;
  s ← get;
  (* Evaluate all of the parameters and hold them in a temporary list. *)
  protect expr ;; protect func ;;
  r ← bind_args fuel argn argv (nil_cell s) 0%Z NULL;
  let '(blist, count, cell) := r in
  (* Push the bindings on to the global binding list. *)
  protect blist ;;
  push_bindings fuel blist ;;
  (* Stupid kludge: if we had an error then the count is negative. *)
  r ← (if decide ((0 ≤ count)%Z ∧ cell ≠ error_cell s) then
         body ← cell_cdr func;
         cell ← ev body;
         ret (cell, count)
       else ret (cell, (count * -1)%Z));
  let '(cell, count) := r in
  (* Remove the bindings from this function call. *)
  pop_bindings (Z.to_nat count) ;;
  unprotect ;; unprotect ;; unprotect ;; (* blist, expr, func *)
  ret cell.

(** [cell_func(func)(a, b)]: the call through the function pointer of a
    value-function cell. A one-argument routine ignores [b]. *)
Definition call2 (f : host_func) (a b : ptr) : M ptr :=
  match f with
  | fn_car => car a b
  | fn_cdr => cdr a b
  | fn_cons => cons a b
  | fn_set => set a b
  | fn_equal => equal a b
  | fn_quote => quote a
  | fn_lambda => lambda a
  | fn_lisp_if => lisp_if a
  end.

(** [cell_func(func)(expr)]: the call through the function pointer of a
    special-function cell. [car] and [cdr] never read their second
    parameter; the other two-argument routines would read one that was
    never passed. *)
Definition call1 (f : host_func) (expr : ptr) : M ptr :=
  match f with
  | fn_quote => quote expr
  | fn_lambda => lambda expr
  | fn_lisp_if => lisp_if expr
  | fn_car => car expr NULL
  | fn_cdr => cdr expr NULL
  | fn_cons | fn_set | fn_equal => crash
  end.

(** The body of [eval_lisp]. *)
Definition eval_step (fuel : nat) (expr : ptr) : M ptr :=
  s ← get;
  if decide (expr = error_cell s) then ret (error_cell s)
  else
    t ← cell_type expr;
    if decide (t = CELL_ATOM) then eval_atom expr
    else if decide (t = CELL_LIST) then
      protect expr ;;
      head ← cell_car expr;
      func ← ev head;
      if decide (func = error_cell s) then
        unprotect ;;
        ret (error_cell s)
      else
        tf ← cell_type func;
        if decide (tf = CELL_VFUNC) then
          args ← cell_cdr expr;
          x ← car args NULL;
          a ← ev x;
          protect a ;;
          args ← cell_cdr expr;
          r ← cdr args NULL;
          y ← car r NULL;
          b ← ev y;
          unprotect ;; (* a *)
          unprotect ;; (* expr *)
          f ← cell_func func;
          call2 f a b
        else if decide (tf = CELL_SFUNC) then
          unprotect ;;
          f ← cell_func func;
          args ← cell_cdr expr;
          call1 f args
        else if decide (tf = CELL_LAMBDA) then
          unprotect ;;
          eval_lambda fuel expr func
        else ret expr
    else ret expr.

End Evaluator.

(** [eval_lisp], with [fuel] bounding the depth of the nested calls and the
    length of the loops of [eval_lambda]. *)
Fixpoint eval_lisp (fuel : nat) (expr : ptr) : M ptr :=
  match fuel with
  | 0 => diverge
  | S fuel => eval_step (eval_lisp fuel) fuel expr
  end.

(** ** The printer *)

(** [print_lisp]; [print_elems] is its loop over the cells of a list. The
    [fuel] bounds the depth of the calls and the length of the loop. *)
Fixpoint print_lisp (fuel : nat) (cell : ptr) : M unit :=
  match fuel with
  | 0 => diverge
  | S fuel =>
      if decide (cell = NULL) then printf "<NULL>"
      else
        t ← cell_type cell;
        match t with
        | CELL_LAMBDA =>
            printf "(lambda " ;;
            a ← cell_car cell;
            print_lisp fuel a ;;
            printf " " ;;
            d ← cell_cdr cell;
            print_lisp fuel d ;;
            printf ")"
        | CELL_SFUNC => printf "<internal-special-function>"
        | CELL_VFUNC => printf "<internal-value-function>"
        | CELL_LIST =>
            printf "(" ;;
            print_elems fuel cell ;;
            printf ")"
        | CELL_ATOM =>
            s ← get;
            if decide (cell ≠ error_cell s) then
              name ← cell_name cell;
              printf name
            else ret tt
        end
  end
with print_elems (fuel : nat) (cell : ptr) : M unit :=
  match fuel with
  | 0 => diverge
  | S fuel =>
      c ← cell_cdr cell;
      if decide (c ≠ NULL) then
        a ← cell_car cell;
        print_lisp fuel a ;;
        printf " " ;;
        print_elems fuel c
      else
        a ← cell_car cell;
        print_lisp fuel a
  end.

(** ** Start-up *)

(** [set(new_atom(name), c = new_cell(type)); cell_func_assign(c, f)]. The
    order in which C evaluates the two arguments is unspecified; the atom is
    taken first here. *)
Definition define (name : string) (type : CELL_TYPE) (f : host_func) : M ptr :=
  atom ← new_atom name;
  c ← new_cell type;
  set atom c ;;
  cell_func_assign c f ;;
  ret atom.

(** [initialize], up to the creation of the scanner. *)
Definition initialize : M unit :=
  modify (with_binding_list NULL) ;;
  nil ← new_atom "nil";
  modify (fun s => mkState (heap s) (binding_list s) (free_list s)
                     (protect_table s) nil (quote_cell s) (error_cell s)
                     (true_cell s) (init s) (out s) (input s)) ;;
  set nil nil ;;
  t ← new_atom "t";
  modify (fun s => mkState (heap s) (binding_list s) (free_list s)
                     (protect_table s) (nil_cell s) (quote_cell s)
                     (error_cell s) t (init s) (out s) (input s)) ;;
  set t t ;;
  e ← new_atom "<error>";
  modify (fun s => mkState (heap s) (binding_list s) (free_list s)
                     (protect_table s) (nil_cell s) (quote_cell s) e
                     (true_cell s) (init s) (out s) (input s)) ;;
  set e e ;;
  define "car" CELL_VFUNC fn_car ;;
  define "cdr" CELL_VFUNC fn_cdr ;;
  define "cons" CELL_VFUNC fn_cons ;;
  define "set" CELL_VFUNC fn_set ;;
  define "equal" CELL_VFUNC fn_equal ;;
  q ← define "quote" CELL_SFUNC fn_quote;
  modify (fun s => mkState (heap s) (binding_list s) (free_list s)
                     (protect_table s) (nil_cell s) q (error_cell s)
                     (true_cell s) (init s) (out s) (input s)) ;;
  define "lambda" CELL_SFUNC fn_lambda ;;
  define "if" CELL_SFUNC fn_lisp_if ;;
  ret tt.

(** The process before [main] runs: the globals are zero, [arena] is the
    block of [heap_size] cells that [xmalloc] will return, and [lines] is
    the standard input. *)
Definition startup (arena : list CELL) (lines : list (list string)) : state :=
  mkState arena NULL NULL [] NULL NULL NULL NULL false [] lines.

(** * Specification vocabulary *)

Local Close Scope string_scope.

(** ** Outcomes of a run *)

(** How a run may end: [strict] asks for a normal return; [exhaustible] also
    accepts the exit with status 1 of a collection that frees nothing;
    [partial] says nothing about runs that do not return. *)
Inductive mode := strict | exhaustible | partial.

(** [runs x m s Q]: run from [s], [m] returns a value and a state that
    satisfy [Q], up to the endings that the mode [x] lets through. *)
Definition runs {A} (x : mode) (m : M A) (s : state) (Q : A → state → Prop) : Prop :=
  match m s with
  | Ok a s' => Q a s'
  | Exit n _ => match x with
                | strict => False
                | exhaustible => n = 1
                | partial => True
                end
  | Crash | Diverge => x = partial
  end.

(** ** Cells, marks and reachability *)

(** Two cells with the same tag and the same payload slots. *)
Definition same_payload (c c' : CELL) : Prop :=
  c_type c' = c_type c ∧ c_car c' = c_car c ∧ c_cdr c' = c_cdr c.

(** [c'] is [c] with, possibly, its mark bit set. *)
Definition mark_le (c c' : CELL) : Prop :=
  same_payload c c' ∧ (c_mark c = true → c_mark c' = true).

Definition marked (h : list CELL) (i : nat) : Prop :=
  ∃ c, h !! i = Some c ∧ c_mark c = true.

Definition marks_clear (h : list CELL) : Prop :=
  ∀ i c, h !! i = Some c → c_mark c = false.

(** [heap[j]] is referenced by a payload slot of the list or lambda cell
    [heap[i]]. *)
Definition child (h : list CELL) (i j : nat) : Prop :=
  ∃ c, h !! i = Some c ∧ has_children (c_type c) = true
       ∧ (c_car c = to_cell (Cell j) ∨ c_cdr c = to_cell (Cell j)).

(** The cells that can be reached from the pointers [R]. *)
Inductive reach (h : list CELL) (R : list ptr) : nat → Prop :=
  | reach_root i : Cell i ∈ R → reach h R i
  | reach_child i j : reach h R i → child h i j → reach h R j.

(** Every cell reachable from [R] lies in the heap, and the slots of a
    reachable list or lambda cell hold cell pointers. *)
Definition well_formed (h : list CELL) (R : list ptr) : Prop :=
  ∀ i, reach h R i →
    ∃ c, h !! i = Some c
         ∧ (has_children (c_type c) = true →
            ∃ a d, c_car c = to_cell a ∧ c_cdr c = to_cell d).

(** The number of cells whose mark bit is clear. *)
Definition unmarked (h : list CELL) : nat :=
  length (filter (λ c, c_mark c = false) h).

(** The indices of the cells whose mark bit is clear, in heap order. *)
Fixpoint unmarked_from (i : nat) (h : list CELL) : list nat :=
  match h with
  | [] => []
  | c :: h => if c_mark c then unmarked_from (S i) h
              else i :: unmarked_from (S i) h
  end.
Definition unmarked_cells (h : list CELL) : list nat := unmarked_from 0 h.

(** [chain h p l q]: following the left slots from [p] one passes through
    the cells [l], in this order, and arrives at [q]. The free list is the
    chain from [free_list] to [NULL]. *)
Inductive chain (h : list CELL) : ptr → list nat → ptr → Prop :=
  | chain_nil p : chain h p [] p
  | chain_cons i c p l q :
      h !! i = Some c → c_car c = to_cell p → chain h p l q →
      chain h (Cell i) (i :: l) q.

(** What the sweep leaves of a cell: the mark is clear; a marked cell keeps
    its payload, an unmarked one gets a free-list link in its left slot. *)
Definition swept (c c' : CELL) : Prop :=
  c_mark c' = false ∧ c_type c' = c_type c ∧ c_cdr c' = c_cdr c
  ∧ (c_mark c = true → c_car c' = c_car c)
  ∧ (c_mark c = false → ∃ p, c_car c' = to_cell p).

(** The state when [garbage_collect] has printed its first message, and
    when it has printed its last one. *)
Definition gc_begin (s : state) : state :=
  with_out (out s ++ ["Garbage collecting..."%string]) s.
Definition gc_end (h : list CELL) (fl : ptr) (msg : string) (s : state) : state :=
  let s1 := with_free_list fl (with_heap h (gc_begin s)) in
  with_out (out s1 ++ [msg]) s1.

(** A cell as [new_cell] hands it out, and the state after [new_cell] has
    taken [heap[i]] off the free list. *)
Definition fresh (ty : CELL_TYPE) : CELL :=
  mkCELL (to_cell NULL) (to_cell NULL) ty false.
Definition popped (ty : CELL_TYPE) (i : nat) (next : ptr) (s : state) : state :=
  with_heap (<[i := fresh ty]> (heap s)) (with_free_list next s).

(** ** The heap invariant *)

(** The free list is a chain [fl] without repetition that ends in [NULL];
    no cell off the free list is marked; what the pointers [R] reach is well
    formed and not on the free list. *)
Definition heap_ok (h : list CELL) (fp : ptr) (R : list ptr) (fl : list nat) : Prop :=
  chain h fp fl NULL ∧ NoDup fl
  ∧ (∀ i c, h !! i = Some c → i ∉ fl → c_mark c = false)
  ∧ well_formed h R
  ∧ (∀ i, reach h R i → i ∉ fl).

(** The heap is set up and consistent for the roots of the collector
    together with the pointers [X], which stand for the cells that a routine
    holds in local variables without having protected them. *)
Definition rooted (X : list ptr) (s : state) : Prop :=
  init s = true ∧ ∃ fl, heap_ok (heap s) (free_list s) (X ++ roots s) fl.

(** What a routine that only allocates leaves alone. *)
Definition frame (s s' : state) : Prop :=
  binding_list s' = binding_list s ∧ protect_table s' = protect_table s
  ∧ nil_cell s' = nil_cell s ∧ quote_cell s' = quote_cell s
  ∧ error_cell s' = error_cell s ∧ true_cell s' = true_cell s
  ∧ init s' = init s ∧ length (heap s') = length (heap s).


(** [b] is a cell of type [CELL_LIST]. *)
Definition is_list (s : state) (b : ptr) : Prop :=
  ∃ i c, b = Cell i ∧ heap s !! i = Some c ∧ c_type c = CELL_LIST.

(** ** Checking a concrete state *)

(** The cells of the free list, when it ends in [NULL]. *)
Fixpoint free_cells (fuel : nat) (h : list CELL) (p : ptr) : option (list nat) :=
  match fuel with
  | 0 => None
  | S fuel =>
      match p with
      | NULL => Some []
      | Cell i =>
          c ← h !! i;
          next ← as_cell (c_car c);
          l ← free_cells fuel h next;
          Some (i :: l)
      end
  end.

Definition cell_wf (c : CELL) : bool :=
  if has_children (c_type c) then
    match c_car c, c_cdr c with
    | to_cell _, to_cell _ => true
    | _, _ => false
    end
  else true.

Definition is_marked (h : list CELL) (i : nat) : bool :=
  match h !! i with Some c => c_mark c | None => false end.

(** A decision procedure for [heap_ok] on heaps without marks: it runs the
    mark phase to find what is reachable. *)
Definition check_heap (h : list CELL) (fp : ptr) (R : list ptr) : bool :=
  match mark_all R h, free_cells (S (length h)) h fp with
  | Some h1, Some fl =>
      forallb (λ c, negb (c_mark c)) h
      && bool_decide (NoDup fl)
      && forallb (λ i, negb (is_marked h1 i)) fl
      && forallb (λ c, negb (c_mark c) || cell_wf c) h1
  | _, _ => false
  end.

Definition check_rooted (X : list ptr) (s : state) : bool :=
  init s && check_heap (heap s) (free_list s) (X ++ roots s).


(** ** Sessions *)

(** A block of [n] cells as [xmalloc] may return it. *)
Definition arena (n : nat) : list CELL :=
  replicate n (mkCELL (to_cell NULL) (to_cell NULL) CELL_LAMBDA false).

(** The state in which [m] leaves the process, when it returns. *)
Definition state_after {A} (m : M A) (s : state) : state :=
  match m s with Ok _ s' => s' | _ => s end.

(** The interpreter started with [-heap n] on the input [lines], after
    [initialize]. *)
Definition booted (n : nat) (lines : list (list string)) : state :=
  state_after initialize (startup (arena n) lines).

(** [read_lisp] followed by [eval_lisp], without the echo and the printing
    of the result. *)
Definition read_eval (fuel : nat) : M ptr :=
  expr ← parse fuel;
  eval_lisp fuel expr.

Local Open Scope string_scope.

(** The state of the interpreter started with [-heap 46] once it has read
    and evaluated [(cons nil nil)]: one cell is free, four are garbage. The
    next two lines of input are the new symbol [a], twice. *)
Definition low_heap : state :=
  state_after (read_eval 10)
    (booted 46 [["("; "cons"; "nil"; "nil"; ")"]; ["a"]; ["a"]]).

Local Close Scope string_scope.

(** ** The binding list *)

(** One entry of the binding list: the list cell that carries it, the pair
    cell that the list cell points to, and the atom and the value in the
    two slots of the pair. *)
Record binding := mkBinding {
  b_link : nat;
  b_pair : nat;
  b_atom : ptr;
  b_value : ptr
}.

(** [env_at h p l]: from [p] on, following the right slots up to [NULL], the
    heap [h] holds the entries [l]. *)
Inductive env_at (h : list CELL) : ptr → list binding → Prop :=
  | env_at_nil : env_at h NULL []
  | env_at_cons b cl cp next l :
      h !! b_link b = Some cl →
      c_car cl = to_cell (Cell (b_pair b)) → c_cdr cl = to_cell next →
      h !! b_pair b = Some cp →
      c_car cp = to_cell (b_atom b) → c_cdr cp = to_cell (b_value b) →
      env_at h next l →
      env_at h (Cell (b_link b)) (b :: l).

(** The first entry for the atom [a]. *)
Fixpoint assoc (a : ptr) (l : list binding) : option binding :=
  match l with
  | [] => None
  | b :: l => if decide (b_atom b = a) then Some b else assoc a l
  end.

(** The entries [l] with the value [v] in the first entry for [a]. *)
Fixpoint rebind (a v : ptr) (l : list binding) : list binding :=
  match l with
  | [] => []
  | b :: l =>
      if decide (b_atom b = a) then mkBinding (b_link b) (b_pair b) (b_atom b) v :: l
      else b :: rebind a v l
  end.

(** The cells that carry the entries: list cells and pair cells. *)
Definition env_cells (l : list binding) : list nat :=
  (b_link <$> l) ++ (b_pair <$> l).

(** The name in the left slot of the cell [a], if it holds one. *)
Definition atom_name (h : list CELL) (a : ptr) : option string :=
  match a with
  | NULL => None
  | Cell i =>
      c ← h !! i;
      match c_car c with to_name n => Some n | _ => None end
  end.

(** The first entry whose atom is called [name]. *)
Fixpoint assoc_name (h : list CELL) (name : string) (l : list binding)
  : option binding :=
  match l with
  | [] => None
  | b :: l =>
      if decide (atom_name h (b_atom b) = Some name) then Some b
      else assoc_name h name l
  end.

(** The report of [eval_atom] for an atom without a value. *)
Definition unbound (expr : ptr) : M ptr :=
  s ← get;
  name ← cell_name expr;
  printf ("Error: unbound atom " +:+ dquote +:+ name +:+ dquote +:+ ".")%string ;;
  ret (error_cell s).

(** [eval_atom] as a lookup in the entries [l]. *)
Definition eval_atom_in (l : list binding) (expr : ptr) : M ptr :=
  match assoc expr l with
  | Some b => if decide (b_value b = NULL) then unbound expr else ret (b_value b)
  | None => unbound expr
  end.

(** The entries that the heap holds from [p] on, read off the cells. *)
Fixpoint read_env (fuel : nat) (h : list CELL) (p : ptr) : option (list binding) :=
  match fuel with
  | 0 => None
  | S fuel =>
      match p with
      | NULL => Some []
      | Cell i =>
          cl ← h !! i;
          pair ← as_cell (c_car cl);
          next ← as_cell (c_cdr cl);
          match pair with
          | NULL => None
          | Cell q =>
              cp ← h !! q;
              a ← as_cell (c_car cp);
              v ← as_cell (c_cdr cp);
              l ← read_env fuel h next;
              Some (mkBinding i q a v :: l)
          end
      end
  end.

(** The entries of the binding list of [s]. *)
Definition bindings (s : state) : list binding :=
  default [] (read_env (S (heap_size s)) (heap s) (binding_list s)).

(** ** Expressions *)

(** [p] is the list cell [(a . d)]. *)
Definition pair_at (h : list CELL) (p a d : ptr) : Prop :=
  ∃ i c, p = Cell i ∧ h !! i = Some c ∧ c_type c = CELL_LIST
         ∧ c_car c = to_cell a ∧ c_cdr c = to_cell d.

(** [p] is a cell of type [ty] that holds the routine [f]. *)
Definition func_at (h : list CELL) (p : ptr) (ty : CELL_TYPE) (f : host_func) : Prop :=
  ∃ i c, p = Cell i ∧ h !! i = Some c ∧ c_type c = ty ∧ c_car c = to_func f.

(** [p] is a cell of type [ty]. *)
Definition type_at (h : list CELL) (p : ptr) (ty : CELL_TYPE) : Prop :=
  ∃ i c, p = Cell i ∧ h !! i = Some c ∧ c_type c = ty.

(** The state with [p] pushed on the protection stack. *)
Definition protected (p : ptr) (s : state) : state :=
  with_protect_table (p :: protect_table s) s.

(** The same, as tests on a concrete heap. *)
Definition is_pair (h : list CELL) (p a d : ptr) : bool :=
  match p with
  | Cell i =>
      match h !! i with
      | Some c => bool_decide (c_type c = CELL_LIST ∧ c_car c = to_cell a
                               ∧ c_cdr c = to_cell d)
      | None => false
      end
  | NULL => false
  end.

Definition is_func (h : list CELL) (p : ptr) (ty : CELL_TYPE) (f : host_func) : bool :=
  match p with
  | Cell i =>
      match h !! i with
      | Some c => bool_decide (c_type c = ty ∧ c_car c = to_func f)
      | None => false
      end
  | NULL => false
  end.

Definition is_type (h : list CELL) (p : ptr) (ty : CELL_TYPE) : bool :=
  match p with
  | Cell i =>
      match h !! i with
      | Some c => bool_decide (c_type c = ty)
      | None => false
      end
  | NULL => false
  end.

(** ** Lists and the calls of user functions *)


(** [list_at h p l]: [p] is a list of list cells that ends in [NULL]; [l]
    gives each cell with its element. *)
Inductive list_at (h : list CELL) : ptr → list (nat * ptr) → Prop :=
  | list_at_nil : list_at h NULL []
  | list_at_cons i c x next l :
      h !! i = Some c → c_type c = CELL_LIST →
      c_car c = to_cell x → c_cdr c = to_cell next →
      list_at h next l →
      list_at h (Cell i) ((i, x) :: l).






(** The list that the heap holds from [p] on, read off the cells. *)
Fixpoint read_list (fuel : nat) (h : list CELL) (p : ptr) : option (list (nat * ptr)) :=
  match fuel with
  | 0 => None
  | S fuel =>
      match p with
      | NULL => Some []
      | Cell i =>
          c ← h !! i;
          if decide (c_type c = CELL_LIST) then
            x ← as_cell (c_car c);
            next ← as_cell (c_cdr c);
            l ← read_list fuel h next;
            Some ((i, x) :: l)
          else None
      end
  end.


(** [p] is the lambda cell with the formals [formals] and the body
    [body]. *)
Definition lambda_at (h : list CELL) (p formals body : ptr) : Prop :=
  ∃ i c, p = Cell i ∧ h !! i = Some c ∧ c_type c = CELL_LAMBDA
         ∧ c_car c = to_cell formals ∧ c_cdr c = to_cell body.

Definition is_lambda (h : list CELL) (p formals body : ptr) : bool :=
  match p with
  | Cell i =>
      match h !! i with
      | Some c => bool_decide (c_type c = CELL_LAMBDA ∧ c_car c = to_cell formals
                               ∧ c_cdr c = to_cell body)
      | None => false
      end
  | NULL => false
  end.


(** ** Output *)

(** The strings that [print_lisp] prints for the elements of a list: the
    names with one blank between two of them. *)
Fixpoint spaced (names : list string) : list string :=
  match names with
  | [] => []
  | [n] => [n]
  | n :: names => n :: " "%string :: spaced names
  end.

(** [a] is an atom with the name [n] that [print_lisp] prints. *)
Definition prints_as (s : state) (a : ptr) (n : string) : Prop :=
  type_at (heap s) a CELL_ATOM ∧ atom_name (heap s) a = Some n ∧ a ≠ error_cell s.

(** A run of [m] from [s] that returns has only added to the output; it
    does not end the process. *)
Definition appends {A} (m : M A) (s : state) : Prop :=
  match m s with
  | Ok _ s' => ∃ o, s' = with_out (out s ++ o) s
  | Exit _ _ => False
  | Crash | Diverge => True
  end.

(** ** Calls with actual arguments *)




(** * Properties of the collector and of the allocator *)

Lemma same_payload_refl c : same_payload c c.
Proof. done. Qed.
Lemma mark_le_refl c : mark_le c c.
Proof. done. Qed.
Lemma mark_le_trans c1 c2 c3 : mark_le c1 c2 → mark_le c2 c3 → mark_le c1 c3.
Proof. unfold mark_le, same_payload. intros (?&?) (?&?). intuition congruence. Qed.

Lemma marks_le_refl h : Forall2 mark_le h h.
Proof. apply Forall_Forall2_diag, Forall_forall. intros; apply mark_le_refl. Qed.
Lemma marks_le_trans h1 h2 h3 :
  Forall2 mark_le h1 h2 → Forall2 mark_le h2 h3 → Forall2 mark_le h1 h3.
Proof.
  intros H12 H23. eapply Forall2_trans; [| exact H12 | exact H23].
  intros ???; apply mark_le_trans.
Qed.
Lemma marks_le_set h i c :
  h !! i = Some c → Forall2 mark_le h (<[i := set_mark true c]> h).
Proof.
  intros Hi. apply Forall2_same_length_lookup. split.
  - by rewrite length_insert.
  - intros j x y Hx Hy. destruct (decide (i = j)) as [->|Hne].
    + rewrite list_lookup_insert_eq in Hy by (by eapply lookup_lt_Some).
      simplify_eq. done.
    + rewrite list_lookup_insert_ne in Hy by done. simplify_eq. apply mark_le_refl.
Qed.
Lemma marks_le_lookup h h' i c :
  Forall2 mark_le h h' → h !! i = Some c → ∃ c', h' !! i = Some c' ∧ mark_le c c'.
Proof. intros H Hi. eapply Forall2_lookup_l in H as (c'&?&?); eauto. Qed.
Lemma marks_le_lookup_r h h' i c' :
  Forall2 mark_le h h' → h' !! i = Some c' → ∃ c, h !! i = Some c ∧ mark_le c c'.
Proof. intros H Hi. eapply Forall2_lookup_r in H as (c&?&?); eauto. Qed.

Lemma marked_mono h h' i : Forall2 mark_le h h' → marked h i → marked h' i.
Proof.
  intros H (c&Hi&Hm). destruct (marks_le_lookup _ _ _ _ H Hi) as (c'&Hi'&Hle).
  exists c'. split; [done|]. by apply Hle.
Qed.
Lemma child_mono h h' i j : Forall2 mark_le h h' → child h i j ↔ child h' i j.
Proof.
  intros H. split.
  - intros (c&Hi&Hc&Hj). destruct (marks_le_lookup _ _ _ _ H Hi) as (c'&Hi'&(Ht&Ha&Hd)&_).
    exists c'. rewrite Ht, Ha, Hd. done.
  - intros (c'&Hi'&Hc&Hj). destruct (marks_le_lookup_r _ _ _ _ H Hi') as (c&Hi&(Ht&Ha&Hd)&_).
    exists c. rewrite <- Ht, <- Ha, <- Hd. done.
Qed.

Lemma marked_dec h i : marked h i ∨ ¬ marked h i.
Proof.
  unfold marked. destruct (h !! i) as [c|] eqn:Hi.
  - destruct (c_mark c) eqn:Hm; [left; eauto|right]. intros (?&?&?). congruence.
  - right. intros (?&?&?). congruence.
Qed.

Lemma marked_set_ne h i j c :
  i ≠ j → marked (<[i := set_mark true c]> h) j → marked h j.
Proof. intros Hne (x&Hx&Hm). rewrite list_lookup_insert_ne in Hx by done. by exists x. Qed.

Lemma mark_rec_spec n : ∀ p h h',
  mark_rec n p h = Some h' →
  Forall2 mark_le h h'
  ∧ (∀ i, p = Cell i → marked h' i)
  ∧ (∀ i j, marked h' i → ¬ marked h i → child h i j → marked h' j).
Proof.
  induction n as [|n IH]; intros p h h' Hrun; [done|].
  simpl in Hrun. destruct p as [|i].
  { simplify_eq. split; [apply marks_le_refl|]. split; [done|]. intros; tauto. }
  destruct (h !! i) as [c|] eqn:Hi; simpl in Hrun; [|done].
  destruct (c_mark c) eqn:Hm.
  { simplify_eq. split; [apply marks_le_refl|]. split.
    - intros ? [= <-]. by exists c.
    - intros; tauto. }
  pose proof (marks_le_set _ _ _ Hi) as H0.
  assert (Hi0 : marked (<[i := set_mark true c]> h) i).
  { exists (set_mark true c). split; [|done].
    apply list_lookup_insert_eq. by eapply lookup_lt_Some. }
  destruct (has_children (c_type c)) eqn:Hc.
  - destruct (as_cell (c_car c)) as [a|] eqn:Ha; simpl in Hrun; [|done].
    destruct (mark_rec n a _) as [h1|] eqn:H1; simpl in Hrun; [|done].
    destruct (as_cell (c_cdr c)) as [d|] eqn:Hd; simpl in Hrun; [|done].
    apply IH in H1 as (L1&R1&C1). apply IH in Hrun as (L2&R2&C2).
    assert (L : Forall2 mark_le h h') by eauto using marks_le_trans.
    split; [done|]. split.
    + intros ? [= <-]. eauto using marked_mono.
    + intros k j Hk Hnk Hkj. destruct (decide (k = i)) as [->|Hne].
      * destruct Hkj as (c0&Hc0&_&Hj). rewrite Hi in Hc0. simplify_eq.
        destruct Hj as [Hj|Hj].
        -- rewrite Hj in Ha. simpl in Ha. simplify_eq. eapply marked_mono; [exact L2|]. by apply R1.
        -- rewrite Hj in Hd. simpl in Hd. simplify_eq. by apply R2.
      * destruct (marked_dec h1 k) as [Hk1|Hk1].
        -- eapply marked_mono; [exact L2|]. eapply C1; [done| |].
           ++ intros Hk0. apply Hnk. eapply marked_set_ne; [|done]. done.
           ++ by apply (child_mono _ _ _ _ H0).
        -- eapply C2; [done|done|]. apply (child_mono h h1); [|done].
           eauto using marks_le_trans.
  - simplify_eq. split; [done|]. split.
    + by intros ? [= <-].
    + intros k j Hk Hnk (c0&Hc0&Hch&_). destruct (decide (k = i)) as [->|Hne].
      * rewrite Hi in Hc0. simplify_eq. congruence.
      * exfalso. apply Hnk. eapply marked_set_ne; [|done]. done.
Qed.

Lemma unmarked_le h h' : Forall2 mark_le h h' → unmarked h' ≤ unmarked h.
Proof.
  unfold unmarked. induction 1 as [|c c' h h' [_ Hm] _ IH]; [done|].
  rewrite !filter_cons. destruct (c_mark c) eqn:E.
  - rewrite Hm by done. repeat case_decide; try done; simpl; lia.
  - repeat case_decide; simpl; try lia; congruence.
Qed.

Lemma unmarked_set h : ∀ i c,
  h !! i = Some c → c_mark c = false →
  unmarked (<[i := set_mark true c]> h) < unmarked h.
Proof.
  unfold unmarked. induction h as [|x h IH]; intros [|i] c Hi Hm; simplify_eq/=.
  - rewrite !filter_cons. simpl. rewrite Hm. repeat case_decide; try done. simpl. lia.
  - rewrite !filter_cons. specialize (IH _ _ Hi Hm). case_decide; simpl; lia.
Qed.

Lemma unmarked_length h : unmarked h ≤ length h.
Proof. apply length_filter. Qed.

Lemma reach_sub h R R' i :
  (∀ r, Cell r ∈ R' → reach h R r) → reach h R' i → reach h R i.
Proof. intros HR. induction 1; eauto using reach. Qed.

Lemma reach_marks_le h h' R i :
  Forall2 mark_le h h' → reach h R i ↔ reach h' R i.
Proof.
  intros H. split; induction 1; eauto using reach.
  - eapply reach_child; [done|]. by apply (child_mono _ _ _ _ H).
  - eapply reach_child; [done|]. by apply (child_mono _ _ _ _ H).
Qed.

Lemma well_formed_marks_le h h' R :
  Forall2 mark_le h h' → well_formed h R → well_formed h' R.
Proof.
  intros H Hwf i Hi. apply (reach_marks_le _ _ _ _ H) in Hi.
  destruct (Hwf _ Hi) as (c&Hc&Hch).
  destruct (marks_le_lookup _ _ _ _ H Hc) as (c'&Hc'&(Ht&Ha&Hd)&_).
  exists c'. split; [done|]. rewrite Ht, Ha, Hd. done.
Qed.

Lemma well_formed_sub h R R' :
  (∀ r, Cell r ∈ R' → reach h R r) → well_formed h R → well_formed h R'.
Proof. intros HR Hwf i Hi. apply Hwf. eauto using reach_sub. Qed.

Lemma mark_rec_total n : ∀ p h,
  unmarked h < n → well_formed h [p] → ∃ h', mark_rec n p h = Some h'.
Proof.
  induction n as [|n IH]; intros p h Hn Hwf; [lia|].
  simpl. destruct p as [|i]; [eauto|].
  destruct (Hwf i) as (c&Hi&Hch). { apply reach_root. by constructor. }
  rewrite Hi. simpl. destruct (c_mark c) eqn:Hm; [eauto|].
  pose proof (unmarked_set _ _ _ Hi Hm) as Hlt.
  pose proof (marks_le_set _ _ _ Hi) as H0.
  destruct (has_children (c_type c)) eqn:Hc; [|eauto].
  destruct Hch as (a&d&Ha&Hd); [done|]. rewrite Ha, Hd. simpl.
  assert (Hwf0 : well_formed (<[i := set_mark true c]> h) [Cell i])
    by eauto using well_formed_marks_le.
  assert (Hia : ∀ r, a = Cell r ∨ d = Cell r → reach (<[i := set_mark true c]> h) [Cell i] r).
  { intros r Hr. apply (reach_child _ _ i r); [apply reach_root; by constructor|].
    apply (child_mono _ _ _ _ H0). exists c. split; [done|]. split; [done|].
    destruct Hr as [<-| <-]; auto. }
  destruct (IH a (<[i := set_mark true c]> h)) as (h1&H1); [lia| |].
  { eapply well_formed_sub; [|exact Hwf0]. intros r Hr%list_elem_of_singleton. apply Hia. auto. }
  rewrite H1. simpl. apply mark_rec_spec in H1 as (L1&_&_).
  apply IH.
  - pose proof (unmarked_le _ _ L1). lia.
  - eapply well_formed_marks_le; [exact L1|].
    eapply well_formed_sub; [|exact Hwf0]. intros r Hr%list_elem_of_singleton. apply Hia. auto.
Qed.

Lemma mark_spec p h h' :
  mark p h = Some h' →
  Forall2 mark_le h h'
  ∧ (∀ i, p = Cell i → marked h' i)
  ∧ (∀ i j, marked h' i → ¬ marked h i → child h i j → marked h' j).
Proof. apply mark_rec_spec. Qed.

Lemma mark_total p h : well_formed h [p] → ∃ h', mark p h = Some h'.
Proof. intros. apply mark_rec_total; [|done]. pose proof (unmarked_length h). lia. Qed.

Lemma mark_all_spec R : ∀ h h',
  mark_all R h = Some h' →
  Forall2 mark_le h h'
  ∧ (∀ i, Cell i ∈ R → marked h' i)
  ∧ (∀ i j, marked h' i → ¬ marked h i → child h i j → marked h' j).
Proof.
  induction R as [|r R IH]; intros h h' Hrun; simpl in Hrun.
  { simplify_eq. split; [apply marks_le_refl|]. split; [by intros ? ?%elem_of_nil|]. intros; tauto. }
  destruct (mark r h) as [h1|] eqn:H1; simpl in Hrun; [|done].
  apply mark_spec in H1 as (L1&R1&C1). apply IH in Hrun as (L2&R2&C2).
  split; [eauto using marks_le_trans|]. split.
  - intros i [Heq|Hi]%elem_of_cons; [|by apply R2].
    eapply marked_mono; [exact L2|]. by apply R1.
  - intros i j Hi Hni Hij. destruct (marked_dec h1 i) as [Hi1|Hi1].
    + eapply marked_mono; [exact L2|]. eauto.
    + eapply C2; [done|done|]. by apply (child_mono _ _ _ _ L1).
Qed.

Lemma mark_all_total R : ∀ h, well_formed h R → ∃ h', mark_all R h = Some h'.
Proof.
  induction R as [|r R IH]; intros h Hwf; simpl; [eauto|].
  destruct (mark_total r h) as (h1&H1).
  { eapply well_formed_sub; [|exact Hwf]. intros i Hi%list_elem_of_singleton.
    apply reach_root. rewrite Hi. by constructor. }
  rewrite H1. simpl. apply IH. apply mark_spec in H1 as (L1&_&_).
  eapply well_formed_marks_le; [exact L1|].
  eapply well_formed_sub; [|exact Hwf]. intros i Hi. apply reach_root. by constructor.
Qed.

Lemma mark_all_reach R h h' :
  marks_clear h → mark_all R h = Some h' → ∀ i, reach h R i → marked h' i.
Proof.
  intros Hclear Hrun. apply mark_all_spec in Hrun as (L&HR&HC).
  induction 1 as [i Hi|i j _ IH Hij]; [by apply HR|].
  eapply HC; [exact IH| |done]. intros (c&Hc&Hm). by rewrite (Hclear _ _ Hc) in Hm.
Qed.

Lemma chain_insert h i x p l q :
  i ∉ l → chain h p l q → chain (<[i := x]> h) p l q.
Proof.
  intros Hi. induction 1 as [|j c p l q Hj Hc _ IH]; [constructor|].
  apply not_elem_of_cons in Hi as [Hne Hi].
  econstructor; [|exact Hc|by apply IH]. by rewrite list_lookup_insert_ne.
Qed.

Lemma chain_app h p l1 q l2 r :
  chain h p l1 q → chain h q l2 r → chain h p (l1 ++ l2) r.
Proof. induction 1; simpl; eauto using chain. Qed.

Lemma elem_of_unmarked_from h : ∀ i j,
  j ∈ unmarked_from i h ↔ i ≤ j ∧ ∃ c, h !! (j - i) = Some c ∧ c_mark c = false.
Proof.
  induction h as [|x h IH]; intros i j; simpl.
  { split; [by intros ?%elem_of_nil|]. intros (_&c&?&_). done. }
  assert (Htl : j ∈ unmarked_from (S i) h ↔
                i < j ∧ ∃ c, (x :: h) !! (j - i) = Some c ∧ c_mark c = false).
  { rewrite IH. split.
    - intros (?&c&Hc&?). split; [lia|]. exists c. split; [|done].
      replace (j - i) with (S (j - S i)) by lia. done.
    - intros (?&c&Hc&?). split; [lia|]. exists c. split; [|done].
      replace (j - i) with (S (j - S i)) in Hc by lia. done. }
  destruct (c_mark x) eqn:Hx.
  - rewrite Htl. split; [intros (?&?); split; [lia|done]|].
    intros (Hle&c&Hc&Hm). split; [|eauto]. destruct (decide (j = i)) as [->|]; [|lia].
    rewrite Nat.sub_diag in Hc. simplify_eq/=. congruence.
  - rewrite elem_of_cons, Htl. split.
    + intros [->|(?&?)]; [|split; [lia|done]]. split; [done|].
      rewrite Nat.sub_diag. eauto.
    + intros (Hle&Hc). destruct (decide (j = i)); [by left|right]. split; [lia|done].
Qed.

Lemma elem_of_unmarked_cells h i :
  i ∈ unmarked_cells h ↔ ∃ c, h !! i = Some c ∧ c_mark c = false.
Proof.
  unfold unmarked_cells. rewrite elem_of_unmarked_from, Nat.sub_0_r.
  split; [by intros (_&?)|]. intros ?. split; [lia|done].
Qed.

Lemma sweep_spec : ∀ todo i h fl cnt h' fl' cnt' acc fl0,
  sweep todo i (h, fl, cnt) = (h', fl', cnt') →
  i + todo = length h →
  chain h fl acc fl0 → Forall (λ j, j < i) acc →
  length h' = length h
  ∧ chain h' fl' (reverse (unmarked_from i (drop i h)) ++ acc) fl0
  ∧ cnt' = cnt + length (unmarked_from i (drop i h))
  ∧ (∀ j c, j < i → h !! j = Some c → h' !! j = Some c)
  ∧ (∀ j c, i ≤ j → h !! j = Some c → ∃ c', h' !! j = Some c' ∧ swept c c').
Proof.
  induction todo as [|todo IH]; intros i h fl cnt h' fl' cnt' acc fl0 Hrun Hlen Hch Hacc.
  { simpl in Hrun. simplify_eq. rewrite drop_ge by lia. simpl.
    split; [done|]. split; [done|]. split; [lia|]. split; [done|].
    intros j c Hj Hc. apply lookup_lt_Some in Hc. lia. }
  simpl in Hrun. destruct (lookup_lt_is_Some_2 h i) as [c Hc]; [lia|].
  rewrite Hc in Hrun. rewrite (drop_S _ _ _ Hc). simpl.
  assert (Hni : i ∉ acc).
  { intros Hin. eapply Forall_forall in Hacc; [|exact Hin]. simpl in Hacc. lia. }
  assert (Hacc' : Forall (λ j, j < S i) acc).
  { eapply Forall_impl; [exact Hacc|]. simpl. intros; lia. }
  destruct (c_mark c) eqn:Hm.
  - apply IH with (acc := acc) (fl0 := fl0) in Hrun as (L&C&N&Lo&Hi);
      [|rewrite length_insert; lia|by apply chain_insert|done].
    rewrite length_insert in L. rewrite drop_insert_lt in C, N by lia.
    split; [done|]. split; [done|]. split; [done|]. split.
    + intros j x Hj Hx. apply Lo; [lia|]. rewrite list_lookup_insert_ne by lia. done.
    + intros j x Hj Hx. destruct (decide (j = i)) as [->|Hne].
      * simplify_eq. eexists. split.
        -- apply Lo; [lia|]. apply list_lookup_insert_eq. lia.
        -- repeat split; try done. simpl. congruence.
      * apply Hi; [lia|]. rewrite list_lookup_insert_ne by lia. done.
  - apply IH with (acc := i :: acc) (fl0 := fl0) in Hrun as (L&C&N&Lo&Hi);
      [|rewrite length_insert; lia| |].
    + rewrite length_insert in L. rewrite drop_insert_lt in C, N by lia.
      split; [done|]. split; [by rewrite reverse_cons, <- app_assoc|]. split; [simpl; lia|]. split.
      * intros j x Hj Hx. apply Lo; [lia|]. rewrite list_lookup_insert_ne by lia. done.
      * intros j x Hj Hx. destruct (decide (j = i)) as [->|Hne].
        -- simplify_eq. eexists. split.
           ++ apply Lo; [lia|]. apply list_lookup_insert_eq. lia.
           ++ repeat split; try done; simpl; [congruence|eauto].
        -- apply Hi; [lia|]. rewrite list_lookup_insert_ne by lia. done.
    + econstructor; [apply list_lookup_insert_eq; lia|done|by apply chain_insert].
    + constructor; [lia|done].
Qed.

Lemma sweep_all h fl h' fl' cnt' :
  sweep (length h) 0 (h, fl, 0) = (h', fl', cnt') →
  length h' = length h
  ∧ chain h' fl' (reverse (unmarked_cells h)) fl
  ∧ cnt' = length (unmarked_cells h)
  ∧ (∀ j c, h !! j = Some c → ∃ c', h' !! j = Some c' ∧ swept c c').
Proof.
  intros Hrun.
  apply sweep_spec with (acc := []) (fl0 := fl) in Hrun as (L&C&N&_&Hi);
    [|done|constructor|constructor].
  rewrite drop_0, app_nil_r in C. rewrite drop_0 in N.
  split; [done|]. split; [done|]. split; [done|]. intros j c Hc. apply Hi; [lia|done].
Qed.

Lemma garbage_collect_unfold s :
  garbage_collect s =
  match collect s with
  | None => Crash
  | Some (h, fl, count) =>
      if decide (count = 0) then
        Exit 1 (gc_end h fl "
Garbage collection failed!
"%string s)
      else Ok tt (gc_end h fl ("harvested " +:+ pretty count +:+ " cells.
")%string s)
  end.
Proof.
  unfold garbage_collect, mbind, M_bind, bind, printf, modify, get; simpl.
  change (collect (with_out (out s ++ ["Garbage collecting..."%string]) s)) with (collect s).
  destruct (collect s) as [[[h fl] count]|]; [|done].
  simpl. destruct (decide (count = 0)); done.
Qed.

Lemma collect_spec s h fl count :
  collect s = Some (h, fl, count) →
  ∃ h1, mark_all (roots s) (heap s) = Some h1
        ∧ length h = length (heap s)
        ∧ chain h fl (reverse (unmarked_cells h1)) (free_list s)
        ∧ count = length (unmarked_cells h1)
        ∧ (∀ j c, h1 !! j = Some c → ∃ c', h !! j = Some c' ∧ swept c c').
Proof.
  unfold collect. destruct (mark_all _ _) as [h1|] eqn:H1; simpl; [|done].
  intros [= Hsw]. exists h1. split; [done|].
  apply mark_all_spec in H1 as (L&_&_). pose proof (Forall2_length _ _ _ L) as Hlen.
  unfold heap_size in Hsw. rewrite Hlen in Hsw.
  apply sweep_all in Hsw as (?&?&?&?). split; [congruence|done].
Qed.

(** ** Running the monad *)

Lemma bind_unfold {A B} (m : M A) (k : A → M B) s :
  (m ≫= k) s = match m s with
               | Ok a s' => k a s'
               | Exit n s' => Exit n s'
               | Crash => Crash
               | Diverge => Diverge
               end.
Proof. done. Qed.

Lemma deref_at s i c : heap s !! i = Some c → deref (Cell i) s = Ok c s.
Proof. unfold deref. by intros ->. Qed.
Lemma update_at s i c f :
  heap s !! i = Some c → update (Cell i) f s = Ok tt (with_heap (<[i := f c]> (heap s)) s).
Proof. unfold update. by intros ->. Qed.

Lemma new_cell_fresh_cell ty c :
  set_mark false (set_car (to_cell NULL) (set_cdr (to_cell NULL) (set_type ty c)))
  = mkCELL (to_cell NULL) (to_cell NULL) ty false.
Proof. done. Qed.

Section runs.
Context {A B : Type} (x : mode).
Implicit Types (Q : A → state → Prop) (s : state).

Lemma runs_bind (m : M A) (k : A → M B) s (Q : B → state → Prop) :
  runs x m s (λ a s', runs x (k a) s' Q) → runs x (m ≫= k) s Q.
Proof. unfold runs. rewrite bind_unfold. by destruct (m s). Qed.
Lemma runs_ret (a : A) s Q : Q a s → runs x (mret a) s Q.
Proof. done. Qed.
Lemma runs_mono (m : M A) s Q Q' :
  runs x m s Q → (∀ a s', Q a s' → Q' a s') → runs x m s Q'.
Proof. unfold runs. destruct (m s); auto. Qed.
Lemma runs_Ok (m : M A) s a s' Q : m s = Ok a s' → Q a s' → runs x m s Q.
Proof. unfold runs. intros H HQ. by rewrite H. Qed.
Lemma runs_inv (m : M A) s a s' Q : runs x m s Q → m s = Ok a s' → Q a s'.
Proof. unfold runs. intros H E. by rewrite E in H. Qed.
Lemma runs_exact (m : M A) s a s' :
  runs strict m s (λ b t, b = a ∧ t = s') → m s = Ok a s'.
Proof. unfold runs. destruct (m s); try done. by intros [-> ->]. Qed.
Lemma runs_weaken (m : M A) s Q : runs strict m s Q → runs x m s Q.
Proof. unfold runs. destruct (m s); done. Qed.
Lemma runs_eq (m m' : M A) s Q : m s = m' s → runs x m' s Q → runs x m s Q.
Proof. unfold runs. by intros ->. Qed.
Lemma runs_partial (m : M A) s Q : runs x m s Q → runs partial m s Q.
Proof. unfold runs. destruct (m s); done. Qed.
End runs.

Section runs_primitives.
Context (x : mode).
Implicit Types (s : state).

Lemma runs_get s (Q : state → state → Prop) : Q s s → runs x get s Q.
Proof. done. Qed.
Lemma runs_modify f s (Q : unit → state → Prop) :
  Q tt (f s) → runs x (modify f) s Q.
Proof. done. Qed.
Lemma runs_printf msg s (Q : unit → state → Prop) :
  Q tt (with_out (out s ++ [msg]) s) → runs x (printf msg) s Q.
Proof. done. Qed.
Lemma runs_protect p s (Q : unit → state → Prop) :
  Q tt (with_protect_table (p :: protect_table s) s) → runs x (protect p) s Q.
Proof. done. Qed.
Lemma runs_unprotect p t s (Q : unit → state → Prop) :
  protect_table s = p :: t → Q tt (with_protect_table t s) → runs x unprotect s Q.
Proof. unfold runs, unprotect. by intros ->. Qed.
Lemma runs_deref i c s (Q : CELL → state → Prop) :
  heap s !! i = Some c → Q c s → runs x (deref (Cell i)) s Q.
Proof. unfold runs, deref. by intros ->. Qed.
Lemma runs_update i c f s (Q : unit → state → Prop) :
  heap s !! i = Some c → Q tt (with_heap (<[i := f c]> (heap s)) s) →
  runs x (update (Cell i) f) s Q.
Proof. unfold runs, update. by intros ->. Qed.
Lemma runs_cell_car i c p s (Q : ptr → state → Prop) :
  heap s !! i = Some c → c_car c = to_cell p → Q p s →
  runs x (cell_car (Cell i)) s Q.
Proof. unfold runs, cell_car. rewrite bind_unfold. unfold deref. by intros -> ->. Qed.
Lemma runs_cell_type i c s (Q : CELL_TYPE → state → Prop) :
  heap s !! i = Some c → Q (c_type c) s → runs x (cell_type (Cell i)) s Q.
Proof. unfold runs, cell_type. rewrite bind_unfold. unfold deref. by intros ->. Qed.
Lemma runs_cell_name i c n s (Q : string → state → Prop) :
  heap s !! i = Some c → c_car c = to_name n → Q n s →
  runs x (cell_name (Cell i)) s Q.
Proof. unfold runs, cell_name. rewrite bind_unfold. unfold deref. by intros -> ->. Qed.
End runs_primitives.

(** The steps that need no side condition. *)
Ltac wp_step :=
  lazymatch goal with
  | |- runs _ (mbind _ _) _ _ => apply runs_bind
  | |- runs _ (mret _) _ _ => apply runs_ret
  | |- runs _ (ret _) _ _ => apply runs_ret
  | |- runs _ get _ _ => apply runs_get
  | |- runs _ (modify _) _ _ => apply runs_modify
  | |- runs _ (printf _) _ _ => apply runs_printf
  | |- runs _ (protect _) _ _ => apply runs_protect
  end.
Ltac wp := repeat (wp_step; try (progress simpl)).

Lemma new_cell_pop ty s i c next :
  init s = true → free_list s = Cell i → heap s !! i = Some c →
  c_car c = to_cell next →
  new_cell ty s = Ok (Cell i) (popped ty i next s).
Proof.
  intros Hinit Hfl Hi Hnext.
  assert (Hlen : i < length (heap s)) by by eapply lookup_lt_Some.
  apply runs_exact.
  unfold new_cell. wp. rewrite Hinit. wp. rewrite Hfl. rewrite decide_False by done.
  wp. rewrite Hfl. eapply runs_cell_car; [done..|]. wp.
  unfold cell_type_assign, cell_cdr_assign, cell_car_assign.
  eapply runs_update; [done|]. wp.
  eapply runs_update; [simpl; by apply list_lookup_insert_eq|]. wp.
  eapply runs_update; [simpl; apply list_lookup_insert_eq; by rewrite length_insert|]. wp.
  eapply runs_update; [simpl; apply list_lookup_insert_eq; by rewrite !length_insert|]. wp.
  split; [done|]. unfold popped, with_heap; simpl.
  rewrite !list_insert_insert_eq. done.
Qed.

(** ** The heap invariant *)

Lemma frame_trans s1 s2 s3 : frame s1 s2 → frame s2 s3 → frame s1 s3.
Proof. unfold frame. intros (?&?&?&?&?&?&?&?) (?&?&?&?&?&?&?&?). repeat split; congruence. Qed.
Lemma frame_roots s s' : frame s s' → roots s' = roots s.
Proof. intros (Hb&Hp&_). unfold roots. by rewrite Hb, Hp. Qed.

Lemma chain_NULL h l q : chain h NULL l q → l = [] ∧ q = NULL.
Proof. by inversion 1. Qed.
Lemma chain_Cell h i l :
  chain h (Cell i) l NULL →
  ∃ c p l', l = i :: l' ∧ h !! i = Some c ∧ c_car c = to_cell p ∧ chain h p l' NULL.
Proof. inversion 1; subst. eauto 10. Qed.

Lemma unmarked_from_lt h : ∀ i j, j ∈ unmarked_from i h → i ≤ j.
Proof. intros i j. rewrite elem_of_unmarked_from. tauto. Qed.
Lemma NoDup_unmarked_from h : ∀ i, NoDup (unmarked_from i h).
Proof.
  induction h as [|c h IH]; intros i; simpl; [constructor|].
  destruct (c_mark c); [done|]. constructor; [|done].
  intros Hi%unmarked_from_lt. lia.
Qed.

Lemma reach_roots h R R' i :
  (∀ p, p ∈ R → p ∈ R') → reach h R i → reach h R' i.
Proof. intros HR. induction 1; eauto using reach. Qed.

Lemma child_agree h h' i j : h' !! i = h !! i → child h i j → child h' i j.
Proof. intros Hi (c&Hc&?). exists c. by rewrite Hi. Qed.

Lemma reach_agree h h' R :
  (∀ j, reach h R j → h' !! j = h !! j) → ∀ j, reach h R j ↔ reach h' R j.
Proof.
  intros Hag j. split.
  - induction 1 as [|i j Hi IH Hij]; [by apply reach_root|].
    eapply reach_child; [exact IH|]. eapply child_agree; [|done]. auto.
  - induction 1 as [|i j Hi IH Hij]; [by apply reach_root|].
    eapply reach_child; [exact IH|]. eapply child_agree; [|done]. symmetry. auto.
Qed.

Lemma heap_ok_roots h fp R R' fl :
  (∀ p, p ∈ R' → p ∈ R) → heap_ok h fp R fl → heap_ok h fp R' fl.
Proof.
  intros HR (Hch&Hnd&Hmk&Hwf&Hfree). repeat split; try done.
  - intros i Hi. apply Hwf. eauto using reach_roots.
  - intros i Hi. apply Hfree. eauto using reach_roots.
Qed.

Lemma reach_fresh h R i ty j :
  ¬ reach h R i → reach (<[i := fresh ty]> h) (Cell i :: R) j → j = i ∨ reach h R j.
Proof.
  intros Hni. induction 1 as [j Hj|k j Hk IH Hkj].
  - apply elem_of_cons in Hj as [[= ->]|Hj]; [by left|right; by apply reach_root].
  - right. destruct IH as [->|IH].
    + destruct Hkj as (c&Hc&_&Hj). apply list_lookup_insert_Some in Hc as [(_&<-&_)|(?&_)]; [|done].
      simpl in Hj. by destruct Hj.
    + eapply reach_child; [exact IH|]. eapply child_agree; [|exact Hkj].
      symmetry. apply list_lookup_insert_ne. intros ->. done.
Qed.

Lemma heap_ok_pop h i c next R fl ty :
  heap_ok h (Cell i) R (i :: fl) → h !! i = Some c → c_car c = to_cell next →
  heap_ok (<[i := fresh ty]> h) next (Cell i :: R) fl.
Proof.
  intros (Hch&Hnd&Hmk&Hwf&Hfree) Hi Hnext.
  apply NoDup_cons in Hnd as [Hni Hnd].
  assert (Hnr : ¬ reach h R i). { intros Hr. apply (Hfree _ Hr). by left. }
  repeat split.
  - inversion Hch; simplify_eq. apply chain_insert; [done|].
    match goal with H : c_car _ = to_cell ?p |- _ => rewrite Hnext in H; by simplify_eq end.
  - done.
  - intros j x Hj Hnj. destruct (decide (j = i)) as [->|Hne].
    + rewrite list_lookup_insert_eq in Hj by (by eapply lookup_lt_Some). by simplify_eq.
    + rewrite list_lookup_insert_ne in Hj by done. eapply Hmk; [done|].
      intros [->|?]%elem_of_cons; done.
  - intros j Hj. apply reach_fresh in Hj; [|done]. destruct Hj as [->|Hj].
    + exists (fresh ty). split; [apply list_lookup_insert_eq; by eapply lookup_lt_Some|].
      intros _. by exists NULL, NULL.
    + destruct (Hwf _ Hj) as (x&Hx&Hxc). exists x. split; [|done].
      rewrite list_lookup_insert_ne; [done|]. intros ->. done.
  - intros j Hj. apply reach_fresh in Hj; [|done]. destruct Hj as [->|Hj]; [done|].
    intros Hin. apply (Hfree _ Hj). by right.
Qed.

Lemma new_cell_inv_pop ty s :
  rooted [] s → free_list s ≠ NULL →
  runs strict (new_cell ty) s (λ c s', ∃ i, c = Cell i
     ∧ ¬ reach (heap s) (roots s) i
     ∧ heap s' !! i = Some (fresh ty)
     ∧ (∀ j, j ≠ i → heap s' !! j = heap s !! j)
     ∧ frame s s' ∧ out s' = out s
     ∧ rooted [Cell i] s').
Proof.
  intros (Hinit&fl&Hok) Hne. simpl in Hok.
  destruct (free_list s) as [|i] eqn:Hfl; [done|].
  pose proof Hok as (Hch&_&_&_&Hfree).
  apply chain_Cell in Hch as (c&next&fl'&->&Hi&Hnext&_).
  eapply runs_Ok; [by eapply new_cell_pop|].
  assert (Hlen : i < length (heap s)) by by eapply lookup_lt_Some.
  exists i. split; [done|]. split. { intros Hr. apply (Hfree _ Hr). by left. }
  split. { simpl. by apply list_lookup_insert_eq. }
  split. { intros j Hj. simpl. by apply list_lookup_insert_ne. }
  split. { repeat split; simpl; try done. by rewrite length_insert. }
  split; [done|]. split; [done|]. exists fl'. simpl.
  eapply heap_ok_pop; eauto.
Qed.

Lemma cell_eq c c' :
  same_payload c c' → c_mark c = c_mark c' → c' = c.
Proof. destruct c, c'. unfold same_payload. simpl. intros (?&?&?) ?. congruence. Qed.

Lemma garbage_collect_rooted s :
  rooted [] s → free_list s = NULL →
  runs exhaustible garbage_collect s (λ _ s1,
     rooted [] s1 ∧ free_list s1 ≠ NULL
     ∧ (∀ j, reach (heap s) (roots s) j → heap s1 !! j = heap s !! j)
     ∧ frame s s1).
Proof.
  intros (Hinit&fl&Hch&Hnd&Hmk&Hwf&Hfree) Hfl. simpl in *.
  rewrite Hfl in Hch. apply chain_NULL in Hch as [-> _].
  assert (Hclear : marks_clear (heap s)).
  { intros i c Hi. eapply Hmk; [done|]. apply not_elem_of_nil. }
  unfold runs. rewrite garbage_collect_unfold.
  destruct (mark_all_total _ _ Hwf) as (h1&H1).
  destruct (collect s) as [[[h2 fl2] count]|] eqn:Hc;
    [|unfold collect in Hc; by rewrite H1 in Hc].
  destruct (decide (count = 0)); [done|].
  apply collect_spec in Hc as (h1'&H1'&Hlen&Hch&Hcount&Hsw). simplify_eq.
  pose proof (mark_all_spec _ _ _ H1) as (L&_&_).
  assert (Hag : ∀ j, reach (heap s) (roots s) j → h2 !! j = heap s !! j).
  { intros j Hj. destruct (mark_all_reach _ _ _ Hclear H1 _ Hj) as (c1&Hc1&Hm1).
    destruct (marks_le_lookup_r _ _ _ _ L Hc1) as (c&Hc&Hp&_).
    destruct (Hsw _ _ Hc1) as (c2&Hc2&Hm2&Ht&Hd&Ha&_).
    rewrite Hc, Hc2. f_equal. apply cell_eq.
    - destruct Hp as (?&?&?). unfold same_payload. rewrite Ht, Hd, Ha by done. done.
    - rewrite Hm2. by eapply Hclear. }
  split; [|split; [|split]].
  - split; [done|]. exists (reverse (unmarked_cells h1)). simpl.
    rewrite Hfl in Hch. repeat split.
    + done.
    + rewrite reverse_Permutation. apply NoDup_unmarked_from.
    + intros i c2 Hi _. destruct (lookup_lt_is_Some_2 h1 i) as [c1 Hc1].
      { rewrite <- (Forall2_length _ _ _ L), <- Hlen. by eapply lookup_lt_Some. }
      destruct (Hsw _ _ Hc1) as (c2'&Hc2'&Hm&_). by simplify_eq.
    + intros j Hj. apply (reach_agree _ _ _ Hag) in Hj.
      rewrite (Hag _ Hj). by apply Hwf.
    + intros j Hj. apply (reach_agree _ _ _ Hag) in Hj.
      rewrite elem_of_reverse, elem_of_unmarked_cells. intros (c1&Hc1&Hm).
      destruct (mark_all_reach _ _ _ Hclear H1 _ Hj) as (c1'&Hc1'&Hm1). congruence.
  - simpl. destruct (unmarked_cells h1) as [|x l] eqn:E; [done|].
    rewrite reverse_cons in Hch. destruct (reverse l); inversion Hch; done.
  - done.
  - repeat split; done.
Qed.

Lemma new_cell_gc ty s :
  init s = true → free_list s = NULL →
  new_cell ty s = (garbage_collect ≫= λ _, new_cell ty) s.
Proof.
  intros Hinit Hfl. rewrite bind_unfold.
  unfold new_cell at 1. rewrite bind_unfold. simpl. rewrite Hinit.
  rewrite bind_unfold. simpl. rewrite bind_unfold. simpl. rewrite Hfl.
  rewrite decide_True by done. rewrite bind_unfold.
  destruct (garbage_collect s) as [[] s1| | |] eqn:Hgc; try done.
  assert (init s1 = true ∧ free_list s1 ≠ NULL) as [Hinit1 Hfl1].
  { rewrite garbage_collect_unfold in Hgc.
    destruct (collect s) as [[[h2 fl2] count]|] eqn:Hc; [|done].
    destruct (decide (count = 0)); [done|]. simplify_eq. simpl. split; [done|].
    apply collect_spec in Hc as (h1&_&_&Hch&Hcount&_).
    destruct (unmarked_cells h1) as [|x l] eqn:E; [done|].
    rewrite reverse_cons in Hch. destruct (reverse l); inversion Hch; done. }
  symmetry. unfold new_cell at 1. rewrite bind_unfold. simpl. rewrite Hinit1.
  rewrite bind_unfold. simpl. rewrite bind_unfold. simpl.
  rewrite decide_False by done. rewrite bind_unfold. simpl. done.
Qed.

Lemma new_cell_inv ty s :
  rooted [] s →
  runs exhaustible (new_cell ty) s (λ c s', ∃ i, c = Cell i
     ∧ ¬ reach (heap s) (roots s) i
     ∧ heap s' !! i = Some (fresh ty)
     ∧ (∀ j, reach (heap s) (roots s) j → heap s' !! j = heap s !! j)
     ∧ frame s s'
     ∧ rooted [Cell i] s').
Proof.
  intros Hs. destruct (decide (free_list s = NULL)) as [Hfl|Hfl].
  - eapply runs_eq; [apply new_cell_gc; [apply Hs|done]|].
    apply runs_bind. eapply runs_mono; [by apply garbage_collect_rooted|].
    intros [] s1 (Hs1&Hfl1&Hag&Hfr). simpl.
    apply runs_weaken. eapply runs_mono; [by apply new_cell_inv_pop|].
    intros c s' (i&->&Hni&Hi&Hother&Hfr'&_&Hs'). exists i.
    rewrite (frame_roots _ _ Hfr) in Hni.
    split; [done|]. split. { intros Hr. apply Hni. by apply (reach_agree _ _ _ Hag). }
    split; [done|]. split; [|split; [by eapply frame_trans|done]].
    intros j Hj. rewrite <- (Hag _ Hj). apply Hother. intros ->.
    apply Hni. by apply (reach_agree _ _ _ Hag).
  - apply runs_weaken. eapply runs_mono; [by apply new_cell_inv_pop|].
    intros c s' (i&->&Hni&Hi&Hother&Hfr'&_&Hs'). exists i.
    repeat (split; [done|]). split; [|done].
    intros j Hj. apply Hother. intros ->. done.
Qed.


Lemma elem_of_roots p s :
  p ∈ roots s ↔ p = binding_list s ∨ p ∈ protect_table s.
Proof. unfold roots. by rewrite elem_of_cons, elem_of_reverse. Qed.

Lemma reach_update h R i x j :
  (∀ k, c_car x = to_cell (Cell k) ∨ c_cdr x = to_cell (Cell k) → reach h R k) →
  reach (<[i := x]> h) R j → reach h R j ∨ (j = i ∧ Cell i ∈ R).
Proof.
  intros Hx. induction 1 as [j Hj|k j Hk IH Hkj].
  - left. by apply reach_root.
  - left. destruct (decide (k = i)) as [->|Hne].
    + destruct Hkj as (c&Hc&_&Hj). apply list_lookup_insert_Some in Hc as [(_&<-&_)|(?&_)]; [|done].
      by apply Hx.
    + destruct IH as [IH|[-> _]]; [|done]. eapply reach_child; [exact IH|].
      eapply child_agree; [|exact Hkj]. symmetry. by apply list_lookup_insert_ne.
Qed.

Lemma heap_ok_update h fp R fl i x :
  heap_ok h fp R fl → reach h R i → c_mark x = false →
  (has_children (c_type x) = true → ∃ a d, c_car x = to_cell a ∧ c_cdr x = to_cell d) →
  (∀ k, c_car x = to_cell (Cell k) ∨ c_cdr x = to_cell (Cell k) → reach h R k) →
  heap_ok (<[i := x]> h) fp R fl.
Proof.
  intros (Hch&Hnd&Hmk&Hwf&Hfree) Hi Hm Hwx Hx.
  destruct (Hwf _ Hi) as (c0&Hc0&_).
  assert (Hlen : i < length h) by by eapply lookup_lt_Some.
  assert (Hr : ∀ j, reach (<[i := x]> h) R j → reach h R j).
  { intros j Hj. apply reach_update in Hj as [Hj|[-> _]]; done. }
  repeat split.
  - apply chain_insert; [|done]. by apply Hfree.
  - done.
  - intros j c Hj Hnj. destruct (decide (j = i)) as [->|Hne].
    + rewrite list_lookup_insert_eq in Hj by done. by simplify_eq.
    + rewrite list_lookup_insert_ne in Hj by done. eauto.
  - intros j Hj%Hr. destruct (decide (j = i)) as [->|Hne].
    + exists x. split; [by apply list_lookup_insert_eq|done].
    + rewrite list_lookup_insert_ne by done. by apply Hwf.
  - intros j Hj%Hr. by apply Hfree.
Qed.


Lemma new_cell_first ty s :
  init s = false → heap s ≠ [] → new_cell ty s = new_cell ty (setup_heap s).
Proof.
  intros Hinit Hne. unfold new_cell.
  rewrite (bind_unfold get). simpl. rewrite Hinit.
  rewrite decide_False by (unfold heap_size; by destruct (heap s)).
  rewrite (bind_unfold (modify _)). simpl.
  rewrite (bind_unfold get _ (setup_heap s)). simpl.
  rewrite (bind_unfold (ret ())). simpl. done.
Qed.

Lemma new_cell_first_empty ty s :
  init s = false → heap s = [] → new_cell ty s = Crash.
Proof.
  intros Hinit He. unfold new_cell.
  rewrite (bind_unfold get). simpl. rewrite Hinit.
  rewrite decide_True by (unfold heap_size; by rewrite He). done.
Qed.

Lemma new_cell_pop_inv ty s i c s' :
  init s = true → free_list s = Cell i → new_cell ty s = Ok c s' →
  ∃ c0 next, heap s !! i = Some c0 ∧ c_car c0 = to_cell next
             ∧ c = Cell i ∧ s' = popped ty i next s.
Proof.
  intros Hinit Hfl Hrun.
  destruct (heap s !! i) as [c0|] eqn:Hi.
  - destruct (c_car c0) as [next| |] eqn:Hcar.
    + erewrite new_cell_pop in Hrun by done. simplify_eq. by exists c0, next.
    + exfalso. revert Hrun. unfold new_cell.
      rewrite (bind_unfold get). simpl. rewrite Hinit.
      rewrite (bind_unfold (ret ())). simpl. rewrite (bind_unfold get). simpl.
      rewrite Hfl, decide_False by done. rewrite (bind_unfold (ret ())). simpl.
      rewrite (bind_unfold get). simpl. rewrite Hfl.
      rewrite (bind_unfold (cell_car _)). unfold cell_car at 1.
      rewrite (bind_unfold (deref _)). unfold deref at 1. rewrite Hi, Hcar. done.
    + exfalso. revert Hrun. unfold new_cell.
      rewrite (bind_unfold get). simpl. rewrite Hinit.
      rewrite (bind_unfold (ret ())). simpl. rewrite (bind_unfold get). simpl.
      rewrite Hfl, decide_False by done. rewrite (bind_unfold (ret ())). simpl.
      rewrite (bind_unfold get). simpl. rewrite Hfl.
      rewrite (bind_unfold (cell_car _)). unfold cell_car at 1.
      rewrite (bind_unfold (deref _)). unfold deref at 1. rewrite Hi, Hcar. done.
  - exfalso. revert Hrun. unfold new_cell.
    rewrite (bind_unfold get). simpl. rewrite Hinit.
    rewrite (bind_unfold (ret ())). simpl. rewrite (bind_unfold get). simpl.
    rewrite Hfl, decide_False by done. rewrite (bind_unfold (ret ())). simpl.
    rewrite (bind_unfold get). simpl. rewrite Hfl.
    rewrite (bind_unfold (cell_car _)). unfold cell_car at 1.
    rewrite (bind_unfold (deref _)). unfold deref at 1. rewrite Hi. done.
Qed.

Lemma garbage_collect_Ok s s1 :
  garbage_collect s = Ok tt s1 →
  init s1 = init s ∧ ∃ i, free_list s1 = Cell i.
Proof.
  rewrite garbage_collect_unfold.
  destruct (collect s) as [[[h2 fl2] count]|] eqn:Hc; [|done].
  destruct (decide (count = 0)); [done|]. intros [= <-]. simpl. split; [done|].
  apply collect_spec in Hc as (h1&_&_&Hch&Hcount&_).
  destruct (unmarked_cells h1) as [|x l] eqn:E; [done|].
  rewrite reverse_cons in Hch. destruct (reverse l); inversion Hch; eauto.
Qed.

Lemma new_cell_result ty s c s' :
  new_cell ty s = Ok c s' →
  ∃ i, c = Cell i ∧ heap s' !! i = Some (fresh ty).
Proof.
  assert (Hpop : ∀ s c s', init s = true → free_list s ≠ NULL →
            new_cell ty s = Ok c s' → ∃ i, c = Cell i ∧ heap s' !! i = Some (fresh ty)).
  { clear. intros s c s' Hinit Hfl Hrun. destruct (free_list s) as [|i] eqn:E; [done|].
    eapply new_cell_pop_inv in Hrun as (c0&next&Hi&_&->&->); [|done..].
    exists i. split; [done|]. simpl. apply list_lookup_insert_eq. by eapply lookup_lt_Some. }
  assert (Hinit : ∀ s c s', init s = true →
            new_cell ty s = Ok c s' → ∃ i, c = Cell i ∧ heap s' !! i = Some (fresh ty)).
  { clear -Hpop. intros s c s' Hinit Hrun.
    destruct (decide (free_list s = NULL)) as [Hfl|Hfl]; [|eauto].
    rewrite new_cell_gc, bind_unfold in Hrun by done.
    destruct (garbage_collect s) as [[] s1| | |] eqn:Hgc; try done.
    apply garbage_collect_Ok in Hgc as (Hi1&i&Hfl1).
    eapply Hpop; [| |exact Hrun]; [congruence|by rewrite Hfl1]. }
  intros Hrun. destruct (init s) eqn:Hi; [eauto|].
  destruct (decide (heap s = [])) as [He|He].
  - by rewrite new_cell_first_empty in Hrun.
  - rewrite new_cell_first in Hrun by done. eapply Hinit; [|exact Hrun]. done.
Qed.

Lemma new_cell_exhausted ty s h fl :
  init s = true → free_list s = NULL → collect s = Some (h, fl, 0) →
  new_cell ty s = Exit 1 (gc_end h fl "
Garbage collection failed!
"%string s).
Proof.
  intros Hinit Hfl Hc. rewrite new_cell_gc, bind_unfold by done.
  rewrite garbage_collect_unfold, Hc. done.
Qed.

(** * Checking a concrete state *)

Lemma mark_rec_sound n : ∀ p h h' i,
  mark_rec n p h = Some h' → marked h' i → marked h i ∨ reach h [p] i.
Proof.
  induction n as [|n IH]; intros p h h' k Hrun Hk; [done|].
  simpl in Hrun. destruct p as [|i]; [simplify_eq; by left|].
  destruct (h !! i) as [c|] eqn:Hi; simpl in Hrun; [|done].
  destruct (c_mark c) eqn:Hm; [simplify_eq; by left|].
  pose proof (marks_le_set _ _ _ Hi) as H0.
  assert (Hroot : reach h [Cell i] i) by (apply reach_root; by left).
  assert (H0k : marked (<[i := set_mark true c]> h) k → marked h k ∨ reach h [Cell i] k).
  { intros Hk0. destruct (decide (k = i)) as [->|Hne]; [by right|].
    left. by eapply marked_set_ne. }
  destruct (has_children (c_type c)) eqn:Hc; [|simplify_eq; auto].
  destruct (as_cell (c_car c)) as [a|] eqn:Ha; simpl in Hrun; [|done].
  destruct (mark_rec n a _) as [h1|] eqn:H1; simpl in Hrun; [|done].
  destruct (as_cell (c_cdr c)) as [d|] eqn:Hd; simpl in Hrun; [|done].
  assert (Hsub : ∀ r j, r = a ∨ r = d →
            reach (<[i := set_mark true c]> h) [r] j → reach h [Cell i] j).
  { intros r j Hr Hj. apply (reach_marks_le _ _ _ _ H0) in Hj.
    eapply reach_sub; [|exact Hj]. intros r' Hr'%list_elem_of_singleton. subst r.
    eapply reach_child; [exact Hroot|]. exists c. split; [done|]. split; [done|].
    destruct (c_car c), (c_cdr c); simplify_eq/=; destruct Hr; simplify_eq; auto. }
  pose proof (mark_rec_spec _ _ _ _ H1) as (L1&_&_).
  destruct (IH _ _ _ k Hrun Hk) as [Hk1|Hk1].
  - destruct (IH _ _ _ k H1 Hk1) as [Hk0|Hk0]; [auto|]. right. eapply Hsub; [|done]. auto.
  - right. eapply (Hsub d); [auto|]. by apply (reach_marks_le _ _ _ _ L1).
Qed.

Lemma mark_all_sound R : ∀ h h' i,
  mark_all R h = Some h' → marked h' i → marked h i ∨ reach h R i.
Proof.
  induction R as [|r R IH]; intros h h' i Hrun Hi; simpl in Hrun; [simplify_eq; auto|].
  destruct (mark r h) as [h1|] eqn:H1; simpl in Hrun; [|done].
  pose proof (mark_spec _ _ _ H1) as (L1&_&_).
  destruct (IH _ _ _ Hrun Hi) as [Hi1|Hi1].
  - destruct (mark_rec_sound _ _ _ _ _ H1 Hi1) as [?|Hr]; [auto|]. right.
    eapply reach_roots; [|exact Hr]. intros p Hp%list_elem_of_singleton. subst p. by left.
  - right. apply (reach_marks_le _ _ _ _ L1) in Hi1.
    eapply reach_roots; [|exact Hi1]. intros p Hp. by right.
Qed.

Lemma forallb_lookup {A} (f : A → bool) (l : list A) i x :
  forallb f l = true → l !! i = Some x → f x = true.
Proof.
  intros Hall Hi. apply list_elem_of_lookup_2 in Hi. apply list_elem_of_In in Hi.
  rewrite forallb_forall in Hall. auto.
Qed.

Lemma check_clear h : forallb (λ c, negb (c_mark c)) h = true → marks_clear h.
Proof. intros Hall i c Hi. eapply forallb_lookup in Hall; [|done]. by destruct (c_mark c). Qed.


Lemma free_cells_sound n : ∀ h p l, free_cells n h p = Some l → chain h p l NULL.
Proof.
  induction n as [|n IH]; intros h p l Hrun; [done|]. simpl in Hrun.
  destruct p as [|i]; [simplify_eq; constructor|].
  destruct (h !! i) as [c|] eqn:Hi; simpl in Hrun; [|done].
  destruct (c_car c) as [next| |] eqn:Hc; simpl in Hrun; try done.
  destruct (free_cells n h next) as [l'|] eqn:Hl; simpl in Hrun; [|done].
  simplify_eq. econstructor; eauto.
Qed.

Lemma check_heap_sound h fp R : check_heap h fp R = true → ∃ fl, heap_ok h fp R fl.
Proof.
  unfold check_heap. destruct (mark_all R h) as [h1|] eqn:H1; [|done].
  destruct (free_cells _ h fp) as [fl|] eqn:Hfl; [|done].
  intros [[[Hclear Hnd]%andb_true_iff Hfree]%andb_true_iff Hwf]%andb_true_iff.
  apply check_clear in Hclear. apply bool_decide_eq_true in Hnd.
  pose proof (mark_all_spec _ _ _ H1) as (L&_&_).
  pose proof (mark_all_reach _ _ _ Hclear H1) as Hreach.
  exists fl. repeat split.
  - by eapply free_cells_sound.
  - done.
  - intros i c Hi _. eauto.
  - intros i Hi. destruct (Hreach _ Hi) as (c1&Hc1&Hm1).
    destruct (marks_le_lookup_r _ _ _ _ L Hc1) as (c&Hc&(Ht&Ha&Hd)&_).
    exists c. split; [done|]. intros Hch.
    eapply forallb_lookup in Hwf; [|exact Hc1]. simpl in Hwf.
    rewrite Hm1 in Hwf. simpl in Hwf. unfold cell_wf in Hwf.
    rewrite Ht, Hch, Ha, Hd in Hwf. destruct (c_car c), (c_cdr c); try done. eauto.
  - intros i Hi Hin. destruct (Hreach _ Hi) as (c1&Hc1&Hm1).
    rewrite forallb_forall in Hfree. apply list_elem_of_In in Hin.
    apply Hfree in Hin. unfold is_marked in Hin. rewrite Hc1, Hm1 in Hin. done.
Qed.

Lemma check_rooted_sound X s : check_rooted X s = true → rooted X s.
Proof.
  unfold check_rooted. intros [Hinit Hok]%andb_true_iff.
  split; [done|]. by apply check_heap_sound.
Qed.

Lemma unreachable_sound h R i h1 :
  forallb (λ c, negb (c_mark c)) h = true → mark_all R h = Some h1 →
  is_marked h1 i = false → ¬ reach h R i.
Proof.
  intros Hclear%check_clear H1 Hm Hr.
  destruct (mark_all_reach _ _ _ Hclear H1 _ Hr) as (c&Hc&Hmc).
  unfold is_marked in Hm. rewrite Hc in Hm. congruence.
Qed.

Lemma check_forall {A} (P : A → Prop) (f : A → bool) (l : list A) :
  (∀ x, f x = true → P x) → forallb f l = true → ∀ x, x ∈ l → P x.
Proof.
  intros Hf Hall x Hx. apply Hf. rewrite forallb_forall in Hall.
  apply Hall. by apply list_elem_of_In.
Qed.

(** * The binding list in the heap *)

Lemma env_at_det h p l1 : env_at h p l1 → ∀ l2, env_at h p l2 → l1 = l2.
Proof.
  induction 1 as [|b cl cp next l Hl Hp Hn Hq Ha Hv _ IH]; intros l2 H2.
  - by inversion H2.
  - inversion H2 as [|b' cl' cp' next' l' Hl' Hp' Hn' Hq' Ha' Hv' Hrest Hb]; subst.
    destruct b as [i q a v], b' as [i' q' a' v']. simpl in *. simplify_eq.
    rewrite Hp in Hp'. rewrite Hn in Hn'. simplify_eq.
    rewrite Ha in Ha'. rewrite Hv in Hv'. simplify_eq.
    f_equal. by apply IH.
Qed.

Lemma env_at_from h p l b :
  env_at h p l → b ∈ l →
  ∃ l', env_at h (Cell (b_link b)) (b :: l') ∧ length l' < length l.
Proof.
  induction 1 as [|b0 cl cp next l Hl Hp Hn Hq Ha Hv Hrest IH]; intros Hb.
  - by apply elem_of_nil in Hb.
  - apply elem_of_cons in Hb as [->|Hb].
    + exists l. split; [by econstructor|simpl; lia].
    + destruct (IH Hb) as (l'&?&?). exists l'. split; [done|simpl; lia].
Qed.

Lemma env_at_links_NoDup h p l : env_at h p l → NoDup (b_link <$> l).
Proof.
  induction 1 as [|b cl cp next l Hl Hp Hn Hq Ha Hv Hrest IH]; [constructor|].
  simpl. constructor; [|done].
  intros (b'&Heq&Hb')%list_elem_of_fmap.
  destruct (env_at_from _ _ _ _ Hrest Hb') as (l'&Hfrom&Hlen).
  rewrite <- Heq in Hfrom.
  assert (Hall : env_at h (Cell (b_link b)) (b :: l)) by by econstructor.
  pose proof (env_at_det _ _ _ Hall _ Hfrom) as E.
  apply (f_equal length) in E. simpl in E. lia.
Qed.

Lemma env_at_link_lt h p l b : env_at h p l → b ∈ l → b_link b < length h.
Proof.
  intros H Hb. destruct (env_at_from _ _ _ _ H Hb) as (l'&Hfrom&_).
  inversion Hfrom; subst. by eapply lookup_lt_Some.
Qed.

Lemma env_at_length h p l : env_at h p l → length l ≤ length h.
Proof.
  intros H. rewrite <- (length_fmap b_link l), <- (length_seq (length h) 0).
  apply submseteq_length, NoDup_submseteq; [by eapply env_at_links_NoDup|].
  intros i (b&->&Hb)%list_elem_of_fmap. apply elem_of_seq.
  pose proof (env_at_link_lt _ _ _ _ H Hb). lia.
Qed.

Lemma env_at_agree h h' p l :
  env_at h p l → (∀ i, i ∈ env_cells l → h' !! i = h !! i) → env_at h' p l.
Proof.
  unfold env_cells.
  induction 1 as [|b cl cp next l Hl Hp Hn Hq Ha Hv Hrest IH]; intros Hag; [constructor|].
  econstructor; try done.
  - rewrite Hag; [done|]. apply elem_of_app. left. simpl. by left.
  - rewrite Hag; [done|]. apply elem_of_app. right. simpl. by left.
  - apply IH. intros i Hi. apply Hag. apply elem_of_app.
    apply elem_of_app in Hi as [Hi|Hi]; [left|right]; simpl; by right.
Qed.

Lemma cell_car_at s i c p :
  heap s !! i = Some c → c_car c = to_cell p → cell_car (Cell i) s = Ok p s.
Proof. intros Hi Hc. unfold cell_car. rewrite bind_unfold, (deref_at _ _ _ Hi), Hc. done. Qed.
Lemma cell_cdr_at s i c p :
  heap s !! i = Some c → c_cdr c = to_cell p → cell_cdr (Cell i) s = Ok p s.
Proof. intros Hi Hc. unfold cell_cdr. rewrite bind_unfold, (deref_at _ _ _ Hi), Hc. done. Qed.
Lemma cell_type_at s i c :
  heap s !! i = Some c → cell_type (Cell i) s = Ok (c_type c) s.
Proof. intros Hi. unfold cell_type. rewrite bind_unfold, (deref_at _ _ _ Hi). done. Qed.
Lemma cell_name_at s i c n :
  heap s !! i = Some c → c_car c = to_name n → cell_name (Cell i) s = Ok n s.
Proof. intros Hi Hc. unfold cell_name. rewrite bind_unfold, (deref_at _ _ _ Hi), Hc. done. Qed.

Lemma lookup_binding_env expr s p l :
  env_at (heap s) p l → ∀ fuel, length l < fuel →
  lookup_binding fuel expr p s = eval_atom_in l expr s.
Proof.
  induction 1 as [|b cl cp next l Hl Hp Hn Hq Ha Hv Hrest IH]; intros fuel Hfuel.
  - destruct fuel as [|fuel]; [simpl in Hfuel; lia|]. reflexivity.
  - destruct fuel as [|fuel]; [simpl in Hfuel; lia|]. simpl in Hfuel.
    simpl lookup_binding. rewrite bind_unfold. simpl.
    rewrite bind_unfold, (cell_car_at _ _ _ _ Hl Hp).
    rewrite bind_unfold, (cell_car_at _ _ _ _ Hq Ha).
    unfold eval_atom_in. simpl. destruct (decide (b_atom b = expr)) as [Heq|Hne].
    + rewrite bind_unfold, (cell_cdr_at _ _ _ _ Hq Hv).
      destruct (decide (b_value b = NULL)); reflexivity.
    + rewrite bind_unfold, (cell_cdr_at _ _ _ _ Hl Hn). apply IH. lia.
Qed.

Lemma eval_atom_env expr s l :
  env_at (heap s) (binding_list s) l → eval_atom expr s = eval_atom_in l expr s.
Proof.
  intros Hl.
  change (eval_atom expr s)
    with (lookup_binding (S (heap_size s)) expr (binding_list s) s).
  apply lookup_binding_env; [done|].
  pose proof (env_at_length _ _ _ Hl). unfold heap_size. lia.
Qed.

Lemma set_binding_env a v s p l :
  env_at (heap s) p l → (∀ b, b ∈ l → Cell (b_link b) ≠ nil_cell s) →
  ∀ fuel, length l < fuel →
  match assoc a l with
  | Some b =>
      ∃ cp, heap s !! b_pair b = Some cp
            ∧ set_binding fuel a v p s
              = Ok true (with_heap (<[b_pair b := set_cdr (to_cell v) cp]> (heap s)) s)
  | None => set_binding fuel a v p s = Ok false s
  end.
Proof.
  induction 1 as [|b cl cp next l Hl Hp Hn Hq Ha Hv Hrest IH]; intros Hnil fuel Hfuel.
  - destruct fuel as [|fuel]; [simpl in Hfuel; lia|]. simpl.
    rewrite bind_unfold. simpl. by rewrite decide_False by (by intros []).
  - destruct fuel as [|fuel]; [simpl in Hfuel; lia|]. simpl in Hfuel.
    assert (Hb : Cell (b_link b) ≠ nil_cell s) by (apply Hnil; by left).
    cbn [assoc]. destruct (decide (b_atom b = a)) as [Heq|Hne].
    + exists cp. split; [done|]. simpl. rewrite bind_unfold. simpl.
      rewrite decide_True by done.
      rewrite bind_unfold, (cell_car_at _ _ _ _ Hl Hp).
      rewrite bind_unfold, (cell_car_at _ _ _ _ Hq Ha).
      rewrite decide_True by done. rewrite bind_unfold.
      unfold cell_cdr_assign. by rewrite (update_at _ _ _ _ Hq).
    + assert (IH' := IH (λ b' Hb', Hnil b' (list_elem_of_further _ _ _ Hb')) fuel ltac:(lia)).
      assert (Hstep : set_binding (S fuel) a v (Cell (b_link b)) s
                      = set_binding fuel a v next s).
      { simpl. rewrite bind_unfold. simpl. rewrite decide_True by done.
        rewrite bind_unfold, (cell_car_at _ _ _ _ Hl Hp).
        rewrite bind_unfold, (cell_car_at _ _ _ _ Hq Ha).
        rewrite decide_False by done.
        by rewrite bind_unfold, (cell_cdr_at _ _ _ _ Hl Hn). }
      rewrite Hstep. exact IH'.
Qed.

Lemma env_cells_cons b l :
  NoDup (env_cells (b :: l)) →
  b_link b ≠ b_pair b
  ∧ (∀ i, i ∈ env_cells l → i ≠ b_link b ∧ i ≠ b_pair b)
  ∧ NoDup (env_cells l).
Proof.
  unfold env_cells. simpl. intros Hnd.
  apply NoDup_cons in Hnd as [Hlink Hnd].
  apply NoDup_app in Hnd as (Hl&Hdis&Hp).
  apply NoDup_cons in Hp as [Hpair Hp].
  rewrite elem_of_app, elem_of_cons in Hlink.
  split; [intros E; apply Hlink; auto|]. split.
  - intros i [Hi|Hi]%elem_of_app.
    + split; [intros ->; apply Hlink; auto|].
      intros ->. apply (Hdis _ Hi). by left.
    + split; [intros ->; apply Hlink; auto|]. intros ->. done.
  - apply NoDup_app. split; [done|]. split; [|done].
    intros i Hi Hi'. apply (Hdis _ Hi). by right.
Qed.

Lemma assoc_elem a l b : assoc a l = Some b → b ∈ l ∧ b_atom b = a.
Proof.
  induction l as [|b0 l IH]; [done|]. simpl. case_decide.
  - intros [= ->]. split; [by left|done].
  - intros []%IH. split; [by right|done].
Qed.

Lemma env_at_rebind h p l a v b cp :
  env_at h p l → NoDup (env_cells l) → assoc a l = Some b →
  h !! b_pair b = Some cp →
  env_at (<[b_pair b := set_cdr (to_cell v) cp]> h) p (rebind a v l).
Proof.
  induction 1 as [|b0 cl cp0 next l Hl Hp Hn Hq Ha Hv Hrest IH];
    intros Hnd Hassoc Hcp; [done|].
  apply env_cells_cons in Hnd as (Hlp&Hother&Hnd).
  simpl in *. destruct (decide (b_atom b0 = a)) as [Heq|Hne].
  - simplify_eq.
    eapply (env_at_cons _ (mkBinding (b_link b) (b_pair b) (b_atom b) v)); simpl.
    + by rewrite list_lookup_insert_ne.
    + done.
    + done.
    + apply list_lookup_insert_eq. by eapply lookup_lt_Some.
    + done.
    + done.
    + eapply env_at_agree; [done|]. intros i Hi.
      apply list_lookup_insert_ne. intros E. rewrite <- E in Hi.
      by apply Hother in Hi as [_ ?].
  - apply assoc_elem in Hassoc as Hb. destruct Hb as [Hb _].
    assert (Hpair : b_pair b ∈ env_cells l).
    { unfold env_cells. apply elem_of_app. right. apply list_elem_of_fmap. eauto. }
    apply Hother in Hpair as [Hne1 Hne2].
    econstructor; try done.
    + by rewrite list_lookup_insert_ne.
    + by rewrite list_lookup_insert_ne.
    + by apply IH.
Qed.

Lemma assoc_rebind_eq a v l b :
  assoc a l = Some b →
  assoc a (rebind a v l) = Some (mkBinding (b_link b) (b_pair b) (b_atom b) v).
Proof.
  induction l as [|b0 l IH]; [done|]. simpl. case_decide as Hd.
  - intros [= ->]. simpl. by rewrite decide_True.
  - intros Hl. simpl. rewrite decide_False by done. by apply IH.
Qed.

Lemma assoc_rebind_ne a a' v l : a' ≠ a → assoc a' (rebind a v l) = assoc a' l.
Proof.
  intros Hne. induction l as [|b0 l IH]; [done|]. simpl. case_decide as Hd.
  - simpl. rewrite !decide_False by congruence. done.
  - simpl. case_decide; [done|]. apply IH.
Qed.

Lemma find_atom_env name s p l :
  env_at (heap s) p l → (∀ b, b ∈ l → Cell (b_link b) ≠ nil_cell s) →
  (∀ b, b ∈ l → is_Some (atom_name (heap s) (b_atom b))) →
  ∀ fuel, length l < fuel →
  find_atom fuel name p s = Ok (b_atom <$> assoc_name (heap s) name l) s.
Proof.
  induction 1 as [|b cl cp next l Hl Hp Hn Hq Ha Hv Hrest IH];
    intros Hnil Hnames fuel Hfuel.
  - destruct fuel as [|fuel]; [simpl in Hfuel; lia|]. simpl.
    rewrite bind_unfold. simpl. by rewrite decide_False by (by intros []).
  - destruct fuel as [|fuel]; [simpl in Hfuel; lia|]. simpl in Hfuel.
    assert (Hb : Cell (b_link b) ≠ nil_cell s) by (apply Hnil; by left).
    destruct (Hnames b) as [n Hname]; [by left|].
    assert (Hcn : cell_name (b_atom b) s = Ok n s).
    { unfold atom_name in Hname. destruct (b_atom b) as [|i]; [done|].
      destruct (heap s !! i) as [c|] eqn:Hi; [|done]. simpl in Hname.
      destruct (c_car c) eqn:Hc; try done. simplify_eq. by eapply cell_name_at. }
    simpl. rewrite bind_unfold. simpl. rewrite decide_True by done.
    rewrite bind_unfold, (cell_car_at _ _ _ _ Hl Hp).
    rewrite bind_unfold, (cell_car_at _ _ _ _ Hq Ha).
    rewrite bind_unfold, Hcn. rewrite Hname.
    destruct (decide (n = name)) as [->|Hne].
    + by rewrite decide_True.
    + rewrite decide_False by congruence.
      rewrite bind_unfold, (cell_cdr_at _ _ _ _ Hl Hn).
      apply IH; [|intros; apply Hnames; by right|lia].
      intros; apply Hnil; by right.
Qed.

Lemma read_env_sound n : ∀ h p l, read_env n h p = Some l → env_at h p l.
Proof.
  induction n as [|n IH]; intros h p l Hrun; [done|]. simpl in Hrun.
  destruct p as [|i]; [simplify_eq; constructor|].
  destruct (h !! i) as [cl|] eqn:Hi; simpl in Hrun; [|done].
  destruct (c_car cl) as [[|q]| |] eqn:Hcar; simpl in Hrun; try done;
    destruct (c_cdr cl) as [next| |] eqn:Hcdr; simpl in Hrun; try done.
  destruct (h !! q) as [cp|] eqn:Hq; simpl in Hrun; [|done].
  destruct (c_car cp) as [a| |] eqn:Ha; simpl in Hrun; try done.
  destruct (c_cdr cp) as [v| |] eqn:Hv; simpl in Hrun; try done.
  destruct (read_env n h next) as [l'|] eqn:Hl; simpl in Hrun; [|done].
  simplify_eq. by eapply (env_at_cons _ (mkBinding i q a v)); eauto.
Qed.

(** ** List cells and the evaluator *)

Lemma car_at s p a d b :
  pair_at (heap s) p a d → p ≠ error_cell s → p ≠ nil_cell s →
  car p b s = Ok a s.
Proof.
  intros (i&c&->&Hi&Ht&Ha&_) He Hn. unfold car. rewrite bind_unfold. simpl.
  rewrite !decide_False by done. rewrite bind_unfold, (cell_type_at _ _ _ Hi).
  rewrite Ht, decide_False by (by intros ?). by apply cell_car_at with c.
Qed.

Lemma cdr_at s p a d b :
  pair_at (heap s) p a d → p ≠ error_cell s → p ≠ nil_cell s →
  cdr p b s = Ok (if decide (d = NULL) then nil_cell s else d) s.
Proof.
  intros (i&c&->&Hi&Ht&_&Hd) He Hn. unfold cdr. rewrite bind_unfold. simpl.
  rewrite !decide_False by done. rewrite bind_unfold, (cell_type_at _ _ _ Hi).
  rewrite Ht, decide_False by (by intros ?).
  rewrite bind_unfold, (cell_cdr_at _ _ _ _ Hi Hd). by destruct (decide (d = NULL)).
Qed.

Lemma car_nil s b : nil_cell s ≠ error_cell s → car (nil_cell s) b s = Ok (nil_cell s) s.
Proof.
  intros He. unfold car. rewrite bind_unfold. simpl.
  rewrite decide_False by done. by rewrite decide_True.
Qed.

Lemma cdr_nil s b : nil_cell s ≠ error_cell s → cdr (nil_cell s) b s = Ok (nil_cell s) s.
Proof.
  intros He. unfold cdr. rewrite bind_unfold. simpl.
  rewrite decide_False by done. by rewrite decide_True.
Qed.

Lemma car_NULL s b : error_cell s ≠ NULL → nil_cell s ≠ NULL → car NULL b s = Crash.
Proof.
  intros He Hn. unfold car. rewrite bind_unfold. simpl.
  by rewrite !decide_False by done.
Qed.

Lemma cdr_NULL s b : error_cell s ≠ NULL → nil_cell s ≠ NULL → cdr NULL b s = Crash.
Proof.
  intros He Hn. unfold cdr. rewrite bind_unfold. simpl.
  by rewrite !decide_False by done.
Qed.

Lemma type_at_cell_type s p ty : type_at (heap s) p ty → cell_type p s = Ok ty s.
Proof. intros (i&c&->&Hi&<-). by apply cell_type_at. Qed.

Lemma pair_at_type h p a d : pair_at h p a d → type_at h p CELL_LIST.
Proof. intros (i&c&->&Hi&Ht&_). by exists i, c. Qed.

Lemma func_at_type h p ty f : func_at h p ty f → type_at h p ty.
Proof. intros (i&c&->&Hi&Ht&_). by exists i, c. Qed.

Lemma pair_at_car s p a d : pair_at (heap s) p a d → cell_car p s = Ok a s.
Proof. intros (i&c&->&Hi&_&Ha&_). by apply cell_car_at with c. Qed.

Lemma pair_at_cdr s p a d : pair_at (heap s) p a d → cell_cdr p s = Ok d s.
Proof. intros (i&c&->&Hi&_&_&Hd). by apply cell_cdr_at with c. Qed.

Lemma func_at_cell_func s p ty f : func_at (heap s) p ty f → cell_func p s = Ok f s.
Proof.
  intros (i&c&->&Hi&_&Hf). unfold cell_func.
  by rewrite bind_unfold, (deref_at _ _ _ Hi), Hf.
Qed.

Lemma unprotect_protected p s : unprotect (protected p s) = Ok tt s.
Proof. by destruct s. Qed.

Lemma eval_lisp_S fuel expr s :
  eval_lisp (S fuel) expr s = eval_step (eval_lisp fuel) fuel expr s.
Proof. done. Qed.

Lemma is_pair_sound h p a d : is_pair h p a d = true → pair_at h p a d.
Proof.
  unfold is_pair. destruct p as [|i]; [done|]. destruct (h !! i) as [c|] eqn:Hi; [|done].
  intros (?&?&?)%bool_decide_eq_true. by exists i, c.
Qed.

Lemma is_func_sound h p ty f : is_func h p ty f = true → func_at h p ty f.
Proof.
  unfold is_func. destruct p as [|i]; [done|]. destruct (h !! i) as [c|] eqn:Hi; [|done].
  intros (?&?)%bool_decide_eq_true. by exists i, c.
Qed.

Lemma is_type_sound h p ty : is_type h p ty = true → type_at h p ty.
Proof.
  unfold is_type. destruct p as [|i]; [done|]. destruct (h !! i) as [c|] eqn:Hi; [|done].
  intros ?%bool_decide_eq_true. by exists i, c.
Qed.

(** A list whose head is an atom bound to a special function is handed,
    without its head, to that function. *)
Lemma eval_special_form fuel s l expr q args b f :
  env_at (heap s) (binding_list s) l →
  pair_at (heap s) expr q args →
  type_at (heap s) q CELL_ATOM → assoc q l = Some b →
  func_at (heap s) (b_value b) CELL_SFUNC f →
  expr ≠ error_cell s → q ≠ error_cell s → b_value b ≠ error_cell s →
  eval_lisp (S (S fuel)) expr s = call1 (eval_lisp (S fuel)) f args s.
Proof.
  intros Hl Hexpr Hq Hb Hf He Hqe Hfe.
  assert (Hhead : eval_lisp (S fuel) q (protected expr s)
                  = Ok (b_value b) (protected expr s)).
  { rewrite eval_lisp_S. unfold eval_step. rewrite bind_unfold. cbn [get].
    rewrite decide_False by done.
    rewrite bind_unfold, (type_at_cell_type (protected expr s) q CELL_ATOM Hq).
    rewrite decide_True by done.
    rewrite (eval_atom_env q (protected expr s) l Hl). unfold eval_atom_in.
    rewrite Hb. destruct Hf as (k&ck&Hk&_). rewrite Hk. done. }
  rewrite eval_lisp_S. unfold eval_step at 1. rewrite bind_unfold. cbn [get].
  rewrite decide_False by done.
  rewrite bind_unfold, (type_at_cell_type s expr CELL_LIST (pair_at_type _ _ _ _ Hexpr)).
  rewrite decide_False by done. rewrite decide_True by done.
  rewrite bind_unfold. change (protect expr s) with (Ok tt (protected expr s)). cbv iota.
  rewrite bind_unfold, (pair_at_car (protected expr s) expr q args Hexpr).
  rewrite bind_unfold, Hhead. rewrite decide_False by done.
  rewrite bind_unfold,
    (type_at_cell_type (protected expr s) _ CELL_SFUNC (func_at_type _ _ _ _ Hf)).
  rewrite decide_False by done. rewrite decide_True by done.
  rewrite bind_unfold, unprotect_protected.
  rewrite bind_unfold, (func_at_cell_func s _ _ _ Hf).
  rewrite bind_unfold, (pair_at_cdr s expr q args Hexpr). done.
Qed.

(** [lisp_if] on the arguments [(c t e ...)]: the condition is evaluated
    with the arguments protected, then one of the branches. *)
Lemma lisp_if_branch ev s s1 args c r1 t r2 e r3 v :
  pair_at (heap s) args c r1 → pair_at (heap s) r1 t r2 → pair_at (heap s) r2 e r3 →
  (∀ p, p ∈ [args; r1; r2] → p ≠ nil_cell s ∧ p ≠ error_cell s) →
  (∀ p, p ∈ [c; t; e] → p ≠ error_cell s) →
  ev c (protected args s) = Ok v s1 → protect_table s1 ≠ [] →
  lisp_if ev args s
  = ev (if decide (v = nil_cell s) then e else t)
      (with_protect_table (tail (protect_table s1)) s1).
Proof.
  intros Ha H1 H2 Hp Hx Hc Hpt.
  assert (Hne : ∀ p a d, pair_at (heap s) p a d → p ≠ NULL).
  { by intros p a d (i&_&->&_). }
  destruct (Hp args) as [Han Hae]; [rewrite !elem_of_cons; tauto|].
  destruct (Hp r1) as [H1n H1e]; [rewrite !elem_of_cons; tauto|].
  destruct (Hp r2) as [H2n H2e]; [rewrite !elem_of_cons; tauto|].
  unfold lisp_if.
  rewrite bind_unfold, (car_at s args c r1 NULL Ha Hae Han).
  rewrite bind_unfold, (cdr_at s args c r1 NULL Ha Hae Han).
  rewrite decide_False by by eapply Hne.
  rewrite bind_unfold, (car_at s r1 t r2 NULL H1 H1e H1n).
  rewrite bind_unfold, (cdr_at s args c r1 NULL Ha Hae Han).
  rewrite decide_False by by eapply Hne.
  rewrite bind_unfold, (cdr_at s r1 t r2 NULL H1 H1e H1n).
  rewrite decide_False by by eapply Hne.
  rewrite bind_unfold, (car_at s r2 e r3 NULL H2 H2e H2n).
  rewrite bind_unfold. cbn [get].
  rewrite decide_False.
  2:{ intros [?|[?|?]]; [apply (Hx c)|apply (Hx t)|apply (Hx e)]; try done;
        rewrite !elem_of_cons; tauto. }
  rewrite bind_unfold. change (protect args s) with (Ok tt (protected args s)). cbv iota.
  rewrite bind_unfold, Hc. rewrite bind_unfold. unfold unprotect at 1.
  destruct (protect_table s1) as [|p T] eqn:HT; [done|]. cbn [tail].
  destruct (decide (v = nil_cell s)).
  - by rewrite decide_False by (by intros ?).
  - by rewrite decide_True.
Qed.

(** An atom that is bound evaluates to its value. *)
Lemma eval_bound_atom fuel s l q b :
  env_at (heap s) (binding_list s) l →
  type_at (heap s) q CELL_ATOM → assoc q l = Some b →
  q ≠ error_cell s → b_value b ≠ NULL →
  eval_lisp (S fuel) q s = Ok (b_value b) s.
Proof.
  intros Hl Hq Hb Hqe Hv.
  rewrite eval_lisp_S. unfold eval_step. rewrite bind_unfold. cbn [get].
  rewrite decide_False by done.
  rewrite bind_unfold, (type_at_cell_type s q CELL_ATOM Hq).
  rewrite decide_True by done.
  rewrite (eval_atom_env q s l Hl). unfold eval_atom_in.
  rewrite Hb. by rewrite decide_False.
Qed.

(** ** Segments of the binding list *)















Lemma type_at_ne h p q ty ty' : type_at h p ty → type_at h q ty' → ty ≠ ty' → p ≠ q.
Proof.
  intros (i&c&->&Hc&Ht) (i'&c'&->&Hc'&Ht') Hne [= <-]. congruence.
Qed.

Lemma elem_of_env_cells i l :
  i ∈ env_cells l ↔ ∃ b, b ∈ l ∧ (i = b_link b ∨ i = b_pair b).
Proof.
  unfold env_cells. rewrite elem_of_app, !list_elem_of_fmap. split.
  - intros [(b&->&?)|(b&->&?)]; exists b; auto.
  - intros (b&?&[->| ->]); [left|right]; by exists b.
Qed.



(** ** The formals without actuals *)




Lemma read_list_sound n : ∀ h p l, read_list n h p = Some l → list_at h p l.
Proof.
  induction n as [|n IH]; intros h p l; [done|]. simpl.
  destruct p as [|i]; [intros [= <-]; constructor|].
  destruct (h !! i) as [c|] eqn:Hi; [|done]. simpl.
  destruct (decide (c_type c = CELL_LIST)) as [Ht|]; [|done].
  destruct (c_car c) as [x| |] eqn:Hx; try done. simpl.
  destruct (c_cdr c) as [next| |] eqn:Hn; try done. simpl.
  destruct (read_list n h next) as [l'|] eqn:Hl; [|done]. simpl.
  intros [= <-]. econstructor; eauto.
Qed.



Lemma env_at_reach h R p l :
  env_at h p l → (∀ i, i ∈ env_cells l → type_at h (Cell i) CELL_LIST) →
  (∀ i, p = Cell i → reach h R i) → ∀ i, i ∈ env_cells l → reach h R i.
Proof.
  induction 1 as [|b cl cp next l Hl Hp Hn Hq Ha Hv Hrest IH]; intros Hty Hroot i Hi.
  - apply elem_of_env_cells in Hi as (b&Hb&_). by apply elem_of_nil in Hb.
  - assert (Hlink : reach h R (b_link b)) by by apply Hroot.
    assert (Hlt : has_children (c_type cl) = true).
    { destruct (Hty (b_link b)) as (i'&c'&[= <-]&Hc'&Ht').
      - apply elem_of_env_cells. exists b. split; [by left|auto].
      - rewrite Hl in Hc'. simplify_eq. by rewrite Ht'. }
    apply elem_of_env_cells in Hi as (b'&Hb'&Hi).
    apply elem_of_cons in Hb' as [->|Hb'].
    + destruct Hi as [->| ->]; [done|]. eapply reach_child; [exact Hlink|].
      exists cl. split; [done|]. split; [done|]. by left.
    + apply IH.
      * intros j Hj. apply Hty. apply elem_of_env_cells in Hj as (b0&Hb0&Hj).
        apply elem_of_env_cells. exists b0. split; [by right|done].
      * intros j ->. eapply reach_child; [exact Hlink|].
        exists cl. split; [done|]. split; [done|]. by right.
      * apply elem_of_env_cells. by exists b'.
Qed.

Lemma is_lambda_sound h p a d : is_lambda h p a d = true → lambda_at h p a d.
Proof.
  unfold is_lambda. destruct p as [|i]; [done|]. destruct (h !! i) as [c|] eqn:Hi; [|done].
  intros (?&?&?)%bool_decide_eq_true. by exists i, c.
Qed.




(** ** The definition of a user function *)










(** ** Calls with actual arguments *)









(** ** Interning a new name *)

Ltac lookup_insert :=
  unfold popped; simpl;
  repeat first [rewrite list_lookup_insert_ne by done
               |rewrite list_lookup_insert_eq by (rewrite ?length_insert; done)];
  try done.

Lemma chain_cons_inv h p i l q :
  chain h p (i :: l) q →
  p = Cell i ∧ ∃ c next, h !! i = Some c ∧ c_car c = to_cell next ∧ chain h next l q.
Proof. inversion 1; subst. eauto 10. Qed.

Lemma runs_strict_Ok {A} (m : M A) s Q :
  runs strict m s Q → ∃ a s', m s = Ok a s' ∧ Q a s'.
Proof. unfold runs. destruct (m s) as [a s'| | |]; try done. eauto. Qed.

Lemma new_atom_fresh s l name i1 i2 i3 fl :
  init s = true →
  heap_ok (heap s) (free_list s) (roots s) (i1 :: i2 :: i3 :: fl) →
  env_at (heap s) (binding_list s) l →
  (∀ b, b ∈ l → Cell (b_link b) ≠ nil_cell s) →
  (∀ b, b ∈ l → is_Some (atom_name (heap s) (b_atom b))) →
  assoc_name (heap s) name l = None →
  runs strict (new_atom name) s (λ a s',
    a = Cell i2
    ∧ (∀ j, j ∉ [i1; i2; i3] → heap s' !! j = heap s !! j)
    ∧ heap s' !! i1 = Some (mkCELL (to_cell (Cell i2)) (to_cell NULL) CELL_LIST false)
    ∧ heap s' !! i2 = Some (mkCELL (to_name name) (to_cell NULL) CELL_ATOM false)
    ∧ heap s' !! i3
      = Some (mkCELL (to_cell (Cell i1)) (to_cell (binding_list s)) CELL_LIST false)
    ∧ binding_list s' = Cell i3 ∧ protect_table s' = protect_table s
    ∧ nil_cell s' = nil_cell s ∧ error_cell s' = error_cell s
    ∧ init s' = true ∧ out s' = out s
    ∧ heap_ok (heap s') (free_list s') (roots s') fl).
Proof.
  intros Hinit Hok Hl Hnil Hnames Hnone.
  pose proof Hok as (Hch&Hnd&_).
  apply chain_cons_inv in Hch as (Hfl&c1&p1&H1&Hc1&Hch).
  apply chain_cons_inv in Hch as (->&c2&p2&H2&Hc2&Hch).
  apply chain_cons_inv in Hch as (->&c3&p3&H3&Hc3&Hch).
  apply NoDup_cons in Hnd as [Hn1 Hnd]. apply NoDup_cons in Hnd as [Hn2 Hnd].
  apply NoDup_cons in Hnd as [Hn3 Hnd].
  apply not_elem_of_cons in Hn1 as [N12 Hn1]. apply not_elem_of_cons in Hn1 as [N13 Hn1].
  apply not_elem_of_cons in Hn2 as [N23 Hn2].
  assert (N21 : i2 ≠ i1) by done. assert (N31 : i3 ≠ i1) by done.
  assert (N32 : i3 ≠ i2) by done.
  assert (L1 : i1 < length (heap s)) by by eapply lookup_lt_Some.
  assert (L2 : i2 < length (heap s)) by by eapply lookup_lt_Some.
  assert (L3 : i3 < length (heap s)) by by eapply lookup_lt_Some.
  unfold new_atom. apply runs_bind, runs_get. cbv beta. apply runs_bind.
  eapply runs_Ok.
  { apply (find_atom_env name s _ _ Hl Hnil Hnames).
    pose proof (env_at_length _ _ _ Hl). unfold heap_size. lia. }
  rewrite Hnone. cbn [fmap option_fmap option_map].
  set (P := mkCELL (to_cell (Cell i2)) (to_cell NULL) CELL_LIST false).
  set (A := mkCELL (to_name name) (to_cell NULL) CELL_ATOM false).
  set (L := mkCELL (to_cell (Cell i1)) (to_cell (binding_list s)) CELL_LIST false).
  set (h1 := <[i1 := fresh CELL_LIST]> (heap s)).
  set (h2 := <[i2 := fresh CELL_ATOM]> h1).
  set (h5 := <[i2 := A]> (<[i1 := P]> h2)).
  set (h7 := <[i3 := fresh CELL_LIST]> h5).
  set (h9 := <[i3 := L]> h7).
  set (R := Cell i3 :: Cell i2 :: Cell i1 :: roots s).
  assert (Hsub : ∀ R' p, p ∈ R' → p ∈ Cell i3 :: R') by (intros; by right).
  assert (Hok1 : heap_ok h1 (Cell i2) (Cell i1 :: roots s) (i2 :: i3 :: fl)).
  { rewrite Hfl in Hok. by eapply heap_ok_pop. }
  assert (Hok2 : heap_ok h2 (Cell i3) (Cell i2 :: Cell i1 :: roots s) (i3 :: fl)).
  { eapply (heap_ok_pop h1 i2 c2); [exact Hok1| |done].
    unfold h1. by rewrite list_lookup_insert_ne. }
  assert (Hok5 : heap_ok h5 (Cell i3) (Cell i2 :: Cell i1 :: roots s) (i3 :: fl)).
  { unfold h5. apply heap_ok_update; [apply heap_ok_update; [exact Hok2|..]|..].
    - apply reach_root. right. by left.
    - done.
    - intros _. by exists (Cell i2), NULL.
    - intros k [[= <-]|[=]]. apply reach_root. by left.
    - apply reach_root. by left.
    - done.
    - done.
    - intros k [[=]|[=]]. }
  assert (H35 : h5 !! i3 = Some c3).
  { unfold h5, h2, h1. by rewrite !list_lookup_insert_ne. }
  assert (L35 : i3 < length h5) by by eapply lookup_lt_Some.
  assert (Hok7 : heap_ok h7 p3 R fl) by by eapply heap_ok_pop.
  assert (Hok9 : heap_ok h9 p3 R fl).
  { unfold h9. apply heap_ok_update; [exact Hok7|..].
    - apply reach_root. by left.
    - done.
    - intros _. by exists (Cell i1), (binding_list s).
    - intros k [Hk|Hk]; simpl in Hk.
      + injection Hk as <-. apply reach_root. right. right. by left.
      + apply reach_root. do 3 right. apply elem_of_roots. left. congruence. }
  (* the pair cell *)
  wp. eapply runs_Ok; [by eapply new_cell_pop|].
  (* the atom *)
  wp. eapply runs_Ok.
  { eapply (new_cell_pop CELL_ATOM _ i2 c2 (Cell i3)); [done|done| |done].
    simpl. by rewrite list_lookup_insert_ne. }
  unfold cell_car_assign, cell_cdr_assign, cell_name_assign.
  wp. eapply runs_update; [lookup_insert|].
  wp. eapply runs_update; [lookup_insert|].
  wp. eapply runs_update; [lookup_insert|].
  wp. rewrite list_insert_insert_eq.
  change (<[i2:=_]> (<[i1:=_]> (<[i2:=_]> (<[i1:=_]> (heap s))))) with h5.
  eapply runs_Ok.
  { eapply (new_cell_pop CELL_LIST _ i3 c3 p3); [done|done|exact H35|done]. }
  wp. eapply runs_unprotect; [done|].
  wp. eapply runs_update; [lookup_insert|].
  wp. eapply runs_update; [lookup_insert|].
  wp. rewrite !list_insert_insert_eq.
  assert (Hh9 : h9 = <[i3 := L]> h5) by (unfold h9, h7; by rewrite list_insert_insert_eq).
  rewrite Hh9 in Hok9.
  assert (L12 : i1 < length h2) by (unfold h2, h1; by rewrite !length_insert).
  assert (L22 : i2 < length (<[i1 := P]> h2)) by (unfold h2, h1; by rewrite !length_insert).
  split; [done|]. split.
  { intros j Hj. apply not_elem_of_cons in Hj as [J1 Hj].
    apply not_elem_of_cons in Hj as [J2 Hj]. apply not_elem_of_cons in Hj as [J3 _].
    unfold h5, h2, h1. by rewrite !list_lookup_insert_ne. }
  split.
  { unfold h5. rewrite !list_lookup_insert_ne by done.
    by apply list_lookup_insert_eq. }
  split.
  { unfold h5. rewrite list_lookup_insert_ne by done.
    by apply list_lookup_insert_eq. }
  split. { by apply list_lookup_insert_eq. }
  do 6 (split; [done|]).
  eapply heap_ok_roots; [|exact Hok9]. intros p. unfold R.
  rewrite !elem_of_cons, !elem_of_roots. simpl. tauto.
Qed.

Lemma chain_det h p l : chain h p l NULL → ∀ l', chain h p l' NULL → l = l'.
Proof.
  remember NULL as q eqn:Hq. induction 1 as [p|i c p l q Hi Hc Hrest IH]; intros l' H'.
  - subst p. by inversion H'.
  - subst q. inversion H' as [|i' c' p' l'' q' Hi' Hc' Hrest']; subst.
    rewrite Hi in Hi'. simplify_eq. rewrite Hc in Hc'. simplify_eq.
    f_equal. by apply IH.
Qed.

Lemma check_heap_free_cells h fp R n l :
  check_heap h fp R = true → free_cells n h fp = Some l → heap_ok h fp R l.
Proof.
  intros [fl Hok]%check_heap_sound Hl%free_cells_sound.
  destruct Hok as (Hch&?). by rewrite (chain_det _ _ _ Hl _ Hch).
Qed.

(** ** The printer *)

Lemma with_out_id s : with_out (out s ++ []) s = s.
Proof. destruct s. unfold with_out. simpl. by rewrite app_nil_r. Qed.

Lemma appends_ret {A} (a : A) s : appends (mret a) s.
Proof. exists []. by rewrite with_out_id. Qed.

Lemma appends_read {A} (m : M A) s :
  (∀ a s', m s = Ok a s' → s' = s) → (∀ n s', m s ≠ Exit n s') → appends m s.
Proof.
  intros Hok Hexit. unfold appends. destruct (m s) as [a s'|n s'| |] eqn:E; try done.
  - rewrite (Hok a s' eq_refl). exists []. by rewrite with_out_id.
  - by apply (Hexit n s').
Qed.

Lemma appends_bind {A B} (m : M A) (k : A → M B) s :
  appends m s → (∀ a s', appends (k a) s') → appends (m ≫= k) s.
Proof.
  unfold appends. intros Hm Hk. rewrite bind_unfold.
  destruct (m s) as [a s'|n s'| |]; try done. destruct Hm as (o&->).
  specialize (Hk a (with_out (out s ++ o) s)).
  destruct (k a (with_out (out s ++ o) s)) as [b s''|n s''| |]; try done.
  destruct Hk as (o'&->). exists (o ++ o'). simpl. by rewrite app_assoc.
Qed.

Lemma appends_printf msg s : appends (printf msg) s.
Proof. by exists [msg]. Qed.

Lemma appends_get s : appends get s.
Proof. apply appends_read; [by intros a s' [= _ <-]|done]. Qed.

Lemma appends_deref c s : appends (deref c) s.
Proof.
  apply appends_read; unfold deref; destruct c as [|i]; try done;
    destruct (heap s !! i); try done. by intros a s' [= _ <-].
Qed.

Lemma appends_cell_car c s : appends (cell_car c) s.
Proof.
  apply appends_bind; [apply appends_deref|]. intros x s'.
  destruct (as_cell (c_car x)); [apply appends_ret|done].
Qed.

Lemma appends_cell_cdr c s : appends (cell_cdr c) s.
Proof.
  apply appends_bind; [apply appends_deref|]. intros x s'.
  destruct (as_cell (c_cdr x)); [apply appends_ret|done].
Qed.

Lemma appends_cell_type c s : appends (cell_type c) s.
Proof. apply appends_bind; [apply appends_deref|]. intros x s'. apply appends_ret. Qed.

Lemma appends_cell_name c s : appends (cell_name c) s.
Proof.
  apply appends_bind; [apply appends_deref|]. intros x s'.
  destruct (c_car x); try done. apply appends_ret.
Qed.

Lemma print_appends fuel :
  (∀ cell s, appends (print_lisp fuel cell) s)
  ∧ (∀ cell s, appends (print_elems fuel cell) s).
Proof.
  induction fuel as [|fuel [IH1 IH2]]; [done|]. split; intros cell s; simpl.
  - case_decide; [apply appends_printf|].
    apply appends_bind; [apply appends_cell_type|]. intros t s1. destruct t.
    + apply appends_bind; [apply appends_printf|]. intros _ s2.
      apply appends_bind; [apply appends_cell_car|]. intros a s3.
      apply appends_bind; [apply IH1|]. intros _ s4.
      apply appends_bind; [apply appends_printf|]. intros _ s5.
      apply appends_bind; [apply appends_cell_cdr|]. intros d s6.
      apply appends_bind; [apply IH1|]. intros _ s7. apply appends_printf.
    + apply appends_printf.
    + apply appends_printf.
    + apply appends_bind; [apply appends_printf|]. intros _ s2.
      apply appends_bind; [apply IH2|]. intros _ s3. apply appends_printf.
    + apply appends_bind; [apply appends_get|]. intros s2 s3.
      case_decide; [|apply appends_ret].
      apply appends_bind; [apply appends_cell_name|]. intros name s4. apply appends_printf.
  - apply appends_bind; [apply appends_cell_cdr|]. intros c s1.
    case_decide.
    + apply appends_bind; [apply appends_cell_car|]. intros a s2.
      apply appends_bind; [apply IH1|]. intros _ s3.
      apply appends_bind; [apply appends_printf|]. intros _ s4. apply IH2.
    + apply appends_bind; [apply appends_cell_car|]. intros a s2. apply IH1.
Qed.

Lemma printf_at msg s : printf msg s = Ok tt (with_out (out s ++ [msg]) s).
Proof. done. Qed.

Lemma print_atom fuel s a n :
  prints_as s a n → print_lisp (S fuel) a s = Ok tt (with_out (out s ++ [n]) s).
Proof.
  intros (Hty&Hname&Hne). pose proof Hty as (i&c&->&Hi&Ht).
  simpl. rewrite bind_unfold, (cell_type_at _ _ _ Hi), Ht.
  rewrite bind_unfold. cbn [get]. rewrite decide_True by done.
  unfold atom_name in Hname. rewrite Hi in Hname. simpl in Hname.
  destruct (c_car c) as [|name|] eqn:Hc; try done. simplify_eq.
  by rewrite bind_unfold, (cell_name_at _ _ _ _ Hi Hc).
Qed.

Lemma print_elems_S fuel cell :
  print_elems (S fuel) cell
  = (c ← cell_cdr cell;
     if decide (c ≠ NULL) then
       a ← cell_car cell; print_lisp fuel a ;; printf " " ;; print_elems fuel c
     else a ← cell_car cell; print_lisp fuel a).
Proof. done. Qed.

Lemma print_elems_atoms l : ∀ names s p fuel,
  list_at (heap s) p l → l ≠ [] →
  Forall2 (λ e n, prints_as s e.2 n) l names → length l < fuel →
  print_elems fuel p s = Ok tt (with_out (out s ++ spaced names) s).
Proof.
  induction l as [|[i x] l IH]; intros names s p fuel Hat Hne Hall Hfuel; [done|].
  inversion Hat as [|i' c x' next l' Hi Ht Hx Hn Hrest]; subst.
  inversion Hall as [|e n l'' names' Hxn Hall']; subst. simpl in Hxn.
  destruct fuel as [|fuel]; [simpl in Hfuel; lia|]. simpl in Hfuel.
  destruct fuel as [|fuel]; [lia|].
  rewrite print_elems_S, bind_unfold, (cell_cdr_at _ _ _ _ Hi Hn).
  destruct l as [|e l].
  - inversion Hrest; subst. inversion Hall'; subst.
    rewrite decide_False by (by intros ?).
    rewrite bind_unfold, (cell_car_at _ _ _ _ Hi Hx). by apply print_atom.
  - assert (Hnext : next ≠ NULL) by (inversion Hrest; done).
    rewrite decide_True by done.
    rewrite bind_unfold, (cell_car_at _ _ _ _ Hi Hx).
    rewrite bind_unfold, (print_atom fuel s x n Hxn).
    rewrite bind_unfold, printf_at.
    set (s1 := with_out _ (with_out _ s)).
    rewrite (IH names' s1 next (S fuel)); [|exact Hrest|done|exact Hall'|simpl in *; lia].
    unfold s1. simpl. f_equal. unfold with_out. simpl. f_equal.
    destruct names' as [|n' names']; [inversion Hall'|].
    by rewrite <- !app_assoc.
Qed.

Lemma print_lisp_S fuel cell :
  print_lisp (S fuel) cell
  = (if decide (cell = NULL) then printf "<NULL>"
     else
       t ← cell_type cell;
       match t with
       | CELL_LAMBDA =>
           printf "(lambda " ;;
           a ← cell_car cell;
           print_lisp fuel a ;;
           printf " " ;;
           d ← cell_cdr cell;
           print_lisp fuel d ;;
           printf ")"
       | CELL_SFUNC => printf "<internal-special-function>"
       | CELL_VFUNC => printf "<internal-value-function>"
       | CELL_LIST => printf "(" ;; print_elems fuel cell ;; printf ")"
       | CELL_ATOM =>
           s ← get;
           if decide (cell ≠ error_cell s) then name ← cell_name cell; printf name
           else ret tt
       end)%string.
Proof. done. Qed.

(** ** The first call of the allocator *)

Lemma link_free_lookup h i c :
  h !! i = Some c →
  link_free h !! i
  = Some (set_car (to_cell (if decide (S i < length h) then Cell (S i) else NULL)) c).
Proof. unfold link_free. rewrite list_lookup_imap. by intros ->. Qed.

Lemma length_link_free h : length (link_free h) = length h.
Proof. unfold link_free. by rewrite length_imap. Qed.

Lemma chain_link_free h : ∀ k i,
  i + k = length h →
  chain (link_free h) (if decide (i < length h) then Cell i else NULL) (seq i k) NULL.
Proof.
  induction k as [|k IH]; intros i Hi.
  - rewrite decide_False by lia. constructor.
  - rewrite decide_True by lia. simpl.
    destruct (lookup_lt_is_Some_2 h i) as [c Hc]; [lia|].
    econstructor; [by apply link_free_lookup|done|]. apply IH. lia.
Qed.

Lemma reach_no_root h R i : (∀ k, Cell k ∉ R) → ¬ reach h R i.
Proof. intros HR. induction 1 as [i Hi|]; [by apply (HR i)|done]. Qed.

Lemma setup_heap_ok s :
  binding_list s = NULL → heap s ≠ [] →
  heap_ok (heap (setup_heap s)) (free_list (setup_heap s)) (roots (setup_heap s))
    (seq 0 (length (heap s))).
Proof.
  intros Hbl Hne.
  assert (Hnone : ∀ i, ¬ reach (link_free (heap s)) (roots (setup_heap s)) i).
  { intros i. apply reach_no_root. intros k. unfold roots. simpl. rewrite Hbl.
    by intros ?%list_elem_of_singleton. }
  repeat split.
  - simpl. pose proof (chain_link_free (heap s) (length (heap s)) 0 eq_refl) as Hch.
    rewrite decide_True in Hch; [done|]. destruct (heap s); [done|simpl; lia].
  - apply NoDup_seq.
  - intros i c Hi Hnot. exfalso. apply Hnot. apply elem_of_seq.
    apply lookup_lt_Some in Hi. simpl in Hi. rewrite length_link_free in Hi. lia.
  - intros i Hi. by apply Hnone in Hi.
  - intros i Hi. by apply Hnone in Hi.
Qed.

(** * The properties of the specification *)

Local Open Scope string_scope.

(** ** The collector *)

(** C1. A collection that starts with all marks clear and returns leaves
    every cell that was reachable from the binding list or from the
    protection stack with the tag and the payload slots it had; the cells
    that the mark phase has not marked are, together, the chain that now
    heads the free list and that ends where the free list began; and no
    cell is marked any more. When what the roots reach is well formed, the
    collection does return, or it exits with status 1. *)
Theorem garbage_collect_spec (s : state) :
  marks_clear (heap s) →
  (well_formed (heap s) (roots s) →
     ∃ s', garbage_collect s = Ok tt s' ∨ garbage_collect s = Exit 1 s')
  ∧ ∀ s', garbage_collect s = Ok tt s' →
      (∀ i c, reach (heap s) (roots s) i → heap s !! i = Some c →
         ∃ c', heap s' !! i = Some c' ∧ same_payload c c')
      ∧ (∃ h1 l, mark_all (roots s) (heap s) = Some h1
           ∧ chain (heap s') (free_list s') l (free_list s)
           ∧ ∀ i, i ∈ l ↔ ∃ c, h1 !! i = Some c ∧ c_mark c = false)
      ∧ marks_clear (heap s').
Proof.
  intros Hclear. rewrite garbage_collect_unfold. split.
  - intros Hwf. destruct (mark_all_total _ _ Hwf) as (h1&H1).
    unfold collect. rewrite H1. simpl.
    destruct (sweep _ _ _) as [[h fl] count]. destruct (decide (count = 0)); eauto.
  - intros s' Hrun. destruct (collect s) as [[[h fl] count]|] eqn:Hc; [|done].
    destruct (decide (count = 0)); [done|]. simplify_eq. simpl.
    apply collect_spec in Hc as (h1&H1&Hlen&Hch&_&Hsw).
    split; [|split].
    + intros i c Hr Hi. pose proof (mark_all_reach _ _ _ Hclear H1 _ Hr) as (c1&Hc1&Hm1).
      apply mark_all_spec in H1 as (L&_&_).
      destruct (marks_le_lookup _ _ _ _ L Hi) as (c1'&Hc1'&(Ht&Ha&Hd)&_). simplify_eq.
      destruct (Hsw _ _ Hc1) as (c'&Hc'&_&Ht'&Hd'&Ha'&_).
      exists c'. split; [done|]. unfold same_payload.
      rewrite Ht', Hd', Ha' by done. done.
    + exists h1, (reverse (unmarked_cells h1)). split; [done|]. split; [done|].
      intros i. rewrite elem_of_reverse. apply elem_of_unmarked_cells.
    + intros i c' Hi. apply mark_all_spec in H1 as (L&_&_).
      destruct (lookup_lt_is_Some_2 h1 i) as [c1 Hc1].
      { rewrite <- (Forall2_length _ _ _ L), <- Hlen. by eapply lookup_lt_Some. }
      destruct (Hsw _ _ Hc1) as (c''&Hc''&Hm&_). by simplify_eq.
Qed.

(** The interpreter started with [-heap 42] has one free cell after
    [initialize]; once that cell is allocated and dropped, a collection
    finds it again. *)
Lemma garbage_collect_spec_witness :
  let s := state_after (new_cell CELL_LIST) (booted 42 []) in
  marks_clear (heap s)
  ∧ ∃ s', garbage_collect s = Ok tt s' ∧ marks_clear (heap s')
          ∧ chain (heap s') (free_list s') [41] NULL.
Proof.
  intros s.
  assert (Hclear : marks_clear (heap s)) by (apply check_clear; vm_compute; reflexivity).
  split; [exact Hclear|].
  destruct (garbage_collect s) as [[] s'| | |] eqn:Hgc;
    try (exfalso; vm_compute in Hgc; discriminate).
  exists s'. split; [reflexivity|].
  destruct (garbage_collect_spec s Hclear) as [_ Hpost].
  destruct (Hpost s' Hgc) as (_&_&Hc). split; [exact Hc|].
  vm_compute in Hgc. injection Hgc as <-. simpl.
  econstructor; [reflexivity..|constructor].
Defined.

(** ** The allocator *)

(** C6. On its first call [new_cell] sets the heap up and goes on as on any
    other call. When a free cell is at hand, [new_cell] pops it without
    collecting. When the free list is empty, the collector runs before a
    cell is popped, and the cell comes off the free list that the
    collection has built; a collection that frees no cell ends the process
    with status 1 after the diagnostic, so exhaustion never comes back to
    the caller as a value. Whenever [new_cell] returns, it returns a cell of
    the heap with the requested tag, both payload slots [NULL] and the mark
    clear. *)
Theorem new_cell_spec (type : CELL_TYPE) (s : state) :
  (init s = false → heap s ≠ [] → new_cell type s = new_cell type (setup_heap s))
  ∧ (∀ i c next,
       init s = true → free_list s = Cell i → heap s !! i = Some c →
       c_car c = to_cell next →
       new_cell type s = Ok (Cell i) (popped type i next s))
  ∧ (init s = true → free_list s = NULL →
       new_cell type s = (garbage_collect ≫= λ _, new_cell type) s
       ∧ ∀ s1, garbage_collect s = Ok tt s1 →
               init s1 = true ∧ ∃ i, free_list s1 = Cell i)
  ∧ (∀ h fl,
       init s = true → free_list s = NULL → collect s = Some (h, fl, 0) →
       new_cell type s = Exit 1 (gc_end h fl "
Garbage collection failed!
" s))
  ∧ (∀ c s', new_cell type s = Ok c s' →
       ∃ i, c = Cell i ∧ heap s' !! i = Some (fresh type)).
Proof.
  split; [apply new_cell_first|].
  split; [intros; by eapply new_cell_pop|].
  split.
  { intros Hinit Hfl. split; [by apply new_cell_gc|].
    intros s1 [Hi Hf]%garbage_collect_Ok. split; [congruence|done]. }
  split; [intros; by apply new_cell_exhausted|].
  apply new_cell_result.
Qed.

(** With [-heap 41] the cells are all in use after [initialize]: the next
    allocation collects, frees nothing and exits. *)
Lemma new_cell_spec_witness :
  let s := booted 41 [] in
  init s = true ∧ free_list s = NULL
  ∧ ∃ s', new_cell CELL_LIST s = Exit 1 s'
          ∧ last (out s') = Some "
Garbage collection failed!
".
Proof.
  intros s. split; [reflexivity|]. split; [reflexivity|].
  destruct (collect s) as [[[h fl] count]|] eqn:Hc;
    [|exfalso; vm_compute in Hc; discriminate].
  assert (count = 0) as -> by (vm_compute in Hc; congruence).
  destruct (new_cell_spec CELL_LIST s) as (_&_&_&Hx&_).
  eexists. split; [apply Hx; [reflexivity|reflexivity|exact Hc]|].
  unfold gc_end, with_out. cbn [out]. apply last_snoc.
Defined.

(** ** The value functions *)

(** C9. [car] and [cdr] map the empty list to the empty list and the error
    cell to the error cell; on any other cell of the heap that is not a
    list they print their diagnostic and return the error cell. *)
Theorem car_cdr_spec (s : state) (a b : ptr) :
  (a = nil_cell s →
     car a b s = Ok (nil_cell s) s ∧ cdr a b s = Ok (nil_cell s) s)
  ∧ (a = error_cell s →
     car a b s = Ok (error_cell s) s ∧ cdr a b s = Ok (error_cell s) s)
  ∧ (∀ i c,
       a = Cell i → heap s !! i = Some c → c_type c ≠ CELL_LIST →
       a ≠ nil_cell s → a ≠ error_cell s →
       car a b s
       = Ok (error_cell s)
           (with_out (out s ++ ["Error: car: argument is not a list."]) s)
       ∧ cdr a b s
         = Ok (error_cell s)
             (with_out (out s ++ ["Error: cdr: argument is not a list."]) s)).
Proof.
  split; [|split].
  - intros ->. split; apply runs_exact.
    + unfold car. wp. case_decide; [wp; split; congruence|].
      rewrite decide_True by done. by wp.
    + unfold cdr. wp. case_decide; [wp; split; congruence|].
      rewrite decide_True by done. by wp.
  - intros ->. split; apply runs_exact.
    + unfold car. wp. rewrite decide_True by done. by wp.
    + unfold cdr. wp. rewrite decide_True by done. by wp.
  - intros i c -> Hi Hty Hnil Herr. split; apply runs_exact.
    + unfold car. wp. rewrite !decide_False by done. wp.
      eapply runs_cell_type; [done|]. rewrite decide_True by done. by wp.
    + unfold cdr. wp. rewrite !decide_False by done. wp.
      eapply runs_cell_type; [done|]. rewrite decide_True by done. by wp.
Qed.

(** The atom [t] is neither a list nor the empty list. *)
Lemma car_cdr_spec_witness :
  let s := booted 64 [] in
  heap s !! 4 = Some (mkCELL (to_name "t") (to_cell NULL) CELL_ATOM false)
  ∧ car (Cell 4) NULL s
    = Ok (error_cell s)
        (with_out (out s ++ ["Error: car: argument is not a list."]) s).
Proof.
  intros s.
  assert (Hi : heap s !! 4
               = Some (mkCELL (to_name "t") (to_cell NULL) CELL_ATOM false))
    by (vm_compute; reflexivity).
  split; [exact Hi|].
  destruct (car_cdr_spec s (Cell 4) NULL) as (_&_&H).
  refine (proj1 (H 4 _ eq_refl Hi _ _ _));
    [discriminate|vm_compute; discriminate|vm_compute; discriminate].
Defined.



(** ** The evaluator and the atom table at concrete inputs *)

(** C2. The input [(t)] applies the atom [t], which evaluates to itself and
    is not callable. [eval_lisp] prints nothing and returns the list
    expression itself, not the error cell, and it leaves the expression on
    the protection stack. *)
Theorem noncallable_head_returns_expr :
  let s := booted 64 [["("; "t"; ")"]] in
  ∃ expr s1 s2,
    parse 10 s = Ok expr s1 ∧ protect_table s1 = []
    ∧ cell_car expr s1 = Ok (true_cell s1) s1
    ∧ eval_lisp 10 (true_cell s1) s1 = Ok (true_cell s1) s1
    ∧ cell_type (true_cell s1) s1 = Ok CELL_ATOM s1
    ∧ eval_lisp 10 expr s1 = Ok expr s2
    ∧ expr ≠ error_cell s2 ∧ out s2 = [] ∧ protect_table s2 = [expr].
Proof.
  intros s.
  exists (Cell 41), (state_after (parse 10) s),
    (state_after (eval_lisp 10 (Cell 41)) (state_after (parse 10) s)).
  repeat (match goal with |- _ ∧ _ => split end);
    vm_compute; (reflexivity || discriminate).
Qed.

(** C3. The input [(if z (quote yes) (quote no))], with [z] unbound: the
    condition evaluates to the error cell, with its diagnostic, and
    [lisp_if] goes on to evaluate the first branch and returns the atom
    [yes]. *)
Theorem if_evaluates_branch_after_error :
  let s := booted 64 [["("; "if"; "z"; "("; "quote"; "yes"; ")";
                       "("; "quote"; "no"; ")"; ")"]] in
  ∃ expr s1 args z r s2,
    parse 10 s = Ok expr s1
    ∧ cell_cdr expr s1 = Ok args s1 ∧ cell_car args s1 = Ok z s1
    ∧ (∃ s', eval_lisp 10 z s1 = Ok (error_cell s1) s')
    ∧ eval_lisp 10 expr s1 = Ok r s2
    ∧ r ≠ error_cell s2 ∧ cell_name r s2 = Ok "yes" s2
    ∧ out s2 = ["Error: unbound atom " +:+ dquote +:+ "z" +:+ dquote +:+ "."].
Proof.
  intros s.
  set (s1 := state_after (parse 10) s).
  exists (Cell 57), s1, (Cell 56), (Cell 42), (Cell 45),
    (state_after (eval_lisp 10 (Cell 57)) s1).
  repeat (match goal with |- _ ∧ _ => split end);
    try (exists (state_after (eval_lisp 10 (Cell 42)) s1));
    vm_compute; (reflexivity || discriminate).
Qed.

(** C5. [new_atom "a"] in [low_heap]: the first allocation returns the pair
    cell [heap[45]]; that cell is neither on the protection stack nor
    reachable from the binding list when the second allocation starts, and
    the free list is empty then, so the second allocation collects, frees
    the pair and returns the very same cell as the atom. [new_atom] ends
    with a binding list whose first entry is the atom instead of a pair. *)
Theorem new_atom_pair_unprotected :
  ∃ s1 s2 s',
    new_cell CELL_LIST low_heap = Ok (Cell 45) s1
    ∧ protect_table s1 = [] ∧ ¬ reach (heap s1) (roots s1) 45
    ∧ free_list s1 = NULL
    ∧ new_cell CELL_ATOM s1 = Ok (Cell 45) s2
    ∧ new_atom "a" low_heap = Ok (Cell 45) s'
    ∧ binding_list s' = Cell 44
    ∧ heap s' !! 44
      = Some (mkCELL (to_cell (Cell 45)) (to_cell (Cell 39)) CELL_LIST false)
    ∧ heap s' !! 45
      = Some (mkCELL (to_name "a") (to_cell NULL) CELL_ATOM false).
Proof.
  set (s1 := state_after (new_cell CELL_LIST) low_heap).
  exists s1, (state_after (new_cell CELL_ATOM) s1),
    (state_after (new_atom "a") low_heap).
  repeat (match goal with |- _ ∧ _ => split end);
    try (vm_compute; reflexivity).
  apply (unreachable_sound _ _ _ (default [] (mark_all (roots s1) (heap s1))));
    vm_compute; reflexivity.
Qed.

(** C7. Reading the symbol [a] twice in [low_heap]: the first [parse]
    interns [a] and returns [heap[45]]; the second one, which looks the
    name up in the binding list that the first one has left, reads the name
    slot of the atom as a cell pointer. *)
Theorem intern_twice_low_heap :
  ∃ s',
    parse 10 low_heap = Ok (Cell 45) s'
    ∧ cell_name (Cell 45) s' = Ok "a" s'
    ∧ input s' = [[]; ["a"]]
    ∧ parse 10 s' = Crash
    ∧ new_atom "a" s' = Crash.
Proof.
  exists (state_after (parse 10) low_heap).
  repeat (match goal with |- _ ∧ _ => split end); vm_compute; reflexivity.
Qed.

(** * Further properties of the program *)

(** ** The collector *)

(** X1. Started on a heap without marks, the mark phase changes nothing but
    mark bits and marks exactly the cells that can be reached from the
    roots through list and lambda cells. It ends within the fuel that
    [mark] gives it, whatever cycles the cells form, as long as what the
    roots reach lies in the heap. *)
Theorem mark_all_exact (h : list CELL) (R : list ptr) :
  marks_clear h →
  (well_formed h R → is_Some (mark_all R h))
  ∧ ∀ h', mark_all R h = Some h' →
      Forall2 mark_le h h' ∧ ∀ i, marked h' i ↔ reach h R i.
Proof.
  intros Hclear. split.
  - intros Hwf. destruct (mark_all_total _ _ Hwf) as (h'&->). by eexists.
  - intros h' Hrun. split; [by apply mark_all_spec in Hrun as (?&_)|].
    intros i. split.
    + intros Hi. destruct (mark_all_sound _ _ _ i Hrun Hi) as [(c&Hc&Hm)|]; [|done].
      by rewrite (Hclear _ _ Hc) in Hm.
    + by eapply mark_all_reach.
Qed.

(** A list cell that is its own head: [heap[0]] holds itself and the atom
    [heap[1]]; [heap[2]] is out of reach. *)
Lemma mark_all_exact_witness :
  let h := [mkCELL (to_cell (Cell 0)) (to_cell (Cell 1)) CELL_LIST false;
            mkCELL (to_name "a") (to_cell NULL) CELL_ATOM false;
            mkCELL (to_cell NULL) (to_cell NULL) CELL_LIST false] in
  marks_clear h
  ∧ ∃ h', mark_all [Cell 0] h = Some h'
          ∧ reach h [Cell 0] 1 ∧ ¬ reach h [Cell 0] 2.
Proof.
  intros h.
  assert (Hclear : marks_clear h) by (apply check_clear; reflexivity).
  split; [exact Hclear|].
  destruct (mark_all [Cell 0] h) as [h'|] eqn:Hrun; [|vm_compute in Hrun; discriminate].
  exists h'. split; [reflexivity|].
  destruct (mark_all_exact h [Cell 0] Hclear) as [_ Hex].
  destruct (Hex h' Hrun) as [_ Hiff].
  vm_compute in Hrun. injection Hrun as <-.
  split.
  - apply Hiff. eexists. split; reflexivity.
  - intros Hr. apply Hiff in Hr. destruct Hr as (c&Hc&Hm).
    vm_compute in Hc. injection Hc as <-. discriminate.
Defined.

(** X2. A collection started by the allocator, that is with an empty free
    list in a consistent heap, frees exactly the garbage: when it returns,
    the free list is a chain, without repetition, of all the cells that the
    roots did not reach and of no other cell; every cell that the roots
    reached is as it was; the roots and the other globals are as they were;
    and the heap is consistent again. It exits, with status 1, exactly when
    the roots reach every cell of the heap. *)
Theorem garbage_collect_exact (s : state) :
  rooted [] s → free_list s = NULL →
  runs exhaustible garbage_collect s (λ _ s',
    rooted [] s' ∧ frame s s'
    ∧ (∀ i, reach (heap s) (roots s) i → heap s' !! i = heap s !! i)
    ∧ ∃ l, chain (heap s') (free_list s') l NULL ∧ NoDup l
           ∧ ∀ i, i ∈ l ↔ i < heap_size s ∧ ¬ reach (heap s) (roots s) i)
  ∧ ((∃ s', garbage_collect s = Exit 1 s')
     ↔ ∀ i, i < heap_size s → reach (heap s) (roots s) i).
Proof.
  intros Hs Hfl.
  pose proof Hs as (Hinit&fl&Hch&Hnd&Hmk&Hwf&Hfree). simpl in *.
  rewrite Hfl in Hch. apply chain_NULL in Hch as [-> _].
  assert (Hclear : marks_clear (heap s)).
  { intros i c Hi. eapply Hmk; [done|]. apply not_elem_of_nil. }
  destruct (mark_all_total _ _ Hwf) as (h1&H1).
  pose proof (mark_all_spec _ _ _ H1) as (L&_&_).
  pose proof (Forall2_length _ _ _ L) as Hlen1.
  assert (Hun : ∀ i, i ∈ unmarked_cells h1
                     ↔ i < heap_size s ∧ ¬ reach (heap s) (roots s) i).
  { intros i. rewrite elem_of_unmarked_cells. unfold heap_size. split.
    - intros (c&Hc&Hm). split; [rewrite Hlen1; by eapply lookup_lt_Some|].
      intros Hr. destruct (mark_all_reach _ _ _ Hclear H1 _ Hr) as (c'&?&?). congruence.
    - intros [Hi Hnr]. destruct (lookup_lt_is_Some_2 h1 i) as [c Hc]; [lia|].
      exists c. split; [done|]. destruct (c_mark c) eqn:Hm; [|done].
      destruct Hnr. destruct (mark_all_sound _ _ _ i H1) as [(c0&Hc0&Hm0)|]; [by exists c| |done].
      by rewrite (Hclear _ _ Hc0) in Hm0. }
  assert (Hdec : ∀ i, reach (heap s) (roots s) i ∨ ¬ reach (heap s) (roots s) i).
  { intros i. destruct (marked_dec h1 i) as [Hm|Hm].
    - left. destruct (mark_all_sound _ _ _ i H1 Hm) as [(c0&Hc0&Hm0)|]; [|done].
      by rewrite (Hclear _ _ Hc0) in Hm0.
    - right. intros Hr. apply Hm. by eapply mark_all_reach. }
  destruct (collect s) as [[[h2 fl2] count]|] eqn:Hc;
    [|unfold collect in Hc; by rewrite H1 in Hc].
  pose proof (collect_spec _ _ _ _ Hc) as (h1'&H1'&_&Hch&Hcount&_).
  rewrite H1 in H1'. injection H1' as <-. rewrite Hfl in Hch.
  pose proof (garbage_collect_rooted s Hs Hfl) as Hrun.
  unfold runs in *. rewrite garbage_collect_unfold, Hc in *.
  destruct (decide (count = 0)) as [Hz|Hnz].
  - split; [done|]. split; [|by eauto].
    intros _ i Hi. destruct (Hdec i) as [|Hnr]; [done|].
    assert (Hin : i ∈ unmarked_cells h1) by by apply Hun.
    destruct (unmarked_cells h1); [by apply elem_of_nil in Hin|]. simpl in *. lia.
  - destruct Hrun as (Hs'&_&Hag&Hfr). split.
    + repeat (split; [done|]). exists (reverse (unmarked_cells h1)).
      split; [done|]. split.
      * rewrite reverse_Permutation. apply NoDup_unmarked_from.
      * intros i. rewrite elem_of_reverse. apply Hun.
    + split; [by intros (?&?)|]. intros Hall. exfalso.
      destruct (unmarked_cells h1) as [|i l]; [simpl in *; lia|].
      assert (Hi : i ∈ i :: l) by by left.
      apply Hun in Hi as [Hi Hnr]. auto.
Qed.

(** The interpreter with [-heap 42], after its one free cell has been
    allocated and dropped: the collection frees that cell and no other. *)
Lemma garbage_collect_exact_witness :
  let s := state_after (new_cell CELL_LIST) (booted 42 []) in
  rooted [] s ∧ free_list s = NULL
  ∧ runs exhaustible garbage_collect s (λ _ s', rooted [] s').
Proof.
  intros s.
  assert (Hs : rooted [] s) by (apply check_rooted_sound; vm_compute; reflexivity).
  assert (Hfl : free_list s = NULL) by (vm_compute; reflexivity).
  split; [exact Hs|]. split; [exact Hfl|].
  destruct (garbage_collect_exact s Hs Hfl) as [Hrun _].
  eapply runs_mono; [exact Hrun|]. by intros [] s' (Hs'&_).
Defined.

(** ** The allocator *)

(** X3. In a consistent heap [new_cell] never hands out a cell that the
    roots reach, whether it collects or not: the cell it returns was out of
    reach of the binding list and of the protection stack, every cell
    within their reach is exactly as it was, the roots and the other
    globals are unchanged, and the heap is consistent again with the new
    cell held by the caller. The only other outcome is the exit of a
    collection that frees nothing. *)
Theorem new_cell_keeps_live_cells (type : CELL_TYPE) (s : state) :
  rooted [] s →
  runs exhaustible (new_cell type) s (λ c s', ∃ i,
    c = Cell i
    ∧ ¬ reach (heap s) (roots s) i
    ∧ heap s' !! i = Some (fresh type)
    ∧ (∀ j, reach (heap s) (roots s) j → heap s' !! j = heap s !! j)
    ∧ frame s s'
    ∧ rooted [Cell i] s').
Proof. apply new_cell_inv. Qed.

(** The interpreter as it starts with [-heap 64]. *)
Lemma new_cell_keeps_live_cells_witness :
  let s := booted 64 [] in
  rooted [] s
  ∧ runs exhaustible (new_cell CELL_LIST) s (λ c s', rooted [c] s').
Proof.
  intros s.
  assert (Hs : rooted [] s) by (apply check_rooted_sound; vm_compute; reflexivity).
  split; [exact Hs|].
  eapply runs_mono; [exact (new_cell_keeps_live_cells CELL_LIST s Hs)|].
  by intros c s' (i&->&_&_&_&_&Hs').
Defined.

(** ** The binding list *)

(** X4. [eval_atom] is the lookup of the first entry for the atom in the
    binding list: it returns the value of that entry and leaves the state
    alone; when the atom has no entry, or when its first entry holds [NULL],
    it prints the unbound-atom diagnostic once and returns the error cell.
    The fuel that the search is given is enough for every binding list that
    ends in [NULL]. *)
Theorem eval_atom_lookup (s : state) (l : list binding) (expr : ptr) :
  env_at (heap s) (binding_list s) l →
  (∀ b, assoc expr l = Some b → b_value b ≠ NULL →
        eval_atom expr s = Ok (b_value b) s)
  ∧ (∀ name,
       atom_name (heap s) expr = Some name →
       assoc expr l = None ∨ (∃ b, assoc expr l = Some b ∧ b_value b = NULL) →
       eval_atom expr s
       = Ok (error_cell s)
           (with_out (out s ++ ["Error: unbound atom " +:+ dquote +:+ name
                                 +:+ dquote +:+ "."]) s)).
Proof.
  intros Hl. split.
  - intros b Hb Hv. rewrite (eval_atom_env _ _ _ Hl). unfold eval_atom_in.
    rewrite Hb. by rewrite decide_False.
  - intros name Hname Hnone.
    assert (Hun : unbound expr s
                  = Ok (error_cell s)
                      (with_out (out s ++ ["Error: unbound atom " +:+ dquote +:+ name
                                            +:+ dquote +:+ "."]) s)).
    { unfold atom_name in Hname. destruct expr as [|i]; [done|].
      destruct (heap s !! i) as [c|] eqn:Hi; [|done]. simpl in Hname.
      destruct (c_car c) eqn:Hc; try done. simplify_eq.
      unfold unbound. rewrite bind_unfold. simpl.
      rewrite bind_unfold, (cell_name_at _ _ _ _ Hi Hc). done. }
    rewrite (eval_atom_env _ _ _ Hl). unfold eval_atom_in.
    destruct Hnone as [->|(b&->&Hv)]; [done|]. by rewrite decide_True.
Qed.

(** The atom [t] in the interpreter as it starts: it is bound to itself. *)
Lemma eval_atom_lookup_witness :
  let s := booted 64 [] in
  env_at (heap s) (binding_list s) (bindings s)
  ∧ eval_atom (true_cell s) s = Ok (true_cell s) s.
Proof.
  intros s.
  assert (Hl : env_at (heap s) (binding_list s) (bindings s)).
  { apply (read_env_sound (S (heap_size s))). vm_compute. reflexivity. }
  split; [exact Hl|].
  destruct (eval_atom_lookup s (bindings s) (true_cell s) Hl) as [H _].
  apply (H (mkBinding 5 3 (Cell 4) (Cell 4))); [vm_compute; reflexivity|discriminate].
Defined.

(** X5. [set] on an atom that has an entry in a binding list whose cells are
    pairwise distinct overwrites the value of the first entry for that atom
    and nothing else: no cell is allocated, nothing is printed, every other
    cell of the heap is as it was. Afterwards [eval_atom] of that atom
    returns the new value (unless that is [NULL]), and [eval_atom] of any
    other atom finds what the old entries held. *)
Theorem set_then_eval_atom (s : state) (l : list binding) (a v : ptr) (b : binding) :
  env_at (heap s) (binding_list s) l →
  NoDup (env_cells l) →
  (∀ b', b' ∈ l → Cell (b_link b') ≠ nil_cell s) →
  a ≠ error_cell s → v ≠ error_cell s →
  cell_type a s = Ok CELL_ATOM s →
  assoc a l = Some b →
  ∃ s',
    set a v s = Ok v s'
    ∧ env_at (heap s') (binding_list s') (rebind a v l)
    ∧ (∀ i, i ≠ b_pair b → heap s' !! i = heap s !! i)
    ∧ frame s s' ∧ free_list s' = free_list s ∧ out s' = out s
    ∧ (v ≠ NULL → eval_atom a s' = Ok v s')
    ∧ (∀ a', a' ≠ a → eval_atom a' s' = eval_atom_in l a' s').
Proof.
  intros Hl Hnd Hnil Ha Hv Hty Hb.
  pose proof (env_at_length _ _ _ Hl) as Hlen.
  pose proof (set_binding_env a v s _ _ Hl Hnil (S (heap_size s))
                ltac:(unfold heap_size; lia)) as Hset.
  rewrite Hb in Hset. destruct Hset as (cp&Hcp&Hset).
  set (s' := with_heap (<[b_pair b := set_cdr (to_cell v) cp]> (heap s)) s) in *.
  assert (Hl' : env_at (heap s') (binding_list s') (rebind a v l))
    by by apply env_at_rebind.
  exists s'. split.
  { unfold set. rewrite bind_unfold. simpl.
    rewrite decide_False by (by intros []).
    rewrite bind_unfold, Hty. rewrite decide_False by (by intros ?).
    rewrite bind_unfold. simpl in Hset. simpl. rewrite Hset. done. }
  split; [done|]. split.
  { intros i Hi. simpl. by apply list_lookup_insert_ne. }
  split. { repeat split; simpl; try done. by rewrite length_insert. }
  split; [done|]. split; [done|]. split.
  - intros Hnn. rewrite (eval_atom_env _ _ _ Hl'). unfold eval_atom_in.
    rewrite (assoc_rebind_eq _ _ _ _ Hb). simpl. by rewrite decide_False.
  - intros a' Hne. rewrite (eval_atom_env _ _ _ Hl'). unfold eval_atom_in.
    by rewrite assoc_rebind_ne.
Qed.

(** [(set (quote t) nil)] in the interpreter as it starts. *)
Lemma set_then_eval_atom_witness :
  let s := booted 64 [] in
  NoDup (env_cells (bindings s))
  ∧ ∃ s', set (true_cell s) (nil_cell s) s = Ok (nil_cell s) s'
          ∧ eval_atom (true_cell s) s' = Ok (nil_cell s) s'.
Proof.
  intros s.
  assert (Hl : env_at (heap s) (binding_list s) (bindings s)).
  { apply (read_env_sound (S (heap_size s))). vm_compute. reflexivity. }
  assert (Hnd : NoDup (env_cells (bindings s))).
  { apply (bool_decide_eq_true_1 (NoDup (env_cells (bindings s)))).
    vm_compute. reflexivity. }
  split; [exact Hnd|].
  destruct (set_then_eval_atom s (bindings s) (true_cell s) (nil_cell s)
              (mkBinding 5 3 (Cell 4) (Cell 4)) Hl Hnd)
    as (s'&Hset&_&_&_&_&_&Hget&_).
  - apply (check_forall _ (λ b', bool_decide (Cell (b_link b') ≠ nil_cell s)));
      [intros b'; apply bool_decide_eq_true_1|vm_compute; reflexivity].
  - vm_compute; discriminate.
  - vm_compute; discriminate.
  - vm_compute; reflexivity.
  - vm_compute; reflexivity.
  - exists s'. split; [exact Hset|]. apply Hget. vm_compute; discriminate.
Defined.

(** X6. [new_atom] on a name that an atom of the binding list carries returns
    the first such atom and does nothing else: no cell is allocated, so no
    collection can happen, and the state is unchanged; a further [new_atom]
    of the name returns the same cell. *)
Theorem new_atom_known_name (s : state) (l : list binding) (name : string)
    (b : binding) :
  env_at (heap s) (binding_list s) l →
  (∀ b', b' ∈ l → Cell (b_link b') ≠ nil_cell s) →
  (∀ b', b' ∈ l → is_Some (atom_name (heap s) (b_atom b'))) →
  assoc_name (heap s) name l = Some b →
  new_atom name s = Ok (b_atom b) s
  ∧ atom_name (heap s) (b_atom b) = Some name.
Proof.
  intros Hl Hnil Hnames Hb.
  pose proof (env_at_length _ _ _ Hl) as Hlen. split.
  - unfold new_atom. rewrite bind_unfold. cbn -[find_atom].
    rewrite bind_unfold.
    rewrite (find_atom_env name s _ _ Hl Hnil Hnames) by (unfold heap_size; lia).
    by rewrite Hb.
  - clear -Hb. induction l as [|b0 l IH]; [done|]. simpl in Hb.
    case_decide; [by simplify_eq|auto].
Qed.

(** The name [car] in the interpreter as it starts. *)
Lemma new_atom_known_name_witness :
  let s := booted 64 [] in
  assoc_name (heap s) "car" (bindings s) = Some (mkBinding 11 9 (Cell 10) (Cell 12))
  ∧ new_atom "car" s = Ok (Cell 10) s.
Proof.
  intros s.
  assert (Hl : env_at (heap s) (binding_list s) (bindings s)).
  { apply (read_env_sound (S (heap_size s))). vm_compute. reflexivity. }
  assert (Hb : assoc_name (heap s) "car" (bindings s)
               = Some (mkBinding 11 9 (Cell 10) (Cell 12)))
    by (vm_compute; reflexivity).
  split; [exact Hb|].
  refine (proj1 (new_atom_known_name s (bindings s) "car" _ Hl _ _ Hb)).
  - apply (check_forall _ (λ b', bool_decide (Cell (b_link b') ≠ nil_cell s)));
      [intros b'; apply bool_decide_eq_true_1|vm_compute; reflexivity].
  - apply (check_forall _ (λ b', bool_decide (is_Some (atom_name (heap s) (b_atom b')))));
      [intros b'; apply bool_decide_eq_true_1|vm_compute; reflexivity].
Defined.

(** ** The atom table *)

(** X13. [new_atom] on a name that no atom of the binding list carries, with
    three cells on the free list so that no collection runs: it takes the
    first three free cells, makes the second the atom of that name, the first
    the pair [(atom . NULL)] and the third the list cell that puts the pair
    in front of the binding list, and changes no other cell. The heap stays
    consistent, and a second [new_atom] of the name returns the same atom and
    allocates nothing. *)
Theorem new_atom_fresh_name (s : state) (l : list binding) (name : string)
    (i1 i2 i3 : nat) (fl : list nat) :
  init s = true →
  heap_ok (heap s) (free_list s) (roots s) (i1 :: i2 :: i3 :: fl) →
  env_at (heap s) (binding_list s) l →
  (∀ i, i ∈ env_cells l → is_list s (Cell i)) →
  (∀ b, b ∈ l → Cell (b_link b) ≠ nil_cell s) →
  (∀ b, b ∈ l → is_Some (atom_name (heap s) (b_atom b))) →
  assoc_name (heap s) name l = None →
  Cell i3 ≠ nil_cell s →
  ∃ s',
    new_atom name s = Ok (Cell i2) s'
    ∧ heap s' !! i2 = Some (mkCELL (to_name name) (to_cell NULL) CELL_ATOM false)
    ∧ env_at (heap s') (binding_list s') (mkBinding i3 i1 (Cell i2) NULL :: l)
    ∧ (∀ j, j ∉ [i1; i2; i3] → heap s' !! j = heap s !! j)
    ∧ out s' = out s
    ∧ init s' = true ∧ heap_ok (heap s') (free_list s') (roots s') fl
    ∧ new_atom name s' = Ok (Cell i2) s'.
Proof.
  intros Hinit Hok Hl Hty Hnil Hnames Hnone Hn3.
  destruct (runs_strict_Ok _ _ _
              (new_atom_fresh s l name i1 i2 i3 fl Hinit Hok Hl Hnil Hnames Hnone))
    as (a&s'&Hrun&->&Hother&H1&H2&H3&Hbl&Hpt&Hnl&Herr&Hinit'&Hout&Hok').
  exists s'. split; [done|]. split; [done|].
  assert (Hfree : ∀ j, reach (heap s) (roots s) j → j ∉ [i1; i2; i3]).
  { intros j Hj Hin. destruct Hok as (_&_&_&_&Hfree). apply (Hfree j Hj).
    rewrite !elem_of_cons, elem_of_nil in Hin. rewrite !elem_of_cons. tauto. }
  assert (Hreach : ∀ i, i ∈ env_cells l → reach (heap s) (roots s) i).
  { eapply env_at_reach; [exact Hl|exact Hty|]. intros k Hk. apply reach_root.
    apply elem_of_roots. by left. }
  assert (Hl' : env_at (heap s') (binding_list s') (mkBinding i3 i1 (Cell i2) NULL :: l)).
  { rewrite Hbl. eapply (env_at_cons _ (mkBinding i3 i1 (Cell i2) NULL)); simpl;
      [exact H3|done|done|exact H1|done|done|].
    eapply env_at_agree; [exact Hl|]. intros i Hi. by apply Hother, Hfree, Hreach. }
  split; [done|]. split; [done|]. split; [done|]. split; [done|]. split; [done|].
  assert (Hname2 : atom_name (heap s') (Cell i2) = Some name).
  { unfold atom_name. by rewrite H2. }
  assert (Hatoms : ∀ b, b ∈ l → atom_name (heap s') (b_atom b) = atom_name (heap s) (b_atom b)).
  { intros b Hb. destruct (Hnames b Hb) as [n Hn]. unfold atom_name in *.
    destruct (b_atom b) as [|k] eqn:Hk; [done|]. rewrite Hother; [done|].
    apply Hfree. destruct (env_at_from _ _ _ _ Hl Hb) as (l0&Hfrom&_).
    inversion Hfrom as [|b' cl cp next l'' Hcl Hp Hnx Hq Ha Hv Hrest]; subst.
    eapply reach_child.
    - apply Hreach. apply elem_of_env_cells. exists b. split; [done|]. by right.
    - exists cp. split; [done|]. split; [|left; congruence].
      destruct (Hty (b_pair b)) as (q&cq&[= <-]&Hcq&Htq).
      + apply elem_of_env_cells. exists b. split; [done|]. by right.
      + rewrite Hq in Hcq. simplify_eq. by rewrite Htq. }
  unfold new_atom. rewrite bind_unfold. cbn -[find_atom]. rewrite bind_unfold.
  rewrite (find_atom_env name s' _ _ Hl').
  - cbn [assoc_name b_atom]. by rewrite decide_True.
  - intros b [->|Hb]%elem_of_cons; simpl; rewrite Hnl; [done|by apply Hnil].
  - intros b [->|Hb]%elem_of_cons; cbn [b_atom]; [by rewrite Hname2|].
    rewrite Hatoms by done. by apply Hnames.
  - pose proof (env_at_length _ _ _ Hl'). unfold heap_size. lia.
Qed.

(** The name [zzz] in the interpreter as it starts with 64 cells: cells 41
    to 63 are free. *)
Lemma new_atom_fresh_name_witness :
  let s := booted 64 [] in
  ∃ s', new_atom "zzz" s = Ok (Cell 42) s' ∧ new_atom "zzz" s' = Ok (Cell 42) s'.
Proof.
  intros s.
  destruct (new_atom_fresh_name s (bindings s) "zzz" 41 42 43 (seq 44 20))
    as (s'&H1&_&_&_&_&_&_&H2).
  - vm_compute. reflexivity.
  - apply (check_heap_free_cells _ _ _ 30); vm_compute; reflexivity.
  - apply (read_env_sound (S (heap_size s))). vm_compute. reflexivity.
  - apply (check_forall (λ i, is_list s (Cell i))
             (λ i, is_type (heap s) (Cell i) CELL_LIST)).
    + intros i. apply is_type_sound.
    + vm_compute. reflexivity.
  - apply (check_forall _ (λ b, bool_decide (Cell (b_link b) ≠ nil_cell s))).
    + intros b. apply bool_decide_eq_true_1.
    + vm_compute. reflexivity.
  - apply (check_forall _ (λ b, bool_decide (is_Some (atom_name (heap s) (b_atom b))))).
    + intros b. apply bool_decide_eq_true_1.
    + vm_compute. reflexivity.
  - vm_compute. reflexivity.
  - vm_compute. discriminate.
  - exists s'. split; [exact H1|exact H2].
Defined.

(** ** Equality of atoms *)

(** X16. On names that atoms of the binding list carry, [equal] after
    [new_atom] decides the equality of the names: interning two such names
    and comparing the atoms returns the cell [t] when the names are the same
    string and the cell [nil] otherwise, and leaves the state as it was. *)
Theorem equal_interned (s : state) (l : list binding) (n1 n2 : string)
    (b1 b2 : binding) :
  env_at (heap s) (binding_list s) l →
  (∀ b, b ∈ l → Cell (b_link b) ≠ nil_cell s) →
  (∀ b, b ∈ l → is_Some (atom_name (heap s) (b_atom b))) →
  (∀ b, b ∈ l → type_at (heap s) (b_atom b) CELL_ATOM) →
  assoc_name (heap s) n1 l = Some b1 → assoc_name (heap s) n2 l = Some b2 →
  (a ← new_atom n1; b ← new_atom n2; equal a b) s
  = Ok (if decide (n1 = n2) then true_cell s else nil_cell s) s.
Proof.
  intros Hl Hnil Hnames Hatoms H1 H2.
  assert (Hnew : ∀ n b, assoc_name (heap s) n l = Some b →
                        new_atom n s = Ok (b_atom b) s
                        ∧ b ∈ l ∧ atom_name (heap s) (b_atom b) = Some n).
  { intros n b Hb. split.
    - unfold new_atom. rewrite bind_unfold. cbn -[find_atom]. rewrite bind_unfold.
      rewrite (find_atom_env n s _ _ Hl Hnil Hnames).
      + by rewrite Hb.
      + pose proof (env_at_length _ _ _ Hl). unfold heap_size. lia.
    - clear -Hb. induction l as [|b0 l IH]; [done|]. simpl in Hb.
      case_decide; [simplify_eq; split; [by left|done]|].
      destruct (IH Hb) as [? ?]. split; [by right|done]. }
  destruct (Hnew n1 b1 H1) as (E1&Hin1&Hname1), (Hnew n2 b2 H2) as (E2&Hin2&Hname2).
  rewrite bind_unfold, E1, bind_unfold, E2.
  destruct (Hatoms b1 Hin1) as (i&c&Hi&Hc&Ht).
  unfold equal. rewrite bind_unfold. cbn [get].
  rewrite decide_False by (by rewrite Hi).
  rewrite bind_unfold, (type_at_cell_type s (b_atom b1) CELL_ATOM) by (by apply Hatoms).
  destruct (decide (n1 = n2)) as [->|Hne].
  - rewrite H1 in H2. injection H2 as ->. by rewrite decide_True.
  - rewrite decide_False; [done|]. intros [_ Heq]. rewrite Heq in Hname1. congruence.
Qed.

(** The names [car] and [cdr] in the interpreter as it starts. *)
Lemma equal_interned_witness :
  let s := booted 64 [] in
  (a ← new_atom "car"; b ← new_atom "cdr"; equal a b) s = Ok (nil_cell s) s
  ∧ (a ← new_atom "car"; b ← new_atom "car"; equal a b) s = Ok (true_cell s) s.
Proof.
  intros s.
  assert (Hl : env_at (heap s) (binding_list s) (bindings s)).
  { apply (read_env_sound (S (heap_size s))). vm_compute. reflexivity. }
  assert (Hnil : ∀ b, b ∈ bindings s → Cell (b_link b) ≠ nil_cell s).
  { apply (check_forall _ (λ b, bool_decide (Cell (b_link b) ≠ nil_cell s))).
    - intros b. apply bool_decide_eq_true_1.
    - vm_compute. reflexivity. }
  assert (Hnames : ∀ b, b ∈ bindings s → is_Some (atom_name (heap s) (b_atom b))).
  { apply (check_forall _ (λ b, bool_decide (is_Some (atom_name (heap s) (b_atom b))))).
    - intros b. apply bool_decide_eq_true_1.
    - vm_compute. reflexivity. }
  assert (Hatoms : ∀ b, b ∈ bindings s → type_at (heap s) (b_atom b) CELL_ATOM).
  { apply (check_forall (λ b, type_at (heap s) (b_atom b) CELL_ATOM)
             (λ b, is_type (heap s) (b_atom b) CELL_ATOM)).
    - intros b. apply is_type_sound.
    - vm_compute. reflexivity. }
  split.
  - apply (equal_interned s (bindings s) "car" "cdr" (mkBinding 11 9 (Cell 10) (Cell 12))
             (mkBinding 15 13 (Cell 14) (Cell 16)) Hl Hnil Hnames Hatoms);
      vm_compute; reflexivity.
  - apply (equal_interned s (bindings s) "car" "car" (mkBinding 11 9 (Cell 10) (Cell 12))
             (mkBinding 11 9 (Cell 10) (Cell 12)) Hl Hnil Hnames Hatoms);
      vm_compute; reflexivity.
Defined.

(** ** Calls of value functions *)

(** X17. A list [(q x y ...)] or [(q x)] whose head is an atom bound to a
    value function, with arguments whose evaluation leaves the state alone:
    [x] is evaluated first, with the list on the protection stack, then [y]
    with the value of [x] on the stack as well; for [(q x)] the atom [nil]
    is evaluated in the place of [y]. Both are taken off the stack, and the
    function is applied to the two values. An error value of [x] does not
    stop the evaluation of [y]. *)
Theorem eval_value_call (fuel : nat) (s : state) (l : list binding)
    (expr q args x r1 y r2 a v : ptr) (b : binding) (g : host_func) :
  env_at (heap s) (binding_list s) l →
  type_at (heap s) (nil_cell s) CELL_ATOM →
  type_at (heap s) (error_cell s) CELL_ATOM →
  nil_cell s ≠ error_cell s →
  pair_at (heap s) expr q args →
  type_at (heap s) q CELL_ATOM → q ≠ error_cell s → assoc q l = Some b →
  func_at (heap s) (b_value b) CELL_VFUNC g →
  pair_at (heap s) args x r1 →
  (r1 = NULL ∧ y = nil_cell s) ∨ pair_at (heap s) r1 y r2 →
  eval_lisp (S fuel) x (protected expr s) = Ok a (protected expr s) →
  eval_lisp (S fuel) y (protected a (protected expr s))
  = Ok v (protected a (protected expr s)) →
  eval_lisp (S (S fuel)) expr s = call2 (eval_lisp (S fuel)) g a v s.
Proof.
  intros Hl Hnt Het Hne Hexpr Hq Hqe Hb Hf Hargs Hr1 Hx Hy.
  set (s1 := protected expr s) in *. set (s2 := protected a s1) in *.
  assert (Hlist : ∀ p c d, pair_at (heap s) p c d → p ≠ nil_cell s ∧ p ≠ error_cell s).
  { intros p c d Hp. split; (eapply type_at_ne; [by eapply pair_at_type|done..]). }
  destruct (Hlist _ _ _ Hexpr) as [Hen Hee], (Hlist _ _ _ Hargs) as [Han Hae].
  assert (Hfe : b_value b ≠ error_cell s).
  { eapply type_at_ne; [by eapply func_at_type|done..]. }
  assert (Hfn : b_value b ≠ NULL) by (destruct Hf as (?&?&->&_); done).
  rewrite eval_lisp_S. unfold eval_step at 1. rewrite bind_unfold. cbn [get].
  rewrite decide_False by done.
  rewrite bind_unfold, (type_at_cell_type s expr CELL_LIST (pair_at_type _ _ _ _ Hexpr)).
  rewrite decide_False by done. rewrite decide_True by done.
  rewrite bind_unfold. change (protect expr s) with (Ok tt s1). cbv iota.
  rewrite bind_unfold, (pair_at_car s1 expr q args Hexpr).
  rewrite bind_unfold, (eval_bound_atom fuel s1 l q b Hl Hq Hb Hqe Hfn).
  rewrite decide_False by done.
  rewrite bind_unfold, (type_at_cell_type s1 _ CELL_VFUNC (func_at_type _ _ _ _ Hf)).
  rewrite decide_True by done.
  rewrite bind_unfold, (pair_at_cdr s1 expr q args Hexpr).
  rewrite bind_unfold, (car_at s1 args x r1 NULL Hargs Hae Han).
  rewrite bind_unfold, Hx.
  rewrite bind_unfold. change (protect a s1) with (Ok tt s2). cbv iota.
  rewrite bind_unfold, (pair_at_cdr s2 expr q args Hexpr).
  rewrite bind_unfold, (cdr_at s2 args x r1 NULL Hargs Hae Han).
  assert (Hcar : car (if decide (r1 = NULL) then nil_cell s2 else r1) NULL s2 = Ok y s2).
  { destruct Hr1 as [[-> ->]|Hr1].
    - rewrite decide_True by done. exact (car_nil s2 NULL Hne).
    - destruct (Hlist _ _ _ Hr1) as [Hrn Hre].
      rewrite decide_False by (destruct Hr1 as (?&?&->&_); done).
      by apply (car_at s2 r1 y r2 NULL). }
  rewrite bind_unfold, Hcar. rewrite bind_unfold, Hy.
  rewrite bind_unfold. change (unprotect s2) with (unprotect (protected a s1)).
  rewrite (unprotect_protected a s1).
  rewrite bind_unfold. change (unprotect s1) with (unprotect (protected expr s)).
  rewrite (unprotect_protected expr s).
  by rewrite bind_unfold, (func_at_cell_func s _ _ _ Hf).
Qed.

(** The input [(car (quote (zzz t)))]: the value is the atom [zzz]. *)
Lemma eval_value_call_witness :
  let s := state_after (parse 10)
             (booted 64 [["("; "car"; "("; "quote"; "("; "zzz"; "t"; ")"; ")"; ")"]]) in
  eval_lisp 3 (Cell 49) s = Ok (Cell 42) s.
Proof.
  intros s.
  etrans.
  - apply (eval_value_call 1 s (bindings s) (Cell 49) (Cell 10) (Cell 48) (Cell 47) NULL
             (Cell 1) NULL (Cell 45) (Cell 1) (mkBinding 11 9 (Cell 10) (Cell 12)) fn_car).
    + apply (read_env_sound (S (heap_size s))). vm_compute. reflexivity.
    + apply is_type_sound. vm_compute. reflexivity.
    + apply is_type_sound. vm_compute. reflexivity.
    + vm_compute. discriminate.
    + apply is_pair_sound. vm_compute. reflexivity.
    + apply is_type_sound. vm_compute. reflexivity.
    + vm_compute. discriminate.
    + vm_compute. reflexivity.
    + apply is_func_sound. vm_compute. reflexivity.
    + apply is_pair_sound. vm_compute. reflexivity.
    + left. split; [reflexivity|]. vm_compute. reflexivity.
    + vm_compute. reflexivity.
    + vm_compute. reflexivity.
  - vm_compute. reflexivity.
Defined.

(** ** The evaluator *)

(** X7. A list [(q x ...)] whose head is an atom bound to the special
    function [quote] evaluates to [x] itself: [x] is not evaluated, whatever
    it is, and the state is left as it was. *)
Theorem eval_quote_form (fuel : nat) (s : state) (l : list binding)
    (expr q args x rest : ptr) (b : binding) :
  env_at (heap s) (binding_list s) l →
  pair_at (heap s) expr q args → pair_at (heap s) args x rest →
  type_at (heap s) q CELL_ATOM → assoc q l = Some b →
  func_at (heap s) (b_value b) CELL_SFUNC fn_quote →
  expr ≠ error_cell s → q ≠ error_cell s → b_value b ≠ error_cell s →
  args ≠ error_cell s → args ≠ nil_cell s →
  eval_lisp (S (S fuel)) expr s = Ok x s.
Proof.
  intros Hl Hexpr Hargs Hq Hb Hf He Hqe Hfe Hae Han.
  rewrite (eval_special_form fuel s l expr q args b fn_quote) by done.
  apply (car_at s args x rest NULL); done.
Qed.

(** The input [(quote zzz)], where [zzz] has no value: the form evaluates to
    the atom [zzz]. *)
Lemma eval_quote_form_witness :
  let s := state_after (parse 10) (booted 64 [["("; "quote"; "zzz"; ")"]]) in
  eval_lisp 2 (Cell 45) s = Ok (Cell 42) s.
Proof.
  intros s.
  apply (eval_quote_form 0 s (bindings s) (Cell 45) (Cell 30) (Cell 44) (Cell 42) NULL
           (mkBinding 31 29 (Cell 30) (Cell 32))).
  - apply (read_env_sound (S (heap_size s))). vm_compute. reflexivity.
  - apply is_pair_sound. vm_compute. reflexivity.
  - apply is_pair_sound. vm_compute. reflexivity.
  - apply is_type_sound. vm_compute. reflexivity.
  - vm_compute. reflexivity.
  - apply is_func_sound. vm_compute. reflexivity.
  - vm_compute. discriminate.
  - vm_compute. discriminate.
  - vm_compute. discriminate.
  - vm_compute. discriminate.
  - vm_compute. discriminate.
Defined.

(** X8. A list [(q c t e ...)] whose head is an atom bound to the special
    function [if]: the condition [c] is evaluated with the arguments on the
    protection stack; if that returns with value [v], the form evaluates as
    [e] when [v] is the cell [nil] and as [t] otherwise (the error cell
    included), in the state that the condition left, and the other branch
    is not evaluated. *)
Theorem eval_if_form (fuel : nat) (s s1 : state) (l : list binding)
    (expr q args c r1 t r2 e r3 v : ptr) (b : binding) :
  env_at (heap s) (binding_list s) l →
  pair_at (heap s) expr q args →
  type_at (heap s) q CELL_ATOM → assoc q l = Some b →
  func_at (heap s) (b_value b) CELL_SFUNC fn_lisp_if →
  expr ≠ error_cell s → q ≠ error_cell s → b_value b ≠ error_cell s →
  pair_at (heap s) args c r1 → pair_at (heap s) r1 t r2 → pair_at (heap s) r2 e r3 →
  (∀ p, p ∈ [args; r1; r2] → p ≠ nil_cell s ∧ p ≠ error_cell s) →
  (∀ p, p ∈ [c; t; e] → p ≠ error_cell s) →
  eval_lisp (S fuel) c (protected args s) = Ok v s1 → protect_table s1 ≠ [] →
  eval_lisp (S (S fuel)) expr s
  = eval_lisp (S fuel) (if decide (v = nil_cell s) then e else t)
      (with_protect_table (tail (protect_table s1)) s1).
Proof.
  intros Hl Hexpr Hq Hb Hf He Hqe Hfe Ha H1 H2 Hp Hx Hc Hpt.
  rewrite (eval_special_form fuel s l expr q args b fn_lisp_if) by done.
  by apply (lisp_if_branch _ s s1 args c r1 t r2 e r3 v).
Qed.

(** The input [(if nil zzz t)]: the condition is [nil], so the form
    evaluates as its third argument [t]; the unbound [zzz] is not looked
    up. *)
Lemma eval_if_form_witness :
  let s := state_after (parse 10) (booted 64 [["("; "if"; "nil"; "zzz"; "t"; ")"]]) in
  eval_lisp 2 (Cell 47) s = Ok (Cell 4) s.
Proof.
  intros s.
  etrans.
  - apply (eval_if_form 0 s (protected (Cell 46) s) (bindings s)
             (Cell 47) (Cell 38) (Cell 46) (Cell 1) (Cell 45) (Cell 42) (Cell 44)
             (Cell 4) NULL (Cell 1) (mkBinding 39 37 (Cell 38) (Cell 40))).
    + apply (read_env_sound (S (heap_size s))). vm_compute. reflexivity.
    + apply is_pair_sound. vm_compute. reflexivity.
    + apply is_type_sound. vm_compute. reflexivity.
    + vm_compute. reflexivity.
    + apply is_func_sound. vm_compute. reflexivity.
    + vm_compute. discriminate.
    + vm_compute. discriminate.
    + vm_compute. discriminate.
    + apply is_pair_sound. vm_compute. reflexivity.
    + apply is_pair_sound. vm_compute. reflexivity.
    + apply is_pair_sound. vm_compute. reflexivity.
    + apply (check_forall _ (λ p, bool_decide (p ≠ nil_cell s ∧ p ≠ error_cell s))).
      * intros p. apply bool_decide_eq_true_1.
      * vm_compute. reflexivity.
    + apply (check_forall _ (λ p, bool_decide (p ≠ error_cell s))).
      * intros p. apply bool_decide_eq_true_1.
      * vm_compute. reflexivity.
    + vm_compute. reflexivity.
    + vm_compute. discriminate.
  - vm_compute. reflexivity.
Defined.

(** X9. A list whose head evaluates to the error cell evaluates to the
    error cell, and the list comes off the protection stack again. A list
    whose head evaluates to an atom or to a list is not reported: it is
    returned as it is, and it stays on the protection stack. *)
Theorem eval_list_head (fuel : nat) (s s1 : state) (expr head d f : ptr) :
  pair_at (heap s) expr head d → expr ≠ error_cell s →
  eval_lisp fuel head (protected expr s) = Ok f s1 →
  (f = error_cell s → ∀ p T, protect_table s1 = p :: T →
     eval_lisp (S fuel) expr s = Ok (error_cell s) (with_protect_table T s1))
  ∧ (f ≠ error_cell s →
     type_at (heap s1) f CELL_ATOM ∨ type_at (heap s1) f CELL_LIST →
     eval_lisp (S fuel) expr s = Ok expr s1).
Proof.
  intros Hexpr He Hhead.
  assert (Hstep : eval_lisp (S fuel) expr s
     = (if decide (f = error_cell s) then unprotect ;; ret (error_cell s)
        else tf ← cell_type f;
             if decide (tf = CELL_VFUNC) then
               args ← cell_cdr expr; x ← car args NULL; a ← eval_lisp fuel x;
               protect a ;; args ← cell_cdr expr; r ← cdr args NULL;
               y ← car r NULL; b ← eval_lisp fuel y; unprotect ;; unprotect ;;
               g ← cell_func f; call2 (eval_lisp fuel) g a b
             else if decide (tf = CELL_SFUNC) then
               unprotect ;; g ← cell_func f; args ← cell_cdr expr;
               call1 (eval_lisp fuel) g args
             else if decide (tf = CELL_LAMBDA) then
               unprotect ;; eval_lambda (eval_lisp fuel) fuel expr f
             else ret expr) s1).
  { rewrite eval_lisp_S. unfold eval_step at 1. rewrite bind_unfold. cbn [get].
    rewrite decide_False by done.
    rewrite bind_unfold, (type_at_cell_type s expr CELL_LIST (pair_at_type _ _ _ _ Hexpr)).
    rewrite decide_False by done. rewrite decide_True by done.
    rewrite bind_unfold. change (protect expr s) with (Ok tt (protected expr s)). cbv iota.
    rewrite bind_unfold, (pair_at_car (protected expr s) expr head d Hexpr).
    by rewrite bind_unfold, Hhead. }
  rewrite Hstep. split.
  - intros Hf p T HT. rewrite decide_True by done.
    rewrite bind_unfold. unfold unprotect. by rewrite HT.
  - intros Hf Hty. rewrite decide_False by done.
    destruct Hty as [Hty|Hty]; rewrite bind_unfold, (type_at_cell_type _ _ _ Hty);
      by rewrite !decide_False by done.
Qed.

(** The input [((quote zzz) t)]: the head evaluates to the atom [zzz], and
    the whole list comes back, still on the protection stack. *)
Lemma eval_list_head_witness :
  let s := state_after (parse 10)
             (booted 64 [["("; "("; "quote"; "zzz"; ")"; "t"; ")"]]) in
  eval_lisp 3 (Cell 47) s = Ok (Cell 47) (protected (Cell 47) s).
Proof.
  intros s.
  refine (proj2 (eval_list_head 2 s (protected (Cell 47) s) (Cell 47) (Cell 45)
                   (Cell 46) (Cell 42) _ _ _) _ _).
  - apply is_pair_sound. vm_compute. reflexivity.
  - vm_compute. discriminate.
  - vm_compute. reflexivity.
  - vm_compute. discriminate.
  - left. apply is_type_sound. vm_compute. reflexivity.
Defined.

(** X10. A list of one element whose head evaluates to a value function, or
    to a special function other than [lambda], makes the interpreter read
    through a null pointer: the rest of the list is [NULL], and [car] is
    called on it. *)
Theorem eval_call_without_arguments (fuel : nat) (s s1 : state)
    (expr head f : ptr) (g : host_func) :
  pair_at (heap s) expr head NULL → expr ≠ error_cell s →
  eval_lisp fuel head (protected expr s) = Ok f s1 →
  f ≠ error_cell s →
  pair_at (heap s1) expr head NULL →
  error_cell s1 ≠ NULL → nil_cell s1 ≠ NULL →
  type_at (heap s1) f CELL_VFUNC
  ∨ (func_at (heap s1) f CELL_SFUNC g ∧ g ≠ fn_lambda) →
  eval_lisp (S fuel) expr s = Crash.
Proof.
  intros Hexpr He Hhead Hf Hexpr1 He1 Hn1 Hty.
  rewrite eval_lisp_S. unfold eval_step at 1. rewrite bind_unfold. cbn [get].
  rewrite decide_False by done.
  rewrite bind_unfold, (type_at_cell_type s expr CELL_LIST (pair_at_type _ _ _ _ Hexpr)).
  rewrite decide_False by done. rewrite decide_True by done.
  rewrite bind_unfold. change (protect expr s) with (Ok tt (protected expr s)). cbv iota.
  rewrite bind_unfold, (pair_at_car (protected expr s) expr head NULL Hexpr).
  rewrite bind_unfold, Hhead. rewrite decide_False by done.
  destruct Hty as [Hty|[Hg Hnl]].
  - rewrite bind_unfold, (type_at_cell_type _ _ _ Hty). rewrite decide_True by done.
    rewrite bind_unfold, (pair_at_cdr s1 expr head NULL Hexpr1).
    by rewrite bind_unfold, car_NULL.
  - rewrite bind_unfold, (type_at_cell_type _ _ _ (func_at_type _ _ _ _ Hg)).
    rewrite decide_False by done. rewrite decide_True by done.
    rewrite bind_unfold. unfold unprotect at 1.
    destruct (protect_table s1) as [|p T] eqn:HT; [done|].
    set (s2 := with_protect_table T s1).
    assert (Hg2 : func_at (heap s2) f CELL_SFUNC g) by exact Hg.
    assert (Hexpr2 : pair_at (heap s2) expr head NULL) by exact Hexpr1.
    rewrite bind_unfold, (func_at_cell_func s2 _ _ _ Hg2).
    rewrite bind_unfold, (pair_at_cdr s2 expr head NULL Hexpr2).
    destruct g; try done; unfold call1, quote, lisp_if.
    + by apply car_NULL.
    + by apply cdr_NULL.
    + by apply car_NULL.
    + by rewrite bind_unfold, car_NULL.
Qed.

(** The input [(car)]. *)
Lemma eval_call_without_arguments_witness :
  let s := state_after (parse 10) (booted 64 [["("; "car"; ")"]]) in
  eval_lisp 2 (Cell 41) s = Crash.
Proof.
  intros s.
  apply (eval_call_without_arguments 1 s (protected (Cell 41) s) (Cell 41) (Cell 10)
           (Cell 12) fn_car).
  - apply is_pair_sound. vm_compute. reflexivity.
  - vm_compute. discriminate.
  - vm_compute. reflexivity.
  - vm_compute. discriminate.
  - apply is_pair_sound. vm_compute. reflexivity.
  - vm_compute. discriminate.
  - vm_compute. discriminate.
  - left. apply is_type_sound. vm_compute. reflexivity.
Defined.





(** ** The definition of user functions *)



(** ** The calls of user functions *)







(** ** The constructor of lists *)



(** ** An error in the first actual argument *)

(** X22. A call of a user function that has at least one formal and at
    least one actual: if the evaluation of the first actual returns the
    error cell, no formal is bound, the body is not evaluated, nothing is
    pushed on the binding list or taken off it, and the call returns the
    error cell with the protection stack as it was before the call. *)
Theorem eval_lambda_first_actual_error (ev : ptr → M ptr) (fuel : nat)
    (s s1 : state) (expr func head argv argn body x rest : ptr) :
  pair_at (heap s) expr head argv → lambda_at (heap s) func argn body →
  argn ≠ NULL → argn ≠ nil_cell s →
  pair_at (heap s) argv x rest → argv ≠ nil_cell s → argv ≠ error_cell s →
  ev x (protected (nil_cell s) (protected func (protected expr s)))
  = Ok (error_cell s) s1 →
  protect_table s1 = nil_cell s :: func :: expr :: protect_table s →
  nil_cell s1 = nil_cell s →
  eval_lambda ev (S fuel) expr func s
  = Ok (error_cell s) (with_protect_table (protect_table s) s1).
Proof.
  intros Hexpr Hfunc Hn1 Hn2 Hargv Han Hae Hx Hpt Hnil.
  destruct Hfunc as (f&cf&->&Hf&Hft&Hfa&Hfb).
  assert (Hav : argv ≠ NULL) by (destruct Hargv as (?&?&->&_); done).
  unfold eval_lambda.
  rewrite bind_unfold, (cell_car_at _ _ _ _ Hf Hfa).
  rewrite bind_unfold, (pair_at_cdr s expr head argv Hexpr).
  rewrite bind_unfold. cbn [get].
  rewrite bind_unfold. change (protect expr s) with (Ok tt (protected expr s)). cbv iota.
  rewrite bind_unfold.
  change (protect (Cell f) (protected expr s))
    with (Ok tt (protected (Cell f) (protected expr s))). cbv iota.
  set (s0 := protected (Cell f) (protected expr s)) in *.
  assert (Hbind : bind_args ev (S fuel) argn argv (nil_cell s) 0 NULL s0
                  = Ok (nil_cell s, 0%Z, error_cell s)
                      (with_protect_table (Cell f :: expr :: protect_table s) s1)).
  { cbn [bind_args]. rewrite bind_unfold. cbn [get].
    change (nil_cell s0) with (nil_cell s). change (error_cell s0) with (error_cell s).
    rewrite decide_True by done.
    rewrite bind_unfold.
    change (protect (nil_cell s) s0) with (Ok tt (protected (nil_cell s) s0)). cbv iota.
    rewrite (decide_False (P := argv = NULL)) by exact Hav.
    rewrite bind_unfold, bind_unfold.
    rewrite (car_at (protected (nil_cell s) s0) argv x rest NULL Hargv Hae Han).
    rewrite Hx. rewrite decide_True by done.
    rewrite bind_unfold. unfold unprotect. rewrite Hpt. done. }
  rewrite bind_unfold, Hbind. cbv beta iota.
  rewrite bind_unfold.
  set (s2 := with_protect_table _ s1).
  change (protect (nil_cell s) s2) with (Ok tt (protected (nil_cell s) s2)). cbv iota.
  assert (Hpush : push_bindings (S fuel) (nil_cell s) (protected (nil_cell s) s2)
                  = Ok tt (protected (nil_cell s) s2)).
  { cbn [push_bindings]. rewrite bind_unfold. cbn [get].
    rewrite decide_False; [done|]. intros [_ Hne]. apply Hne. symmetry. exact Hnil. }
  rewrite bind_unfold, Hpush.
  rewrite decide_False by (intros [_ ?]; done).
  rewrite bind_unfold. cbv beta iota. reflexivity.
Qed.

(** The call [((lambda (x) x) zzz)], once its head has been evaluated to the
    lambda cell 53: the atom [zzz] has no value. *)
Lemma eval_lambda_first_actual_error_witness :
  let s0 := state_after (parse 10)
              (booted 64 [["("; "("; "lambda"; "("; "x"; ")"; "x"; ")"; "zzz"; ")"]]) in
  let s := state_after (protect (Cell 52) ;; f ← eval_lisp 3 (Cell 47); unprotect ;; mret f)
             s0 in
  ∃ s', eval_lambda (eval_lisp 1) 1 (Cell 52) (Cell 53) s = Ok (error_cell s) s'
        ∧ binding_list s' = binding_list s ∧ protect_table s' = protect_table s.
Proof.
  intros s0 s.
  set (s1 := state_after (eval_lisp 1 (Cell 49))
               (protected (nil_cell s) (protected (Cell 53) (protected (Cell 52) s)))).
  exists (with_protect_table (protect_table s) s1). split.
  - apply (eval_lambda_first_actual_error (eval_lisp 1) 0 s s1 (Cell 52) (Cell 53)
             (Cell 47) (Cell 51) (Cell 44) (Cell 42) (Cell 49) NULL).
    + apply is_pair_sound. vm_compute. reflexivity.
    + apply is_lambda_sound. vm_compute. reflexivity.
    + discriminate.
    + vm_compute. discriminate.
    + apply is_pair_sound. vm_compute. reflexivity.
    + vm_compute. discriminate.
    + vm_compute. discriminate.
    + vm_compute. reflexivity.
    + vm_compute. reflexivity.
    + vm_compute. reflexivity.
  - split; vm_compute; reflexivity.
Defined.

(** ** Calls of user functions with actual arguments *)



(** ** The printer *)

(** X18. [print_lisp] on a list of atoms, none of them the error cell,
    prints an opening parenthesis, the names of the atoms with one blank
    between two of them and none after the last, and a closing parenthesis;
    it changes nothing but the output. *)
Theorem print_lisp_list (fuel : nat) (s : state) (p : ptr) (l : list (nat * ptr))
    (names : list string) :
  list_at (heap s) p l → l ≠ [] →
  Forall2 (λ e n, prints_as s e.2 n) l names →
  S (length l) < fuel →
  print_lisp fuel p s = Ok tt (with_out (out s ++ "(" :: spaced names ++ [")"]) s).
Proof.
  intros Hat Hne Hall Hfuel.
  destruct fuel as [|fuel]; [lia|].
  inversion Hat as [|i c x next l' Hi Ht Hx Hn Hrest]; subst; [done|].
  rewrite print_lisp_S. rewrite decide_False by done.
  rewrite bind_unfold, (cell_type_at _ _ _ Hi), Ht.
  rewrite bind_unfold, printf_at.
  set (s1 := with_out _ s).
  rewrite bind_unfold, (print_elems_atoms _ names s1 (Cell i) fuel Hat Hne Hall) by lia.
  rewrite printf_at. unfold s1, with_out. simpl. do 2 f_equal.
  by rewrite <- !app_assoc.
Qed.

(** The list [(zzz t)] as the parser builds it. *)
Lemma print_lisp_list_witness :
  let s := state_after (parse 10) (booted 64 [["("; "zzz"; "t"; ")"]]) in
  print_lisp 4 (Cell 45) s = Ok tt (with_out ["("; "zzz"; " "; "t"; ")"] s).
Proof.
  intros s.
  assert (Hp : ∀ a n, is_type (heap s) a CELL_ATOM = true →
                      atom_name (heap s) a = Some n → a ≠ error_cell s → prints_as s a n).
  { intros a n Ht Hn He. split; [by apply is_type_sound|done]. }
  apply (print_lisp_list 4 s (Cell 45) [(45, Cell 42); (44, Cell 4)] ["zzz"; "t"]).
  - apply (read_list_sound 3). vm_compute. reflexivity.
  - discriminate.
  - constructor; [|constructor; [|constructor]].
    + apply Hp; [vm_compute; reflexivity..|vm_compute; discriminate].
    + apply Hp; [vm_compute; reflexivity..|vm_compute; discriminate].
  - simpl. lia.
Defined.

(** X19. Whatever the cell, a call of [print_lisp] that returns has only
    added to the output: the heap, the free list, the binding list, the
    protection stack and the input are as before; and [print_lisp] never
    ends the process. *)
Theorem print_lisp_only_prints (fuel : nat) (cell : ptr) (s : state) :
  appends (print_lisp fuel cell) s.
Proof. apply print_appends. Qed.

(** ** Start-up *)

(** X20. The first call of [new_cell], on a block of cells with any
    contents and with the binding list still [NULL]: it links the cells into
    the free list in the order of their addresses, returns cell 0 with the
    requested tag and cleared slots, and leaves cells 1, 2, ... on the free
    list. The heap is consistent from then on, with the new cell held by
    the caller. *)
Theorem new_cell_first_call (type : CELL_TYPE) (s : state) :
  init s = false → heap s ≠ [] → binding_list s = NULL →
  ∃ s',
    new_cell type s = Ok (Cell 0) s'
    ∧ heap s' !! 0 = Some (fresh type)
    ∧ chain (heap s') (free_list s') (seq 1 (heap_size s - 1)) NULL
    ∧ protect_table s' = [] ∧ length (heap s') = length (heap s)
    ∧ rooted [Cell 0] s'.
Proof.
  intros Hinit Hne Hbl.
  pose proof (setup_heap_ok s Hbl Hne) as Hok.
  destruct (heap s) as [|c0 h] eqn:Hh; [done|].
  set (next := if decide (1 < length (c0 :: h)) then Cell 1 else NULL).
  assert (H0 : heap (setup_heap s) !! 0
               = Some (set_car (to_cell next) c0)).
  { simpl. rewrite Hh. by apply link_free_lookup. }
  exists (popped type 0 next (setup_heap s)).
  assert (Hpop : heap_ok (heap (popped type 0 next (setup_heap s))) next
                   (Cell 0 :: roots (setup_heap s)) (seq 1 (length h))).
  { simpl in Hok. eapply (heap_ok_pop _ 0 _ next); [exact Hok|exact H0|done]. }
  split.
  { rewrite new_cell_first by (by rewrite ?Hh).
    apply (new_cell_pop type (setup_heap s) 0 (set_car (to_cell next) c0) next).
    - done.
    - done.
    - exact H0.
    - done. }
  split. { simpl. rewrite Hh. done. }
  split.
  { unfold heap_size. rewrite Hh. cbn [length]. rewrite Nat.sub_succ, Nat.sub_0_r.
    destruct Hpop as [Hch _]. exact Hch. }
  split; [done|]. split. { simpl. by rewrite length_insert, length_link_free, Hh. }
  split; [done|]. by exists (seq 1 (length h)).
Qed.

(** A block of eight cells. *)
Lemma new_cell_first_call_witness :
  ∃ s', new_cell CELL_ATOM (startup (arena 8) []) = Ok (Cell 0) s' ∧ rooted [Cell 0] s'.
Proof.
  destruct (new_cell_first_call CELL_ATOM (startup (arena 8) []))
    as (s'&Hrun&_&_&_&_&Hr).
  - reflexivity.
  - discriminate.
  - reflexivity.
  - by exists s'.
Defined.

End Stutter.
